(** * Learning manager: record store, review, promotion and dashboard

    A shallow embedding of [scripts/learningManager.py] and of
    [build_dashboard], [parse_skill_frontmatter], [build_skills] and
    [read_logs] from [scripts/learningUiServer.py].

    - A Python [str] is a sequence of Unicode code points: [str := list N].
    - [re], [str] and [pathlib] primitives used by the scripts are given
      as executable functions in [Module Text] and [Module Fs].
    - Code that raises returns a [result]; code that touches the disk
      threads a file system through the [io] monad.
    - Output on stdout (the [print] calls) is not part of the model. *)

From Stdlib Require Import NArith ZArith List String Ascii Lia Bool.
From stdpp Require Import base option list gmap.

Set Default Proof Using "Type".
Local Open Scope list_scope.

(** ** Text: code points, whitespace, lines *)

Module Text.

Abbreviation char := N.
Abbreviation str := (list N).

(** An ASCII literal as a sequence of code points. *)
Definition lit (s : string) : str := List.map N_of_ascii (list_ascii_of_string s).
Arguments lit s%_string.

Definition LF : char := 10%N.
Definition CR : char := 13%N.
Definition HYPHEN : char := 45%N.

Definition in_range (lo hi c : N) : bool := ((lo <=? c) && (c <=? hi))%N.

(** [str.isspace] for one code point (CPython's [_PyUnicode_IsWhitespace]). *)
Definition is_space (c : char) : bool :=
  in_range 9 13 c || in_range 28 32 c || (c =? 133)%N || (c =? 160)%N
  || (c =? 5760)%N || in_range 8192 8202 c || (c =? 8232)%N || (c =? 8233)%N
  || (c =? 8239)%N || (c =? 8287)%N || (c =? 12288)%N.

(** Line boundaries of [str.splitlines] (CPython's [_PyUnicode_IsLinebreak]). *)
Definition is_linebreak (c : char) : bool :=
  in_range 10 13 c || in_range 28 30 c || (c =? 133)%N
  || (c =? 8232)%N || (c =? 8233)%N.

Definition is_upper (c : char) : bool := in_range 65 90 c.
Definition is_lower (c : char) : bool := in_range 97 122 c.
Definition is_digit (c : char) : bool := in_range 48 57 c.

(** The class [[a-zA-Z0-9-]] of [safe_slug]'s pattern. *)
Definition slug_class (c : char) : bool :=
  is_lower c || is_upper c || is_digit c || (c =? HYPHEN)%N.

(** The class [[A-Za-z0-9_]] of [KV_RE]'s key group. *)
Definition key_class (c : char) : bool :=
  is_upper c || is_lower c || is_digit c || (c =? 95)%N.

Definition str_eqb (a b : str) : bool := bool_decide (a = b).

(** [s.startswith(p)] *)
Fixpoint startswith (p s : str) : bool :=
  match p, s with
  | [], _ => true
  | _ :: _, [] => false
  | a :: p', b :: s' => (a =? b)%N && startswith p' s'
  end.

(** The rest of [s] after the literal [p], when [s] starts with [p]. *)
Fixpoint after_literal (p s : str) : option str :=
  match p, s with
  | [], _ => Some s
  | _ :: _, [] => None
  | a :: p', b :: s' => if (a =? b)%N then after_literal p' s' else None
  end.

(** The longest prefix of [s] in the class [f], and what follows it:
    a greedy [[...]*]. *)
Fixpoint span_class (f : char -> bool) (s : str) : str * str :=
  match s with
  | [] => ([], [])
  | c :: s' =>
      if f c then let '(a, b) := span_class f s' in (c :: a, b)
      else ([], s)
  end.

Fixpoint lstrip_by (f : char -> bool) (s : str) : str :=
  match s with
  | [] => []
  | c :: s' => if f c then lstrip_by f s' else s
  end.

Definition rstrip_by (f : char -> bool) (s : str) : str :=
  rev (lstrip_by f (rev s)).

Definition strip_by (f : char -> bool) (s : str) : str :=
  rstrip_by f (lstrip_by f s).

(** [s.rstrip()], [s.strip()] and [s.strip("-")]. *)
Definition rstrip (s : str) : str := rstrip_by is_space s.
Definition strip (s : str) : str := strip_by is_space s.
Definition strip_hyphens (s : str) : str := strip_by (fun c => (c =? HYPHEN)%N) s.

(** ["\n".join(lines)] *)
Fixpoint join_lines (lines : list str) : str :=
  match lines with
  | [] => []
  | [l] => l
  | l :: ls => l ++ LF :: join_lines ls
  end.

(** [s.splitlines()]: [cur] holds the current line, reversed.  A line
    ends at any line boundary, ["\r\n"] counting as one; a final line
    without boundary is kept when it is not empty. *)
Fixpoint splitlines_from (cur : str) (s : str) : list str :=
  match s with
  | [] => match cur with [] => [] | _ => [rev cur] end
  | c :: s' =>
      if is_linebreak c then
        match s' with
        | d :: s'' =>
            if (c =? CR)%N && (d =? LF)%N
            then rev cur :: splitlines_from [] s''
            else rev cur :: splitlines_from [] s'
        | [] => rev cur :: splitlines_from [] s'
        end
      else splitlines_from (c :: cur) s'
  end.

Definition splitlines (s : str) : list str := splitlines_from [] s.

(** Text-mode reading with [newline=None]: ["\r\n"] and ["\r"] arrive as ["\n"]. *)
Fixpoint universal_newlines (s : str) : str :=
  match s with
  | [] => []
  | c :: s' =>
      if (c =? CR)%N then
        match s' with
        | d :: s'' => if (d =? LF)%N then LF :: universal_newlines s''
                      else LF :: universal_newlines s'
        | [] => [LF]
        end
      else c :: universal_newlines s'
  end.

(** [re.sub(r"[^...]+", "-", s)] for a negated class: every maximal run of
    code points outside [cls] becomes one hyphen.  [in_run] tells that
    the hyphen of the current run is already out. *)
Fixpoint sub_runs (cls : char -> bool) (in_run : bool) (s : str) : str :=
  match s with
  | [] => []
  | c :: s' =>
      if cls c then c :: sub_runs cls false s'
      else if in_run then sub_runs cls true s'
      else HYPHEN :: sub_runs cls true s'
  end.

(** [s.lower()] on the strings [safe_slug] applies it to: they consist of
    code points of [slug_class], where lowering maps [A-Z] to [a-z] and
    fixes everything else. *)
Definition lower_char (c : char) : char := if is_upper c then (c + 32)%N else c.
Definition lower (s : str) : str := List.map lower_char s.

(** [$] without [re.MULTILINE]: at the end of the string, or just before a
    newline that ends the string. *)
Definition at_dollar (rest : str) : bool :=
  match rest with
  | [] => true
  | [c] => (c =? LF)%N
  | _ => false
  end.

(** [.] without [re.DOTALL]. *)
Definition dot (c : char) : bool := negb (c =? LF)%N.

End Text.

Import Text.

(** ** Errors

    The scripts raise [ValueError], [FileNotFoundError] and whatever the
    file system raises; [main] and the HTTP handler catch them all.  One
    constructor per raise site, and [classify] gives the error class of
    the design's taxonomy. *)

Inductive error : Type :=
| MissingFile          (* load_lines: FileNotFoundError("Missing file") *)
| UnsupportedSource    (* entries_path: ValueError("Unsupported source") *)
| FingerprintNotFound  (* find_entry_by_fingerprint: ValueError *)
| StatusNotApproved    (* cmd_promote: ValueError("Entry status must be 'approved' ...") *)
| InvalidSlug          (* safe_slug: ValueError("Invalid slug.") *)
| UnsupportedTarget    (* skill_dir: ValueError("Unsupported target") *)
| SkillExists          (* cmd_promote: ValueError("Skill already exists") *)
| IndexError           (* lines[i] out of range *)
| OSError.             (* raised by read_text, write_text or mkdir *)

Inductive error_class : Type :=
| NotFound | InvalidInput | InvalidState | DuplicateResource | IOFailure.

Definition classify (e : error) : error_class :=
  match e with
  | MissingFile | FingerprintNotFound => NotFound
  | UnsupportedSource | InvalidSlug | UnsupportedTarget => InvalidInput
  | StatusNotApproved => InvalidState
  | SkillExists => DuplicateResource
  | IndexError | OSError => IOFailure
  end.

Inductive result (A : Type) : Type :=
| Ok (a : A)
| Err (e : error).
Arguments Ok {A} a.
Arguments Err {A} e.

Definition fails_with {A} (r : result A) (c : error_class) : Prop :=
  exists e, r = Err e /\ classify e = c.

(** ** Record grammar and document parser *)

Record Entry : Type := mkEntry {
  header_index : nat;
  end_index : nat;
  timestamp : str;
  title : str;
  fingerprint : option str;
  source : option str;
  status : option str;
  details : option str;
  review_note : option str
}.

(** [ENTRY_HEADER_RE.match(line)] for the pattern
    "^- \[(?P<ts>[^\]]+)\] (?P<title>.+)$",
    giving the groups [ts] and [title].  Both groups are greedy classes
    followed by something outside the class, so the greedy choice is the
    only one that can match. *)
Definition ENTRY_HEADER_RE (line : str) : option (str * str) :=
  match after_literal (lit "- [") line with
  | None => None
  | Some r1 =>
      let '(ts, r2) := span_class (fun c => negb (c =? 93)%N) r1 in
      match ts, after_literal (lit "] ") r2 with
      | _ :: _, Some r3 =>
          let '(ttl, r4) := span_class dot r3 in
          match ttl with
          | _ :: _ => if at_dollar r4 then Some (ts, ttl) else None
          | [] => None
          end
      | _, _ => None
      end
  end.

(** [KV_RE.match(line)], giving the groups [key] and [value].  The
    pattern is: start, two spaces, hyphen, space, the group [key] as
    [[A-Za-z0-9_]+], colon, space, the group [value] as a greedy run of
    [.], then [$]. *)
Definition KV_RE (line : str) : option (str * str) :=
  match after_literal (lit "  - ") line with
  | None => None
  | Some r1 =>
      let '(key, r2) := span_class key_class r1 in
      match key, after_literal (lit ": ") r2 with
      | _ :: _, Some r3 =>
          let '(value, r4) := span_class dot r3 in
          if at_dollar r4 then Some (key, value) else None
      | _, _ => None
      end
  end.

Definition is_header (line : str) : bool :=
  match ENTRY_HEADER_RE line with Some _ => true | None => false end.

(** The inner [while j < len(lines) and not ENTRY_HEADER_RE.match(lines[j])],
    run on [rest = lines[j:]]. *)
Fixpoint next_header (rest : list str) (j : nat) : nat :=
  match rest with
  | [] => j
  | l :: rest' => if is_header l then j else next_header rest' (j + 1)
  end.

(** The five locals of [parse_entries] that the [for k] loop assigns. *)
Record kv_vars : Type := mkVars {
  v_fingerprint : option str;
  v_source : option str;
  v_status : option str;
  v_details : option str;
  v_review_note : option str
}.

Definition no_vars : kv_vars := mkVars None None None None None.

(** One round of [for k in range(i + 1, j)]. *)
Definition assign_kv (v : kv_vars) (line : str) : kv_vars :=
  match KV_RE line with
  | None => v
  | Some (key, value) =>
      if str_eqb key (lit "fingerprint") then
        mkVars (Some value) (v_source v) (v_status v) (v_details v) (v_review_note v)
      else if str_eqb key (lit "source") then
        mkVars (v_fingerprint v) (Some value) (v_status v) (v_details v) (v_review_note v)
      else if str_eqb key (lit "status") then
        mkVars (v_fingerprint v) (v_source v) (Some value) (v_details v) (v_review_note v)
      else if str_eqb key (lit "details") then
        mkVars (v_fingerprint v) (v_source v) (v_status v) (Some value) (v_review_note v)
      else if str_eqb key (lit "reviewNote") then
        mkVars (v_fingerprint v) (v_source v) (v_status v) (v_details v) (Some value)
      else v
  end.

(** [lines[a:b]] *)
Definition slice {A} (lines : list A) (a b : nat) : list A :=
  take (b - a) (drop a lines).

(** What one header line at [i] appends to [entries]. *)
Definition entry_at (lines : list str) (i j : nat) (m : str * str) : Entry :=
  let v := fold_left assign_kv (slice lines (i + 1) j) no_vars in
  mkEntry i j (fst m) (snd m)
    (v_fingerprint v) (v_source v) (v_status v) (v_details v) (v_review_note v).

(** The outer [while i < len(lines)] of [parse_entries]; each round
    consumes one unit of [fuel]. *)
Fixpoint parse_loop (fuel : nat) (lines : list str) (i : nat) (entries : list Entry)
  : list Entry :=
  match fuel with
  | 0 => entries
  | S fuel' =>
      match lines !! i with
      | None => entries
      | Some line =>
          match ENTRY_HEADER_RE line with
          | None => parse_loop fuel' lines (i + 1) entries
          | Some m =>
              let j := next_header (drop (i + 1) lines) (i + 1) in
              parse_loop fuel' lines j (entries ++ [entry_at lines i j m])
          end
      end
  end.

(** Every round advances [i], so [len(lines)] rounds are enough
    ([parse_loop_fuel] below). *)
Definition parse_entries (lines : list str) : list Entry :=
  parse_loop (length lines) lines 0 [].

(** ** Record store: lookup and field update *)

(** Python's [entry.fingerprint == fingerprint]; [None] equals no string. *)
Definition fingerprint_is (fp : str) (e : Entry) : bool :=
  match fingerprint e with
  | Some f => str_eqb f fp
  | None => false
  end.

Fixpoint find_entry_by_fingerprint (entries : list Entry) (fp : str) : result Entry :=
  match entries with
  | [] => Err FingerprintNotFound
  | entry :: rest =>
      if fingerprint_is fp entry then Ok entry
      else find_entry_by_fingerprint rest fp
  end.

(** [f"  - {key}: "] *)
Definition kv_target (key : str) : str := lit "  - " ++ key ++ lit ": ".

(** [lines.insert(at, x)] for [at >= 0]: beyond the end it appends. *)
Definition list_insert_at {A} (at_ : nat) (x : A) (lines : list A) : list A :=
  take at_ lines ++ x :: drop at_ lines.

(** The [for i in range(entry.header_index + 1, entry.end_index)] loop of
    [update_or_insert_kv], as the number [n] of indices left from [i] on.
    [Ok (Some lines')] is the early [return] after a replacement,
    [Ok None] the end of the loop without one. *)
Fixpoint update_scan (lines : list str) (target newline : str) (i n : nat)
  : result (option (list str)) :=
  match n with
  | 0 => Ok None
  | S n' =>
      match lines !! i with
      | None => Err IndexError
      | Some l =>
          if startswith target l then Ok (Some (<[i := newline]> lines))
          else update_scan lines target newline (i + 1) n'
      end
  end.

(** [update_or_insert_kv(lines, entry, key, value)]; the list is mutated
    in place in Python, the new list is returned here. *)
Definition update_or_insert_kv (lines : list str) (entry : Entry) (key value : str)
  : result (list str) :=
  let target := kv_target key in
  let newline := target ++ value in
  match update_scan lines target newline (header_index entry + 1)
          (end_index entry - (header_index entry + 1)) with
  | Err e => Err e
  | Ok (Some lines') => Ok lines'
  | Ok None => Ok (list_insert_at (end_index entry) newline lines)
  end.

(** [safe_slug(value)] *)
Definition safe_slug (value : str) : result str :=
  let slug := lower (strip_hyphens (sub_runs slug_class false (strip value))) in
  match slug with
  | [] => Err InvalidSlug
  | _ => Ok slug
  end.

(** What [save_lines] writes: ["\n".join(lines).rstrip() + "\n"]. *)
Definition saved_text (lines : list str) : str :=
  rstrip (join_lines lines) ++ [LF].

(** ** File system

    Paths are lists of components below [repo_dir], which is taken to be
    an existing directory: the empty path.  A file holds text; decoding
    and encoding (UTF-8) are not modelled, and writing leaves ["\n"] as
    it is (POSIX). *)

Module Fs.

Abbreviation path := (list str).

Inductive node : Type :=
| File (content : str)
| Dir.

#[global] Instance node_eq_dec : EqDecision node.
Proof. solve_decision. Defined.

Abbreviation t := (gmap path node).

(** What is at [p]; the empty path is [repo_dir] itself. *)
Definition node_at (fs : t) (p : path) : option node :=
  match p with
  | [] => Some Dir
  | _ => fs !! p
  end.

(** [p.exists()] and [p.is_dir()] *)
Definition exists_ (fs : t) (p : path) : bool :=
  match node_at fs p with Some _ => true | None => false end.

Definition is_dir (fs : t) (p : path) : bool :=
  match node_at fs p with Some Dir => true | _ => false end.

(** [p.parent] *)
Definition parent (p : path) : path := removelast p.

(** Every entry lies in a directory that is itself an entry. *)
Definition well_formed (fs : t) : Prop :=
  forall p n, fs !! p = Some n -> node_at fs (parent p) = Some Dir.

(** [well_formed], as a check that runs. *)
Definition well_formed_b (fs : t) : bool :=
  forallb (fun x => bool_decide (node_at fs (parent (fst x)) = Some Dir)) (map_to_list fs).

Inductive errno : Type := ENOENT | EEXIST | ENOTDIR | EISDIR.

(** [os.mkdir(p)] *)
Definition os_mkdir (fs : t) (p : path) : errno + t :=
  match node_at fs p with
  | Some _ => inl EEXIST
  | None =>
      match node_at fs (parent p) with
      | None => inl ENOENT
      | Some (File _) => inl ENOTDIR
      | Some Dir => inr (<[p := Dir]> fs)
      end
  end.

(** [Path.mkdir(parents=False, exist_ok=True)] *)
Definition mkdir_one (fs : t) (p : path) : result t :=
  match os_mkdir fs p with
  | inr fs' => Ok fs'
  | inl ENOENT => Err OSError
  | inl _ => if is_dir fs p then Ok fs else Err OSError
  end.

(** [Path.mkdir(parents=True, exist_ok=True)] on the path [rev rp]: it
    tries [os.mkdir] first and creates the parents only when that fails
    with [FileNotFoundError]. *)
Fixpoint mkdir_parents_rev (fs : t) (rp : path) : result t :=
  match os_mkdir fs (rev rp) with
  | inr fs' => Ok fs'
  | inl ENOENT =>
      match rp with
      | [] => Err OSError
      | _ :: rparent =>
          match mkdir_parents_rev fs rparent with
          | Err e => Err e
          | Ok fs1 => mkdir_one fs1 (rev rp)
          end
      end
  | inl _ => if is_dir fs (rev rp) then Ok fs else Err OSError
  end.

Definition mkdir_parents (fs : t) (p : path) : result t :=
  mkdir_parents_rev fs (rev p).

(** [p.read_text(encoding="utf-8")] *)
Definition read_text (fs : t) (p : path) : result str :=
  match node_at fs p with
  | Some (File c) => Ok (universal_newlines c)
  | _ => Err OSError
  end.

(** [p.write_text(text, encoding="utf-8")]: the whole file is replaced. *)
Definition write_text (fs : t) (p : path) (text : str) : result t :=
  match node_at fs p, node_at fs (parent p) with
  | Some Dir, _ => Err OSError
  | _, Some Dir => Ok (<[p := File text]> fs)
  | _, _ => Err OSError
  end.

(** [str(p.relative_to(repo_dir))] *)
Fixpoint to_str (p : path) : str :=
  match p with
  | [] => lit "."
  | [c] => c
  | c :: p' => c ++ lit "/" ++ to_str p'
  end.

End Fs.

(** ** The [io] monad: a file system threaded through code that may raise.
    An exception leaves the file system as it was when raised. *)

Definition io (A : Type) : Type := Fs.t -> result A * Fs.t.

Definition ret {A} (a : A) : io A := fun fs => (Ok a, fs).
Definition raise {A} (e : error) : io A := fun fs => (Err e, fs).
Definition bind {A B} (m : io A) (f : A -> io B) : io B :=
  fun fs =>
    match m fs with
    | (Ok a, fs') => f a fs'
    | (Err e, fs') => (Err e, fs')
    end.
Definition lift {A} (r : result A) : io A := fun fs => (r, fs).

Declare Scope io_scope.
Delimit Scope io_scope with io.
Notation "x <- m ;; k" := (bind m (fun x => k))
  (at level 100, m at next level, right associativity) : io_scope.
Notation "m ;;; k" := (bind m (fun _ => k))
  (at level 100, right associativity) : io_scope.
Local Open Scope io_scope.

Definition path_exists (p : Fs.path) : io bool := fun fs => (Ok (Fs.exists_ fs p), fs).
Definition read_text (p : Fs.path) : io str := fun fs => (Fs.read_text fs p, fs).
Definition write_text (p : Fs.path) (text : str) : io unit :=
  fun fs =>
    match Fs.write_text fs p text with
    | Ok fs' => (Ok tt, fs')
    | Err e => (Err e, fs)
    end.
Definition mkdir_parents (p : Fs.path) : io unit :=
  fun fs =>
    match Fs.mkdir_parents fs p with
    | Ok fs' => (Ok tt, fs')
    | Err e => (Err e, fs)
    end.

(** ** The commands *)

Definition entries_path (source : str) : result Fs.path :=
  if str_eqb source (lit "manual") then
    Ok [lit "learning"; lit "manual"; lit "entries.md"]
  else if str_eqb source (lit "generated") then
    Ok [lit "learning"; lit "generated"; lit "entries.md"]
  else Err UnsupportedSource.

Definition load_lines (p : Fs.path) : io (list str) :=
  ex <- path_exists p ;;
  if negb ex then raise MissingFile
  else text <- read_text p ;; ret (splitlines text).

Definition save_lines (p : Fs.path) (lines : list str) : io unit :=
  write_text p (saved_text lines).

Definition cmd_review (source fingerprint status reason : str) : io unit :=
  p <- lift (entries_path source) ;;
  lines <- load_lines p ;;
  let entries := parse_entries lines in
  entry <- lift (find_entry_by_fingerprint entries fingerprint) ;;
  lines <- lift (update_or_insert_kv lines entry (lit "status") status) ;;
  lines <- (match strip reason with
            | [] => ret lines
            | _ => lift (update_or_insert_kv lines entry (lit "reviewNote") (strip reason))
            end) ;;
  save_lines p lines.

(** [skill_dir(repo_dir, target, slug)]; a normalized slug holds no
    separator and is one component. *)
Definition skill_dir (target slug : str) : result Fs.path :=
  if str_eqb target (lit "skills") then
    Ok [lit "cursor"; lit "skills"; slug]
  else if str_eqb target (lit "skills-cursor") then
    Ok [lit "cursor"; lit "skills-cursor"; slug]
  else Err UnsupportedTarget.

(** The f-string of [create_skill_file]. *)
Definition skill_body (slug description title details fingerprint : str) : str :=
  join_lines
    [ lit "---";
      lit "name: " ++ slug;
      lit "description: " ++ description;
      lit "---";
      lit "";
      lit "# " ++ title;
      lit "";
      lit "Use this skill when this pattern applies in daily work.";
      lit "";
      lit "## Guidance";
      lit "";
      lit "- Keep the implementation concise and consistent with project conventions.";
      lit "- Apply the pattern intentionally; avoid using it where it does not fit.";
      lit "- Add examples in this skill over time as usage matures.";
      lit "";
      lit "## Source";
      lit "";
      lit "- learning fingerprint: `" ++ fingerprint ++ lit "`";
      lit "- original details: " ++ details;
      lit "" ].

Definition create_skill_file (p : Fs.path) (slug description title details fingerprint : str)
  : io unit :=
  write_text p (skill_body slug description title details fingerprint).

(** [entry.status not in {"approved", "promoted"}] *)
Definition promotable (entry : Entry) : bool :=
  match status entry with
  | Some s => str_eqb s (lit "approved") || str_eqb s (lit "promoted")
  | None => false
  end.

(** [x or default] on strings: the empty string is falsy. *)
Definition or_else (x default : str) : str :=
  match x with [] => default | _ => x end.

Definition cmd_promote (source fingerprint slug description target : str) : io unit :=
  entries_file <- lift (entries_path source) ;;
  lines <- load_lines entries_file ;;
  let entries := parse_entries lines in
  entry <- lift (find_entry_by_fingerprint entries fingerprint) ;;
  if negb (promotable entry) then raise StatusNotApproved
  else
    normalized_slug <- lift (safe_slug slug) ;;
    destination_dir <- lift (skill_dir target normalized_slug) ;;
    let destination_file := destination_dir ++ [lit "SKILL.md"] in
    mkdir_parents destination_dir ;;;
    ex <- path_exists destination_file ;;
    if ex then raise SkillExists
    else
      let final_description :=
        or_else (strip description) (lit "Promoted learning: " ++ title entry) in
      create_skill_file destination_file normalized_slug final_description
        (title entry) (or_else (default [] (details entry)) []) fingerprint ;;;
      lines <- load_lines entries_file ;;
      let entries := parse_entries lines in
      entry <- lift (find_entry_by_fingerprint entries fingerprint) ;;
      lines <- lift (update_or_insert_kv lines entry (lit "status") (lit "promoted")) ;;
      lines <- lift (update_or_insert_kv lines entry (lit "reviewNote")
                       (lit "Promoted to " ++ Fs.to_str destination_file)) ;;
      save_lines entries_file lines.

(** ** Dashboard *)

(** [(e.status or "").strip() == name] *)
Definition status_is (name : str) (e : Entry) : bool :=
  str_eqb (strip (default [] (status e))) name.

(** [items[:limit]] for a Python [int]: a negative bound counts from the end. *)
Definition slice_to {A} (items : list A) (limit : Z) : list A :=
  if (0 <=? limit)%Z then take (Z.to_nat limit) items
  else take (length items - Z.to_nat (- limit)) items.

Definition tagged : Type := str * Entry.

Definition all_entries (manual_entries generated_entries : list Entry) : list tagged :=
  List.map (fun e => (lit "manual", e)) manual_entries
  ++ List.map (fun e => (lit "generated", e)) generated_entries.

Definition bucket (name : str) (all : list tagged) : list tagged :=
  List.filter (fun x => status_is name (snd x)) all.

(** The dictionaries built by [serialize]. *)
Record item : Type := mkItem {
  i_source : str;
  i_timestamp : str;
  i_title : str;
  i_fingerprint : option str;
  i_status : option str;
  i_details : option str;
  i_reviewNote : option str
}.

Definition serialize_one (x : tagged) : item :=
  let e := snd x in
  mkItem (fst x) (timestamp e) (title e) (fingerprint e) (status e) (details e)
    (review_note e).

Definition serialize (items : list tagged) (item_limit : option Z) : list item :=
  let records :=
    match item_limit with
    | None => items
    | Some n => slice_to items n
    end in
  List.map serialize_one records.

Record counts : Type := mkCounts {
  c_pending : nat;
  c_approved : nat;
  c_rejected : nat;
  c_promoted : nat
}.

Record dashboard : Type := mkDashboard {
  d_counts : counts;
  d_pending : list item;
  d_all : list item
}.

Definition dashboard_of (all : list tagged) (limit : Z) : dashboard :=
  let pending := bucket (lit "pending") all in
  let approved := bucket (lit "approved") all in
  let rejected := bucket (lit "rejected") all in
  let promoted := bucket (lit "promoted") all in
  mkDashboard
    (mkCounts (length pending) (length approved) (length rejected) (length promoted))
    (serialize pending (Some limit))
    (serialize all None).

(** [build_dashboard(repo_dir, limit)] of the UI server. *)
Definition build_dashboard (limit : Z) : io dashboard :=
  pm <- lift (entries_path (lit "manual")) ;;
  lm <- load_lines pm ;;
  pg <- lift (entries_path (lit "generated")) ;;
  lg <- load_lines pg ;;
  ret (dashboard_of (all_entries (parse_entries lm) (parse_entries lg)) limit).

(** What [cmd_dashboard(repo_dir, limit)] prints: the four counts, then
    source, title, [fingerprint or 'n/a'] and [details or ''] of the
    listed pending entries. *)
Definition printed_entry (x : tagged) : str * str * str * str :=
  (fst x, title (snd x),
   or_else (default [] (fingerprint (snd x))) (lit "n/a"),
   or_else (default [] (details (snd x))) []).

Definition cmd_dashboard (limit : Z) : io (counts * list (str * str * str * str)) :=
  pm <- lift (entries_path (lit "manual")) ;;
  pg <- lift (entries_path (lit "generated")) ;;
  lm <- load_lines pm ;;
  lg <- load_lines pg ;;
  let all := all_entries (parse_entries lm) (parse_entries lg) in
  let pending := bucket (lit "pending") all in
  ret (mkCounts (length pending) (length (bucket (lit "approved") all))
         (length (bucket (lit "rejected") all)) (length (bucket (lit "promoted") all)),
       List.map printed_entry (slice_to pending limit)).

(** ** Vocabulary of the properties *)

(** [parse_from lines rest i] reads [rest = lines[i:]] line by line. *)
Fixpoint parse_from (lines rest : list str) (i : nat) : list Entry :=
  match rest with
  | [] => []
  | l :: rest' =>
      match ENTRY_HEADER_RE l with
      | None => parse_from lines rest' (i + 1)
      | Some m =>
          entry_at lines i (next_header rest' (i + 1)) m
          :: parse_from lines rest' (i + 1)
      end
  end.

(** [entry_of lines h e]: [e] is the entry the parser builds for a header
    at line [h]. *)
Definition entry_of (lines : list str) (h : nat) (e : Entry) : Prop :=
  exists l m,
    lines !! h = Some l /\ ENTRY_HEADER_RE l = Some m
    /\ e = entry_at lines h (next_header (drop (h + 1) lines) (h + 1)) m.

(** [first_match entries fp k e]: [e] is at position [k], carries [fp], and
    no entry before it does. *)
Definition first_match (entries : list Entry) (fp : str) (k : nat) (e : Entry) : Prop :=
  entries !! k = Some e /\ fingerprint e = Some fp
  /\ forall k' e', k' < k -> entries !! k' = Some e' -> fingerprint e' <> Some fp.

(** The span of a record: where its header is and where it ends. *)
Definition span (e : Entry) : nat * nat := (header_index e, end_index e).

(** The keys the parser keeps. *)
Definition recognized_keys : list str :=
  [lit "fingerprint"; lit "source"; lit "status"; lit "details"; lit "reviewNote"].

Definition recognized (key : str) : Prop := key ∈ recognized_keys.

(** The attribute of an entry, and the local of the parser, that a
    recognized key names. *)
Definition entry_field (key : str) (e : Entry) : option str :=
  if str_eqb key (lit "fingerprint") then fingerprint e
  else if str_eqb key (lit "source") then source e
  else if str_eqb key (lit "status") then status e
  else if str_eqb key (lit "details") then details e
  else if str_eqb key (lit "reviewNote") then review_note e
  else None.

Definition vars_field (key : str) (v : kv_vars) : option str :=
  if str_eqb key (lit "fingerprint") then v_fingerprint v
  else if str_eqb key (lit "source") then v_source v
  else if str_eqb key (lit "status") then v_status v
  else if str_eqb key (lit "details") then v_details v
  else if str_eqb key (lit "reviewNote") then v_review_note v
  else None.

(** The value a line gives to [key], when it is a field line for [key]. *)
Definition field_of_line (key line : str) : option str :=
  match KV_RE line with
  | Some (k, value) => if str_eqb k key then Some value else None
  | None => None
  end.

Definition is_hyphen (c : char) : bool := (c =? HYPHEN)%N.

(** Unicode lowercasing of one code point, as far as a slug can see it.
    Besides [A-Z], the code points whose lowercase form holds a character
    of [[a-z0-9-]] are U+212A KELVIN SIGN (to [k]) and U+0130 (to [i]
    followed by U+0307).  Every other code point lowercases to code
    points outside [[a-z0-9-]], which the collapsing step does not tell
    apart, and is kept as it is. *)
Definition lowercase_code_point (c : char) : str :=
  if is_upper c then [(c + 32)%N]
  else if (c =? 8490)%N then [107%N]
  else if (c =? 304)%N then [105%N; 775%N]
  else [c].

Definition lowercase (s : str) : str := flat_map lowercase_code_point s.

(** The class [[a-z0-9-]]. *)
Definition slug_alphabet (c : char) : bool :=
  is_lower c || is_digit c || is_hyphen c.

(** The normalization in the words of the design, to be compared with
    [safe_slug]: lowercase, collapse every run outside [[a-z0-9-]] into
    one hyphen, trim the hyphens at both ends, fail on the empty string. *)
Definition worded_slug (value : str) : result str :=
  match strip_hyphens (sub_runs slug_alphabet false (lowercase value)) with
  | [] => Err InvalidSlug
  | slug => Ok slug
  end.

(** What [safe_slug] computes, without its whitespace strip: collapse the
    runs outside [[a-zA-Z0-9-]], trim hyphens, lowercase. *)
Definition collapsed_slug (value : str) : str :=
  lower (strip_hyphens (sub_runs slug_class false value)).

(** Boolean tests on code points as arithmetic facts, for [lia]. *)
Ltac bool_to_prop :=
  repeat first
    [ rewrite orb_true_iff in * | rewrite andb_true_iff in *
    | rewrite orb_false_iff in * | rewrite andb_false_iff in *
    | rewrite negb_true_iff in * | rewrite negb_false_iff in *
    | rewrite N.leb_le in * | rewrite N.leb_gt in *
    | rewrite N.eqb_eq in * | rewrite N.eqb_neq in * ].

Ltac class_cases :=
  unfold lower_char, is_space, slug_class, slug_alphabet, key_class, is_hyphen,
    is_upper, is_lower, is_digit, in_range, HYPHEN, LF in *.

(** Code points other than U+212A and U+0130. *)
Definition plain (c : char) : Prop := c <> 8490%N /\ c <> 304%N.

(** Load a document, parse it, and save the lines as they were loaded. *)
Definition reserialize (p : Fs.path) : io unit :=
  (lines <- load_lines p ;;
   let entries := parse_entries lines in
   save_lines p lines)%io.

(** Text that does not end in whitespace. *)
Definition no_trailing_space (s : str) : Prop :=
  s = [] \/ exists b c, s = b ++ [c] /\ is_space c = false.

(** Text whose only line boundary is the newline. *)
Definition newline_only (text : str) : Prop :=
  Forall (fun c => is_linebreak c = true -> c = LF) text.


(** The trimmed status is one of the four bucket names. *)
Definition canonical (x : tagged) : bool :=
  status_is (lit "pending") (snd x) || status_is (lit "approved") (snd x)
  || status_is (lit "rejected") (snd x) || status_is (lit "promoted") (snd x).



(** Whether some line of the span of [e], below its header line, starts
    with [target]. *)
Definition field_line_in_span (lines : list str) (e : Entry) (target : str) : Prop :=
  exists i l, header_index e < i < end_index e /\ lines !! i = Some l
              /\ startswith target l = true.

(** ** Sample repositories *)

Definition manual_path : Fs.path := [lit "learning"; lit "manual"; lit "entries.md"].
Definition generated_path : Fs.path := [lit "learning"; lit "generated"; lit "entries.md"].
Definition artifact_path : Fs.path :=
  [lit "cursor"; lit "skills"; lit "my-pattern"; lit "SKILL.md"].

(** A repository with the two documents and the artifact of [my-pattern]. *)
Definition repo (manual generated : list str) : Fs.t :=
  list_to_map
    [ ([lit "learning"], Fs.Dir);
      ([lit "learning"; lit "manual"], Fs.Dir);
      (manual_path, Fs.File (join_lines manual ++ [LF]));
      ([lit "learning"; lit "generated"], Fs.Dir);
      (generated_path, Fs.File (join_lines generated ++ [LF]));
      ([lit "cursor"], Fs.Dir);
      ([lit "cursor"; lit "skills"], Fs.Dir);
      ([lit "cursor"; lit "skills"; lit "my-pattern"], Fs.Dir);
      (artifact_path, Fs.File (lit "x")) ].

(** A document of one record, and the entry parsed from it. *)
Definition one_record (status_value : string) : list str :=
  [ lit "- [t] Title"; lit "  - fingerprint: abc123"; lit "  - status: " ++ lit status_value ].

Definition pending_fs : Fs.t := repo (one_record "pending") [].
Definition approved_fs : Fs.t := repo (one_record "approved") [lit "- [u] Other"].

Definition one_entry (status_value : string) : Entry :=
  mkEntry 0 3 (lit "t") (lit "Title") (Some (lit "abc123")) None
    (Some (lit status_value)) None None.

(** A record with two status lines. *)
Definition twice : list str :=
  [ lit "- [t] Title"; lit "  - status: first"; lit "  - status: last" ].

Definition twice_entry : Entry :=
  mkEntry 0 3 (lit "t") (lit "Title") None None (Some (lit "last")) None None.

(** A document with a preamble line and two records. *)
Definition sample_doc : list str :=
  [ lit "# Learnings";
    lit "- [2024-01-01] First";
    lit "  - fingerprint: abc123";
    lit "  - status: pending";
    lit "";
    lit "- [2024-01-02] Second";
    lit "  - status: approved";
    lit "  - status: rejected" ].

(** The scenario of the design: a pending record is approved with a
    note, promoted under the slug [My Pattern], and promoted again. *)
Definition scenario_fs : Fs.t :=
  list_to_map
    [ ([lit "learning"], Fs.Dir);
      ([lit "learning"; lit "manual"], Fs.Dir);
      (manual_path, Fs.File (join_lines (one_record "pending") ++ [LF])) ].

(** The repository after each step, and its manual document parsed. *)
Definition after_review : Fs.t :=
  snd (cmd_review (lit "manual") (lit "abc123") (lit "approved") (lit "looks solid")
         scenario_fs).

Definition after_promote : Fs.t :=
  snd (cmd_promote (lit "manual") (lit "abc123") (lit "My Pattern") (lit "") (lit "skills")
         after_review).

Definition parsed_document (fs : Fs.t) : result (list Entry) :=
  match fst (load_lines manual_path fs) with
  | Ok lines => Ok (parse_entries lines)
  | Err e => Err e
  end.

(** ** The UI server: front matter of a skill, skill listing, action log *)

(** The closing fence of a front matter: a line of three hyphens. *)
Definition fence : str := LF :: lit "---" ++ [LF].

(** The lazy group of [FRONTMATTER_RE] and the fence after it: the
    shortest [block] such that [s] is [block], the fence, and a rest. *)
Fixpoint until_fence (s : str) : option str :=
  match after_literal fence s with
  | Some _ => Some []
  | None =>
      match s with
      | [] => None
      | c :: s' =>
          match until_fence s' with
          | Some block => Some (c :: block)
          | None => None
          end
      end
  end.

(** [FRONTMATTER_RE.search(text)], group 1.  The pattern is anchored at
    the start of the text (no MULTILINE) and its dot matches newlines
    (DOTALL): three hyphens and a newline, the lazy group, the fence. *)
Definition FRONTMATTER_RE (text : str) : option str :=
  match after_literal (lit "---" ++ [LF]) text with
  | Some rest => until_fence rest
  | None => None
  end.

(** The longest run without a newline: a greedy [.+] or [.*]. *)
Fixpoint line_head (s : str) : str :=
  match s with
  | [] => []
  | c :: s' => if (c =? LF)%N then [] else c :: line_head s'
  end.

(** The group [(.+)$] tried after [k] code points of white space, then
    after [k - 1], and so on: the backtracking of the greedy [\s*].  The
    group needs one code point that is not a newline; it then runs to
    the end of the line, where [$] matches. *)
Fixpoint group_from (rest : str) (k : nat) : option str :=
  let back := match k with 0 => None | S k' => group_from rest k' end in
  match drop k rest with
  | [] => back
  | c :: _ => if (c =? LF)%N then back else Some (line_head (drop k rest))
  end.

(** [\s*(.+)$] right after the key and its colon. *)
Definition field_value (rest : str) : option str :=
  group_from rest (length (fst (span_class is_space rest))).

(** [re.compile(r"^key:\s*(.+)$", re.MULTILINE).search(block)], group 1:
    the first position at the start of a line where the pattern matches.
    [at_line_start] tells whether [block] starts a line. *)
Fixpoint search_field (key : str) (at_line_start : bool) (block : str) : option str :=
  let here :=
    if at_line_start then
      match after_literal key block with
      | Some rest => field_value rest
      | None => None
      end
    else None in
  match here with
  | Some group => Some group
  | None =>
      match block with
      | [] => None
      | c :: block' => search_field key (c =? LF)%N block'
      end
  end.

Definition NAME_RE (block : str) : option str := search_field (lit "name:") true block.
Definition DESCRIPTION_RE (block : str) : option str :=
  search_field (lit "description:") true block.

(** The dictionary [front] of [parse_skill_frontmatter]. *)
Record front : Type := mkFront {
  f_name : str;
  f_description : str
}.

(** [parse_skill_frontmatter(skill_text)] *)
Definition parse_skill_frontmatter (skill_text : str) : front :=
  match FRONTMATTER_RE skill_text with
  | None => mkFront [] []
  | Some block =>
      mkFront
        (match NAME_RE block with Some group => strip group | None => [] end)
        (match DESCRIPTION_RE block with Some group => strip group | None => [] end)
  end.

(** Python's order on strings, by code point, and on paths, by component. *)
Fixpoint str_compare (a b : str) : comparison :=
  match a, b with
  | [], [] => Eq
  | [], _ :: _ => Lt
  | _ :: _, [] => Gt
  | x :: a', y :: b' =>
      match (x ?= y)%N with
      | Eq => str_compare a' b'
      | c => c
      end
  end.

Fixpoint path_compare (p q : Fs.path) : comparison :=
  match p, q with
  | [], [] => Eq
  | [], _ :: _ => Lt
  | _ :: _, [] => Gt
  | a :: p', b :: q' =>
      match str_compare a b with
      | Eq => path_compare p' q'
      | c => c
      end
  end.

Definition path_leb (p q : Fs.path) : bool :=
  match path_compare p q with Gt => false | _ => true end.

(** [sorted(paths)] *)
Fixpoint insert_sorted (p : Fs.path) (sorted : list Fs.path) : list Fs.path :=
  match sorted with
  | [] => [p]
  | q :: rest => if path_leb p q then p :: q :: rest else q :: insert_sorted p rest
  end.

Definition sorted (paths : list Fs.path) : list Fs.path :=
  foldr insert_sorted [] paths.

(** The directory [d] is [root] or is reached from it through
    directories only. *)
Definition reached (fs : Fs.t) (root d : Fs.path) : bool :=
  bool_decide (root `prefix_of` d)
  && forallb (fun k => Fs.is_dir fs (take k d)) (seq (length root) (S (length d - length root))).

(** [root.rglob(name)] for a name without wildcards: the entries called
    [name] in [root] and in the directories below it. *)
Definition descendants_named (fs : Fs.t) (root : Fs.path) (name : str) : list Fs.path :=
  List.filter
    (fun p => bool_decide (last p = Some name) && reached fs root (Fs.parent p))
    (List.map fst (map_to_list fs)).

Definition rglob (root : Fs.path) (name : str) : io (list Fs.path) :=
  fun fs => (Ok (descendants_named fs root name), fs).

(** A loop that collects what its body returns and stops at the first
    exception. *)
Fixpoint for_each {A B} (body : A -> io B) (items : list A) : io (list B) :=
  match items with
  | [] => ret []
  | x :: rest =>
      (y <- body x ;;
       ys <- for_each body rest ;;
       ret (y :: ys))%io
  end.

(** The dictionaries of [build_skills]. *)
Record skill_item : Type := mkSkill {
  s_source : str;
  s_name : str;
  s_description : str;
  s_path : str
}.

Record skills : Type := mkSkills {
  s_total : nat;
  s_items : list skill_item
}.

Definition skill_roots : list (str * Fs.path) :=
  [ (lit "cursor", [lit "cursor"; lit "skills"]);
    (lit "cursor-custom", [lit "cursor"; lit "skills-cursor"]);
    (lit "codex", [lit "codex"; lit "skills"]) ].

(** The body of the inner loop of [build_skills]. *)
Definition skill_item_of (source : str) (skill_file : Fs.path) : io skill_item :=
  (text <- read_text skill_file ;;
   let front := parse_skill_frontmatter text in
   ret (mkSkill source
          (or_else (f_name front) (default [] (last (Fs.parent skill_file))))
          (or_else (f_description front) (lit "No description"))
          (Fs.to_str skill_file)))%io.

(** The body of the outer loop: nothing for a root that is not there. *)
Definition skills_of_root (source : str) (root : Fs.path) : io (list skill_item) :=
  (ex <- path_exists root ;;
   if negb ex then ret []
   else
     files <- rglob root (lit "SKILL.md") ;;
     for_each (skill_item_of source) (sorted files))%io.

(** [build_skills(repo_dir)] *)
Definition build_skills : io skills :=
  (per_root <- for_each (fun r => skills_of_root (fst r) (snd r)) skill_roots ;;
   let items := concat per_root in
   ret (mkSkills (length items) items))%io.

(** [logs_file_path(repo_dir)] *)
Definition logs_file_path : Fs.path := [lit "learning"; lit "action-logs.jsonl"].

(** [items[start:]] for a Python [int]: a negative start counts from the end. *)
Definition slice_from {A} (items : list A) (start : Z) : list A :=
  if (0 <=? start)%Z then drop (Z.to_nat start) items
  else drop (length items - Z.to_nat (- start)) items.

Section Logs.

(** [json.loads] on one line: [None] stands for [JSONDecodeError]. *)
Context {J : Type} (json_loads : str -> option J).

(** The loop of [read_logs]: blank lines and lines that do not decode
    are skipped. *)
Fixpoint log_records (lines : list str) : list J :=
  match lines with
  | [] => []
  | line :: rest =>
      match strip line with
      | [] => log_records rest
      | _ :: _ =>
          match json_loads line with
          | Some record => record :: log_records rest
          | None => log_records rest
          end
      end
  end.

(** [read_logs(repo_dir, limit)] *)
Definition read_logs (limit : Z) : io (list J) :=
  (ex <- path_exists logs_file_path ;;
   if negb ex then ret []
   else
     text <- read_text logs_file_path ;;
     ret (rev (slice_from (log_records (splitlines text)) (- limit))))%io.

End Logs.

(** ** Vocabulary of the further properties *)

(** An entry moved [d] lines down. *)
Definition shift_entry (d : nat) (e : Entry) : Entry :=
  mkEntry (header_index e + d) (end_index e + d) (timestamp e) (title e)
    (fingerprint e) (source e) (status e) (details e) (review_note e).

(** The entry of a header at [i] that ends at [j], from its field lines. *)
Definition entry_with (i j : nat) (m : str * str) (body : list str) : Entry :=
  let v := fold_left assign_kv body no_vars in
  mkEntry i j (fst m) (snd m)
    (v_fingerprint v) (v_source v) (v_status v) (v_details v) (v_review_note v).

(** The parser on a suffix of the document that starts at line [i]. *)
Fixpoint parse_rest (rest : list str) (i : nat) : list Entry :=
  match rest with
  | [] => []
  | l :: rest' =>
      match ENTRY_HEADER_RE l with
      | None => parse_rest rest' (i + 1)
      | Some m =>
          let j := next_header rest' (i + 1) in
          entry_with i j m (take (j - (i + 1)) rest') :: parse_rest rest' (i + 1)
      end
  end.

(** Last write wins: the value of the last field line for [key] in
    [body], or [init] when there is none. *)
Definition last_field (key : str) (body : list str) (init : option str) : option str :=
  fold_left
    (fun acc l => match field_of_line key l with Some x => Some x | None => acc end)
    body init.

(** A list that is empty or starts with a header line. *)
Definition starts_record (b : list str) : Prop :=
  match b with
  | [] => True
  | l :: _ => is_header l = true
  end.

(** Text without any line boundary: what [splitlines] gives as a line. *)
Definition one_line (l : str) : Prop := Forall (fun c => is_linebreak c = false) l.


(** A string that neither starts nor ends with a code point of [f]. *)
Definition trimmed_of (f : char -> bool) (s : str) : Prop :=
  (exists c t, s = c :: t /\ f c = false) /\ (exists t c, s = t ++ [c] /\ f c = false).

(** What [mkdir] may do: add directories on the way to [p], nothing else. *)
Definition grown (fs fs1 : Fs.t) (p : Fs.path) : Prop :=
  fs ⊆ fs1
  /\ (forall q, fs !! q = None -> is_Some (fs1 !! q) ->
        fs1 !! q = Some Fs.Dir /\ q `prefix_of` p)
  /\ (Fs.well_formed fs -> Fs.well_formed fs1).

(** The artifact that promotion writes for [entry]. *)
Definition artifact_text (normalized_slug description fingerprint : str) (entry : Entry) : str :=
  skill_body normalized_slug
    (or_else (strip description) (lit "Promoted learning: " ++ title entry))
    (title entry) (or_else (default [] (details entry)) []) fingerprint.

(** ** Further sample data *)



Definition my_pattern_dir : Fs.path := [lit "cursor"; lit "skills"; lit "my-pattern"].


(** The skill listing of the scenario after the promotion. *)
Definition promoted_listing : skills :=
  mkSkills 1
    [ mkSkill (lit "cursor") (lit "my-pattern") (lit "Promoted learning: Title")
        (lit "cursor/skills/my-pattern/SKILL.md") ].

(** A document with a form feed, a trailing blank and an empty last line. *)
Definition ragged_fs : Fs.t :=
  {[ [lit "entries.md"] := Fs.File [97; 12; 98; 32; 10; 10]%N ]}.

(** * Evaluations *)

Example parse_doc :
  parse_entries sample_doc =
  [ mkEntry 1 5 (lit "2024-01-01") (lit "First")
      (Some (lit "abc123")) None (Some (lit "pending")) None None;
    mkEntry 5 8 (lit "2024-01-02") (lit "Second")
      None None (Some (lit "rejected")) None None ].
Proof. vm_compute. reflexivity. Qed.

Example slug_my_pattern : safe_slug (lit "My Pattern") = Ok (lit "my-pattern").
Proof. vm_compute. reflexivity. Qed.

Example slug_edges :
  safe_slug (lit "  --Hello,   World!!--  ") = Ok (lit "hello-world")
  /\ safe_slug (lit " ?! ") = Err InvalidSlug
  /\ safe_slug (lit "a--b") = Ok (lit "a--b").
Proof. vm_compute. auto. Qed.

Example splitlines_cases :
  splitlines (lit "") = []
  /\ splitlines [97; 10]%N = [lit "a"]
  /\ splitlines [97; 10; 10]%N = [lit "a"; lit ""]
  /\ splitlines [97; 13; 10; 98]%N = [lit "a"; lit "b"]
  /\ splitlines [97; 12; 98]%N = [lit "a"; lit "b"].
Proof. vm_compute. repeat split. Qed.

Example update_doc_replace :
  update_or_insert_kv sample_doc (mkEntry 1 5 [] [] None None None None None)
    (lit "status") (lit "approved")
  = Ok (<[3 := lit "  - status: approved"]> sample_doc).
Proof. vm_compute. reflexivity. Qed.

Example update_doc_insert :
  update_or_insert_kv sample_doc (mkEntry 1 5 [] [] None None None None None)
    (lit "reviewNote") (lit "ok")
  = Ok (take 5 sample_doc ++ lit "  - reviewNote: ok" :: drop 5 sample_doc).
Proof. vm_compute. reflexivity. Qed.

Example header_cases :
  ENTRY_HEADER_RE (lit "- [a] b") = Some (lit "a", lit "b")
  /\ ENTRY_HEADER_RE (lit "- [a] b" ++ [LF]) = Some (lit "a", lit "b")
  /\ ENTRY_HEADER_RE (lit "- [a" ++ [LF] ++ lit "b] c") = Some (lit "a" ++ [LF] ++ lit "b", lit "c")
  /\ ENTRY_HEADER_RE (lit "- [a] b" ++ [LF] ++ lit "c") = None
  /\ ENTRY_HEADER_RE (lit "- [] b") = None
  /\ ENTRY_HEADER_RE (lit "- [a] ") = None
  /\ ENTRY_HEADER_RE (lit "- [a]] b") = None.
Proof. vm_compute. repeat split. Qed.

Example field_cases :
  KV_RE (lit "  - k: v") = Some (lit "k", lit "v")
  /\ KV_RE (lit "  - k: ") = Some (lit "k", lit "")
  /\ KV_RE (lit "  - k: v" ++ [LF]) = Some (lit "k", lit "v")
  /\ KV_RE (lit "  - k: v" ++ [LF] ++ lit "w") = None
  /\ KV_RE (lit "  - k:v") = None
  /\ KV_RE (lit "  - : v") = None
  /\ KV_RE (lit "  - k-x: v") = None
  /\ KV_RE (lit "  - status: a: b") = Some (lit "status", lit "a: b").
Proof. vm_compute. repeat split. Qed.

Example strip_cases :
  strip ([32; 31; 32]%N ++ lit "a" ++ [32; 160]%N) = lit "a"
  /\ rstrip (lit "a" ++ [28]%N) = lit "a"
  /\ strip_hyphens (lit "--a-b--") = lit "a-b".
Proof. vm_compute. repeat split. Qed.

Example slice_to_cases :
  slice_to [1; 2; 3] (-1) = [1; 2] /\ slice_to [1; 2; 3] (-5) = []
  /\ slice_to [1; 2; 3] 0 = [] /\ slice_to [1; 2; 3] 7 = [1; 2; 3].
Proof. vm_compute. repeat split. Qed.

Example scenario_review :
  parsed_document after_review
  = Ok [ mkEntry 0 4 (lit "t") (lit "Title") (Some (lit "abc123")) None
           (Some (lit "approved")) None (Some (lit "looks solid")) ].
Proof. vm_compute. reflexivity. Qed.

Example scenario_promote :
  fst (cmd_promote (lit "manual") (lit "abc123") (lit "My Pattern") (lit "") (lit "skills")
         after_review) = Ok tt
  /\ parsed_document after_promote
     = Ok [ mkEntry 0 4 (lit "t") (lit "Title") (Some (lit "abc123")) None
              (Some (lit "promoted")) None
              (Some (lit "Promoted to cursor/skills/my-pattern/SKILL.md")) ]
  /\ after_promote !! artifact_path
     = Some (Fs.File (skill_body (lit "my-pattern") (lit "Promoted learning: Title")
                        (lit "Title") (lit "") (lit "abc123")))
  /\ fst (cmd_promote (lit "manual") (lit "abc123") (lit "My Pattern") (lit "") (lit "skills")
            after_promote) = Err SkillExists.
Proof. vm_compute. repeat split. Qed.

(** * Properties *)

(** ** The parser as a recursion on the remaining lines *)

Lemma is_header_false l : is_header l = false <-> ENTRY_HEADER_RE l = None.
Proof. unfold is_header. destruct (ENTRY_HEADER_RE l); split; congruence. Qed.

Lemma is_header_true l : is_header l = true <-> exists m, ENTRY_HEADER_RE l = Some m.
Proof.
  unfold is_header. destruct (ENTRY_HEADER_RE l) as [m|]; split; try congruence.
  - eauto.
  - intros [m' ?]. congruence.
Qed.

Lemma next_header_bounds rest j :
  j <= next_header rest j <= j + length rest.
Proof.
  revert j. induction rest as [|l rest IH]; intros j; simpl; [lia|].
  destruct (is_header l); [lia|]. specialize (IH (j + 1)). lia.
Qed.

Lemma next_header_before rest j k l :
  j + k < next_header rest j -> rest !! k = Some l -> is_header l = false.
Proof.
  revert j k. induction rest as [|x rest IH]; intros j k; simpl; [done|].
  destruct (is_header x) eqn:Hx; [lia|].
  destruct k as [|k]; simpl.
  - intros _ [= <-]. exact Hx.
  - intros Hlt Hk. apply (IH (j + 1) k); [lia | done].
Qed.

Lemma next_header_at rest j :
  next_header rest j < j + length rest ->
  exists l, rest !! (next_header rest j - j) = Some l /\ is_header l = true.
Proof.
  revert j. induction rest as [|x rest IH]; intros j; simpl; [lia|].
  destruct (is_header x) eqn:Hx.
  - intros _. exists x. rewrite Nat.sub_diag. done.
  - intros Hlt. destruct (IH (j + 1)) as (l & Hl & Hh); [lia|].
    exists l. split; [|done].
    pose proof (next_header_bounds rest (j + 1)).
    replace (next_header rest (j + 1) - j) with (S (next_header rest (j + 1) - (j + 1))) by lia.
    done.
Qed.

(** Lines up to the next header contribute no entry. *)
Lemma parse_from_skip lines rest k :
  parse_from lines rest k
  = parse_from lines (drop (next_header rest k - k) rest) (next_header rest k).
Proof.
  revert k. induction rest as [|l rest IH]; intros k; simpl.
  - by rewrite drop_nil.
  - unfold is_header. destruct (ENTRY_HEADER_RE l) as [m|] eqn:Hm.
    + rewrite Nat.sub_diag. simpl. by rewrite Hm.
    + rewrite (IH (k + 1)).
      pose proof (next_header_bounds rest (k + 1)).
      replace (next_header rest (k + 1) - k) with (S (next_header rest (k + 1) - (k + 1))) by lia.
      done.
Qed.

(** The loop of the source and the recursion agree once the fuel covers
    the lines left. *)
Lemma parse_loop_from fuel lines i entries :
  length lines - i <= fuel ->
  parse_loop fuel lines i entries = entries ++ parse_from lines (drop i lines) i.
Proof.
  revert i entries. induction fuel as [|fuel IH]; intros i entries Hfuel; simpl.
  - rewrite drop_ge by lia. by rewrite app_nil_r.
  - destruct (lines !! i) as [line|] eqn:Hi.
    + rewrite (drop_S _ _ _ Hi). simpl.
      apply lookup_lt_Some in Hi.
      replace (S i) with (i + 1) by lia.
      destruct (ENTRY_HEADER_RE line) as [m|] eqn:Hm.
      * pose proof (next_header_bounds (drop (i + 1) lines) (i + 1)) as Hb.
        rewrite length_drop in Hb.
        rewrite IH by lia.
        rewrite <- app_assoc. simpl. do 2 f_equal.
        rewrite (parse_from_skip lines (drop (i + 1) lines) (i + 1)).
        rewrite drop_drop. do 2 f_equal. lia.
      * apply IH. lia.
    + apply lookup_ge_None in Hi. rewrite drop_ge by lia. by rewrite app_nil_r.
Qed.

(** More fuel than [len(lines)] changes nothing: the loop has ended. *)
Lemma parse_loop_fuel fuel lines :
  length lines <= fuel -> parse_loop fuel lines 0 [] = parse_entries lines.
Proof.
  intros H. unfold parse_entries. rewrite !parse_loop_from by lia. done.
Qed.

Lemma parse_entries_from lines : parse_entries lines = parse_from lines lines 0.
Proof. unfold parse_entries. rewrite parse_loop_from by lia. done. Qed.

Lemma parse_from_elem lines rest i e :
  e ∈ parse_from lines rest i <->
  exists k l m,
    rest !! k = Some l /\ ENTRY_HEADER_RE l = Some m
    /\ e = entry_at lines (i + k) (next_header (drop (k + 1) rest) (i + k + 1)) m.
Proof.
  revert i. induction rest as [|x rest IH]; intros i; simpl.
  - split; [by intros ?%elem_of_nil | by intros (k & l & m & ? & _)].
  - assert (Hup : forall k l m,
               rest !! k = Some l -> ENTRY_HEADER_RE l = Some m ->
               exists k' l' m',
                 (x :: rest) !! k' = Some l' /\ ENTRY_HEADER_RE l' = Some m'
                 /\ entry_at lines (i + 1 + k) (next_header (drop (k + 1) rest) (i + 1 + k + 1)) m
                    = entry_at lines (i + k') (next_header (drop (k' + 1) (x :: rest)) (i + k' + 1)) m').
    { intros k l m Hk Hm. exists (S k), l, m. simpl.
      replace (i + S k) with (i + 1 + k) by lia. done. }
    assert (Hdown : forall k l m,
               rest !! k = Some l -> ENTRY_HEADER_RE l = Some m ->
               exists k' l' m',
                 rest !! k' = Some l' /\ ENTRY_HEADER_RE l' = Some m'
                 /\ entry_at lines (i + S k) (next_header (drop (S k + 1) (x :: rest)) (i + S k + 1)) m
                    = entry_at lines (i + 1 + k') (next_header (drop (k' + 1) rest) (i + 1 + k' + 1)) m').
    { intros k l m Hk Hm. exists k, l, m. simpl.
      replace (i + S k) with (i + 1 + k) by lia. done. }
    destruct (ENTRY_HEADER_RE x) as [mx|] eqn:Hx.
    + rewrite elem_of_cons, IH. split.
      * intros [-> | (k & l & m & Hk & Hm & ->)].
        -- exists 0, x, mx. rewrite Nat.add_0_r. simpl. rewrite drop_0. done.
        -- exact (Hup k l m Hk Hm).
      * intros ([|k] & l & m & Hk & Hm & ->); simpl in Hk.
        -- left. injection Hk as <-. rewrite Hx in Hm. injection Hm as <-.
           rewrite Nat.add_0_r. simpl. by rewrite drop_0.
        -- right. exact (Hdown k l m Hk Hm).
    + rewrite IH. split.
      * intros (k & l & m & Hk & Hm & ->). exact (Hup k l m Hk Hm).
      * intros ([|k] & l & m & Hk & Hm & ->); simpl in Hk.
        -- injection Hk as <-. congruence.
        -- exact (Hdown k l m Hk Hm).
Qed.

Lemma parse_entries_elem lines e :
  e ∈ parse_entries lines <-> exists h, entry_of lines h e.
Proof.
  rewrite parse_entries_from, parse_from_elem. unfold entry_of. simpl.
  split; intros (h & l & m & ?); exists h, l, m; done.
Qed.

Lemma entry_of_header_index lines h e : entry_of lines h e -> header_index e = h.
Proof. by intros (l & m & _ & _ & ->). Qed.

Lemma entry_of_end lines h e :
  entry_of lines h e -> end_index e = next_header (drop (h + 1) lines) (h + 1).
Proof. by intros (l & m & _ & _ & ->). Qed.

Lemma parse_entries_entry_of lines e :
  e ∈ parse_entries lines -> entry_of lines (header_index e) e.
Proof.
  intros (h & Hh)%parse_entries_elem.
  by rewrite (entry_of_header_index _ _ _ Hh).
Qed.

(** The span of a parsed entry: its header line, then lines that are not
    headers, up to a header or the end. *)
Lemma entry_of_span lines h e :
  entry_of lines h e ->
  header_index e = h
  /\ (exists l, lines !! h = Some l /\ ENTRY_HEADER_RE l = Some (timestamp e, title e))
  /\ h < end_index e <= length lines
  /\ (forall i l, h < i < end_index e -> lines !! i = Some l -> is_header l = false)
  /\ (end_index e < length lines ->
      exists l, lines !! end_index e = Some l /\ is_header l = true).
Proof.
  intros (l & m & Hl & Hm & ->). simpl.
  pose proof (next_header_bounds (drop (h + 1) lines) (h + 1)) as Hb.
  rewrite length_drop in Hb. apply lookup_lt_Some in Hl as Hlt.
  repeat split; try lia.
  - exists l. by destruct m.
  - intros i l' Hi Hl'.
    apply (next_header_before (drop (h + 1) lines) (h + 1) (i - (h + 1)) l').
    + lia.
    + rewrite lookup_drop. rewrite <- Hl'. f_equal. lia.
  - intros Hend.
    destruct (next_header_at (drop (h + 1) lines) (h + 1)) as (l' & Hl' & Hh).
    + rewrite length_drop. lia.
    + exists l'. split; [|done]. rewrite lookup_drop in Hl'.
      rewrite <- Hl'. f_equal. lia.
Qed.

Lemma parse_from_head lines rest i :
  match parse_from lines rest i with
  | [] => next_header rest i = i + length rest
  | e :: _ => header_index e = next_header rest i
  end.
Proof.
  revert i. induction rest as [|x rest IH]; intros i; simpl; [lia|].
  unfold is_header. destruct (ENTRY_HEADER_RE x) as [m|]; [done|].
  specialize (IH (i + 1)).
  destruct (parse_from lines rest (i + 1)); lia.
Qed.

(** Each entry ends where the next one starts, the last one at the end. *)
Lemma parse_from_linked lines rest i k e :
  parse_from lines rest i !! k = Some e ->
  end_index e =
  match parse_from lines rest i !! (k + 1) with
  | Some e' => header_index e'
  | None => i + length rest
  end.
Proof.
  revert i k. induction rest as [|x rest IH]; intros i k; simpl; [done|].
  destruct (ENTRY_HEADER_RE x) as [m|].
  - destruct k as [|k]; simpl.
    + intros [= <-]. simpl.
      pose proof (parse_from_head lines rest (i + 1)) as Hh.
      destruct (parse_from lines rest (i + 1)); simpl; lia.
    + intros Hk. rewrite (IH _ _ Hk).
      destruct (parse_from lines rest (i + 1) !! (k + 1)); lia.
  - intros Hk. rewrite (IH _ _ Hk).
    destruct (parse_from lines rest (i + 1) !! (k + 1)); lia.
Qed.

Lemma parse_entries_order lines a b ea eb :
  a < b ->
  parse_entries lines !! a = Some ea ->
  parse_entries lines !! b = Some eb ->
  end_index ea <= header_index eb.
Proof.
  intros Hab Ha Hb. remember (b - a) as d eqn:Hd.
  revert a ea Hab Ha Hd. induction d as [|d IH]; intros a ea Hab Ha Hd; [lia|].
  rewrite parse_entries_from in Ha, Hb.
  pose proof (parse_from_linked _ _ _ _ _ Ha) as Hlink.
  destruct (decide (a + 1 = b)) as [<-|Hne].
  - rewrite Hb in Hlink. lia.
  - destruct (parse_from lines lines 0 !! (a + 1)) as [e1|] eqn:H1.
    + assert (He1 : e1 ∈ parse_entries lines).
      { rewrite parse_entries_from. by eapply list_elem_of_lookup_2. }
      apply parse_entries_entry_of, entry_of_span in He1 as (_ & _ & Hspan & _).
      rewrite <- parse_entries_from in H1.
      specialize (IH (a + 1) e1 ltac:(lia) H1 ltac:(lia)). lia.
    + apply lookup_ge_None in H1. apply lookup_lt_Some in Hb. lia.
Qed.

(** C5.  The parser returns the records in document order with pairwise
    disjoint spans: each span starts at the record's header line, holds
    no other header, and ends exactly where the next record's header is,
    or at the end of the document for the last record; every header line
    opens a record. *)
Theorem parse_entries_spans (lines : list str) :
  (forall k e, parse_entries lines !! k = Some e ->
     (exists l, lines !! header_index e = Some l
                /\ ENTRY_HEADER_RE l = Some (timestamp e, title e))
     /\ header_index e < end_index e <= length lines
     /\ (forall i l, header_index e < i < end_index e ->
           lines !! i = Some l -> is_header l = false)
     /\ end_index e =
        match parse_entries lines !! (k + 1) with
        | Some e' => header_index e'
        | None => length lines
        end)
  /\ (forall a b ea eb, a < b ->
        parse_entries lines !! a = Some ea ->
        parse_entries lines !! b = Some eb ->
        header_index ea < header_index eb /\ end_index ea <= header_index eb)
  /\ (forall h l, lines !! h = Some l -> is_header l = true ->
        exists e, e ∈ parse_entries lines /\ header_index e = h).
Proof.
  split; [|split].
  - intros k e Hk.
    assert (He : e ∈ parse_entries lines) by (by eapply list_elem_of_lookup_2).
    apply parse_entries_entry_of in He.
    destruct (entry_of_span _ _ _ He) as (_ & Hl & Hspan & Hin & _).
    repeat split; try done; try lia.
    rewrite parse_entries_from in *.
    by rewrite (parse_from_linked _ _ _ _ _ Hk).
  - intros a b ea eb Hab Ha Hb.
    pose proof (parse_entries_order _ _ _ _ _ Hab Ha Hb).
    assert (He : ea ∈ parse_entries lines) by (by eapply list_elem_of_lookup_2).
    apply parse_entries_entry_of, entry_of_span in He as (_ & _ & Hspan & _).
    lia.
  - intros h l Hl [m Hm]%is_header_true.
    exists (entry_at lines h (next_header (drop (h + 1) lines) (h + 1)) m).
    split; [|done]. apply parse_entries_elem. exists h, l, m. done.
Qed.

(** ** Lookup by fingerprint *)

Lemma str_eqb_eq a b : str_eqb a b = true <-> a = b.
Proof. unfold str_eqb. apply bool_decide_eq_true. Qed.

Lemma str_eqb_neq a b : str_eqb a b = false <-> a <> b.
Proof. unfold str_eqb. apply bool_decide_eq_false. Qed.

Lemma fingerprint_is_true fp e : fingerprint_is fp e = true <-> fingerprint e = Some fp.
Proof.
  unfold fingerprint_is. destruct (fingerprint e) as [f|]; [|split; congruence].
  rewrite str_eqb_eq. split; congruence.
Qed.

Lemma fingerprint_is_false fp e : fingerprint_is fp e = false <-> fingerprint e <> Some fp.
Proof.
  rewrite <- fingerprint_is_true. destruct (fingerprint_is fp e); split; congruence.
Qed.

Lemma find_entry_ok entries fp e :
  find_entry_by_fingerprint entries fp = Ok e <-> exists k, first_match entries fp k e.
Proof.
  unfold first_match. induction entries as [|x entries IH]; simpl.
  - split; [done | by intros (k & ? & _)].
  - destruct (fingerprint_is fp x) eqn:Hx.
    + apply fingerprint_is_true in Hx. split.
      * intros [= <-]. exists 0. repeat split; [done|]. intros; lia.
      * intros ([|k] & Hk & Hfp & Hbefore); simpl in Hk; [congruence|].
        exfalso. apply (Hbefore 0 x); [lia | done | done].
    + apply fingerprint_is_false in Hx. rewrite IH. split.
      * intros (k & Hk & Hfp & Hbefore). exists (S k). repeat split; [done..|].
        intros [|k'] e' Hlt; simpl; [congruence|]. apply Hbefore. lia.
      * intros ([|k] & Hk & Hfp & Hbefore); simpl in Hk; [congruence|].
        exists k. repeat split; [done..|].
        intros k' e' Hlt Hk'. apply (Hbefore (S k') e'); [lia | done].
Qed.

Lemma find_entry_err entries fp err :
  find_entry_by_fingerprint entries fp = Err err ->
  err = FingerprintNotFound /\ forall e, e ∈ entries -> fingerprint e <> Some fp.
Proof.
  induction entries as [|x entries IH]; simpl.
  - intros [= <-]. split; [done|]. by intros e ?%elem_of_nil.
  - destruct (fingerprint_is fp x) eqn:Hx; [done|].
    apply fingerprint_is_false in Hx.
    intros [-> Hall]%IH. split; [done|].
    intros e [->|?]%elem_of_cons; auto.
Qed.

(** C6.  Lookup by fingerprint returns the first record, in document order,
    whose fingerprint equals the argument, and fails with NotFound when
    no record matches; of two records sharing the fingerprint the earlier
    one is returned. *)
Theorem find_entry_by_fingerprint_first_match (entries : list Entry) (fp : str) :
  (forall e, find_entry_by_fingerprint entries fp = Ok e <->
             exists k, first_match entries fp k e)
  /\ (fails_with (find_entry_by_fingerprint entries fp) NotFound <->
      forall e, e ∈ entries -> fingerprint e <> Some fp)
  /\ (forall i j ei ej,
        i < j -> entries !! i = Some ei -> entries !! j = Some ej ->
        fingerprint ei = Some fp -> fingerprint ej = Some fp ->
        exists k e, k <= i /\ entries !! k = Some e
                    /\ find_entry_by_fingerprint entries fp = Ok e).
Proof.
  split; [|split].
  - intros e. apply find_entry_ok.
  - split.
    + intros (err & Herr & _). by apply find_entry_err in Herr as [_ ?].
    + intros Hall.
      destruct (find_entry_by_fingerprint entries fp) as [e|err] eqn:Hfind.
      * apply find_entry_ok in Hfind as (k & Hk & Hfp & _).
        exfalso. apply (Hall e); [by eapply list_elem_of_lookup_2 | done].
      * apply find_entry_err in Hfind as [-> _]. by exists FingerprintNotFound.
  - intros i j ei ej Hij Hi Hj Hfi Hfj.
    destruct (find_entry_by_fingerprint entries fp) as [e|err] eqn:Hfind.
    + apply find_entry_ok in Hfind as (k & Hk & Hfp & Hbefore).
      exists k, e. repeat split; [|done].
      destruct (decide (k <= i)) as [|Hgt]; [done|].
      exfalso. apply (Hbefore i ei); [lia | done | done].
    + apply find_entry_err in Hfind as [_ Hall].
      exfalso. apply (Hall ei); [by eapply list_elem_of_lookup_2 | done].
Qed.

(** ** Field update *)

Lemma lit_header_open : lit "- [" = [45; 32; 91]%N.
Proof. reflexivity. Qed.

Lemma lit_field_open : lit "  - " = [32; 32; 45; 32]%N.
Proof. reflexivity. Qed.

Lemma kv_target_cons key : exists t, kv_target key = 32%N :: t.
Proof. unfold kv_target. rewrite lit_field_open. cbn [app]. eauto. Qed.

Lemma after_literal_Some p s r : after_literal p s = Some r <-> s = p ++ r.
Proof.
  revert s. induction p as [|a p IH]; intros s.
  - cbn [after_literal app]. split; congruence.
  - destruct s as [|b s]; cbn [after_literal app]; [done|].
    destruct (N.eqb_spec a b) as [<-|Hne].
    + rewrite IH. split; congruence.
    + split; congruence.
Qed.

(** A header line starts with a hyphen, a field line with a space. *)
Lemma header_first_char l m : ENTRY_HEADER_RE l = Some m -> exists l', l = 45%N :: l'.
Proof.
  unfold ENTRY_HEADER_RE.
  destruct (after_literal (lit "- [") l) as [r|] eqn:Hr; [|done].
  apply after_literal_Some in Hr as ->. rewrite lit_header_open. intros _.
  cbn [app]. eauto.
Qed.

Lemma header_not_target key l m :
  ENTRY_HEADER_RE l = Some m -> startswith (kv_target key) l = false.
Proof.
  intros [l' ->]%header_first_char. destruct (kv_target_cons key) as [t ->].
  reflexivity.
Qed.

Lemma target_not_header key l : startswith (kv_target key) l = true -> is_header l = false.
Proof.
  intros Hs. apply is_header_false.
  destruct (ENTRY_HEADER_RE l) as [m|] eqn:Hm; [|done].
  rewrite (header_not_target key l m Hm) in Hs. done.
Qed.

Lemma startswith_app p s : startswith p (p ++ s) = true.
Proof. induction p as [|a p IH]; simpl; [done|]. by rewrite N.eqb_refl. Qed.

Lemma startswith_prefix p s : startswith p s = true <-> exists r, s = p ++ r.
Proof.
  split.
  - revert s. induction p as [|a p IH]; intros s; simpl; [eauto|].
    destruct s as [|b s]; [done|].
    intros [->%N.eqb_eq [r ->]%IH]%andb_true_iff. eauto.
  - intros [r ->]. apply startswith_app.
Qed.

(** What the scanning loop of [update_or_insert_kv] returns on a range
    that lies within the list. *)
Lemma update_scan_spec lines target newline i n :
  i + n <= length lines ->
  match update_scan lines target newline i n with
  | Ok (Some lines') =>
      exists k l,
        i <= k < i + n /\ lines !! k = Some l /\ startswith target l = true
        /\ (forall k' l', i <= k' < k -> lines !! k' = Some l' -> startswith target l' = false)
        /\ lines' = <[k := newline]> lines
  | Ok None =>
      forall k l, i <= k < i + n -> lines !! k = Some l -> startswith target l = false
  | Err _ => False
  end.
Proof.
  revert i. induction n as [|n IH]; intros i Hlen; simpl.
  - intros; lia.
  - destruct (lines !! i) as [l|] eqn:Hi.
    + destruct (startswith target l) eqn:Hs.
      * exists i, l. split_and!; try done; lia.
      * specialize (IH (i + 1) ltac:(lia)).
        destruct (update_scan lines target newline (i + 1) n) as [[lines'|]|]; [| |done].
        -- destruct IH as (k & l' & Hk & Hl' & Hs' & Hfirst & ->).
           exists k, l'. split_and!; try done; try lia.
           intros k' l'' Hk' Hl''.
           destruct (decide (k' = i)) as [->|]; [congruence|].
           apply (Hfirst k'); [lia | done].
        -- intros k l' Hk Hl'.
           destruct (decide (k = i)) as [->|]; [congruence|].
           apply (IH k); [lia | done].
    + apply lookup_ge_None in Hi. lia.
Qed.

Lemma next_header_ext rest1 rest2 j :
  Forall2 (fun a b => is_header a = is_header b) rest1 rest2 ->
  next_header rest1 j = next_header rest2 j.
Proof.
  intros H. revert j. induction H as [|a b r1 r2 Hab _ IH]; intros j; simpl; [done|].
  rewrite Hab. destruct (is_header b); [done | apply IH].
Qed.

(** The spans found by the parser depend only on which lines are headers. *)
Lemma parse_from_spans_ext lines1 lines2 rest1 rest2 i :
  Forall2 (fun a b => is_header a = is_header b) rest1 rest2 ->
  List.map span (parse_from lines1 rest1 i) = List.map span (parse_from lines2 rest2 i).
Proof.
  intros H. revert i. induction H as [|a b r1 r2 Hab Hr IH]; intros i; simpl; [done|].
  unfold is_header in Hab.
  destruct (ENTRY_HEADER_RE a), (ENTRY_HEADER_RE b); try discriminate; simpl.
  - rewrite IH. unfold span at 1 3. simpl. by rewrite (next_header_ext _ _ _ Hr).
  - apply IH.
Qed.

Lemma Forall2_insert_header lines k l newline :
  lines !! k = Some l -> is_header l = is_header newline ->
  Forall2 (fun a b => is_header a = is_header b) lines (<[k := newline]> lines).
Proof.
  intros Hk Hh. apply Forall2_same_length_lookup_2.
  - by rewrite length_insert.
  - intros i a b Ha Hb. destruct (decide (i = k)) as [->|Hne].
    + rewrite list_lookup_insert_eq in Hb by (by eapply lookup_lt_Some). congruence.
    + rewrite list_lookup_insert_ne in Hb by done. congruence.
Qed.

(** Replacing a field line by a field line moves no span. *)
Lemma replace_field_spans lines key k l value :
  lines !! k = Some l -> startswith (kv_target key) l = true ->
  List.map span (parse_entries (<[k := kv_target key ++ value]> lines))
  = List.map span (parse_entries lines).
Proof.
  intros Hk Hs. rewrite !parse_entries_from. symmetry.
  apply parse_from_spans_ext, (Forall2_insert_header _ _ l); [done|].
  rewrite (target_not_header key l Hs).
  symmetry. apply (target_not_header key), startswith_app.
Qed.

(** ** Field lines and the fields of a parsed entry *)

Lemma span_class_app f s a b : span_class f s = (a, b) -> s = a ++ b.
Proof.
  revert a b. induction s as [|c s IH]; intros a b; cbn [span_class].
  - by intros [= <- <-].
  - destruct (f c).
    + destruct (span_class f s) as [a' b']. intros [= <- <-].
      cbn [app]. f_equal. by apply IH.
    + by intros [= <- <-].
Qed.

Lemma span_class_all f a b :
  Forall (fun c => f c = true) a ->
  match b with [] => True | c :: _ => f c = false end ->
  span_class f (a ++ b) = (a, b).
Proof.
  intros Ha Hb. induction Ha as [|c a Hc _ IH]; cbn [app].
  - destruct b as [|c b]; cbn [span_class]; [done|]. by rewrite Hb.
  - cbn [span_class]. by rewrite Hc, IH.
Qed.

Lemma span_class_Forall f s a b :
  span_class f s = (a, b) -> Forall (fun c => f c = true) a.
Proof.
  revert a b. induction s as [|c s IH]; intros a b; cbn [span_class].
  - intros [= <- <-]. constructor.
  - destruct (f c) eqn:Hc.
    + destruct (span_class f s) as [a' b']. intros [= <- <-].
      constructor; [done|]. by eapply IH.
    + intros [= <- <-]. constructor.
Qed.

Lemma at_dollar_cases r : at_dollar r = true -> r = [] \/ r = [LF].
Proof.
  destruct r as [|c [|d r]]; cbn [at_dollar]; [auto| |done].
  intros ->%N.eqb_eq. auto.
Qed.

(** A line matched by [KV_RE] reads [  - key: value], possibly with one
    final newline. *)
Lemma KV_RE_Some l key value :
  KV_RE l = Some (key, value) ->
  exists r, l = kv_target key ++ value ++ r /\ (r = [] \/ r = [LF])
            /\ key <> [] /\ Forall (fun c => key_class c = true) key.
Proof.
  unfold KV_RE.
  destruct (after_literal (lit "  - ") l) as [r1|] eqn:H1; [|done].
  apply after_literal_Some in H1 as ->.
  destruct (span_class key_class r1) as [k r2] eqn:H2.
  pose proof (span_class_Forall _ _ _ _ H2) as Hk.
  apply span_class_app in H2 as ->.
  destruct k as [|c k]; [done|].
  destruct (after_literal (lit ": ") r2) as [r3|] eqn:H3; [|done].
  apply after_literal_Some in H3 as ->.
  destruct (span_class dot r3) as [v r4] eqn:H4.
  apply span_class_app in H4 as ->.
  destruct (at_dollar r4) eqn:H5; [|done].
  intros [= <- <-]. exists r4. split_and!; [|by apply at_dollar_cases|done|done].
  unfold kv_target. by rewrite <- !app_assoc.
Qed.

Lemma KV_RE_startswith l key value :
  KV_RE l = Some (key, value) -> startswith (kv_target key) l = true.
Proof.
  intros (r & -> & _)%KV_RE_Some. apply startswith_app.
Qed.

(** A line without newline that starts with [  - key: ] is matched by
    [KV_RE] with this key. *)
Lemma KV_RE_of_target key value :
  key <> [] -> Forall (fun c => key_class c = true) key -> LF ∉ value ->
  KV_RE (kv_target key ++ value) = Some (key, value).
Proof.
  intros Hne Hkey Hnl. unfold KV_RE, kv_target.
  rewrite <- !app_assoc.
  destruct (after_literal (lit "  - ") (lit "  - " ++ key ++ lit ": " ++ value)) as [r1|] eqn:H1.
  2:{ assert (H : after_literal (lit "  - ") (lit "  - " ++ key ++ lit ": " ++ value)
                  = Some (key ++ lit ": " ++ value)) by (by apply after_literal_Some).
      congruence. }
  apply after_literal_Some, app_inv_head in H1 as <-.
  rewrite (span_class_all key_class key (lit ": " ++ value)) by done.
  destruct key as [|c key]; [done|].
  destruct (after_literal (lit ": ") (lit ": " ++ value)) as [r3|] eqn:H3.
  2:{ assert (H : after_literal (lit ": ") (lit ": " ++ value) = Some value)
        by (by apply after_literal_Some).
      congruence. }
  apply after_literal_Some, app_inv_head in H3 as <-.
  assert (Hv : span_class dot (value ++ []) = (value, [])).
  { apply span_class_all; [|done]. apply Forall_forall. intros d Hd.
    unfold dot. apply negb_true_iff, N.eqb_neq. intros ->. by apply Hnl. }
  rewrite app_nil_r in Hv. rewrite Hv. done.
Qed.

(** The two matchers against the meaning of their patterns: a line
    matches, with these groups, exactly when it is the literal text
    around groups drawn from the classes, up to [$]. *)
Lemma ENTRY_HEADER_RE_spec line ts ttl :
  ENTRY_HEADER_RE line = Some (ts, ttl) <->
  exists tail,
    line = lit "- [" ++ ts ++ lit "] " ++ ttl ++ tail
    /\ ts <> [] /\ (93%N ∉ ts) /\ ttl <> [] /\ (LF ∉ ttl)
    /\ (tail = [] \/ tail = [LF]).
Proof.
  assert (Hcls : forall (x : N) (s : str),
             Forall (fun c => negb (c =? x)%N = true) s <-> x ∉ s).
  { intros x s. rewrite Forall_forall. split.
    - intros H Hin. specialize (H _ Hin). by rewrite N.eqb_refl in H.
    - intros H c Hc. apply negb_true_iff, N.eqb_neq. by intros ->. }
  split.
  - unfold ENTRY_HEADER_RE.
    destruct (after_literal (lit "- [") line) as [r1|] eqn:H1; [|done].
    apply after_literal_Some in H1 as ->.
    destruct (span_class (fun c => negb (c =? 93)%N) r1) as [t r2] eqn:H2.
    pose proof (span_class_Forall _ _ _ _ H2) as Ht.
    apply span_class_app in H2 as ->.
    destruct t as [|c t]; [done|].
    destruct (after_literal (lit "] ") r2) as [r3|] eqn:H3; [|done].
    apply after_literal_Some in H3 as ->.
    destruct (span_class dot r3) as [v r4] eqn:H4.
    pose proof (span_class_Forall _ _ _ _ H4) as Hv.
    apply span_class_app in H4 as ->.
    destruct v as [|d v]; [done|].
    destruct (at_dollar r4) eqn:H5; [|done].
    intros [= <- <-]. exists r4.
    split_and!; try done; try (by apply at_dollar_cases).
    + by apply Hcls.
    + by apply (Hcls LF).
  - intros (tail & -> & Hts & Hbr & Httl & Hnl & Htail).
    unfold ENTRY_HEADER_RE.
    rewrite (proj2 (after_literal_Some (lit "- [") _ (ts ++ lit "] " ++ ttl ++ tail)) eq_refl).
    rewrite (span_class_all (fun c => negb (c =? 93)%N) ts (lit "] " ++ ttl ++ tail));
      [|by apply Hcls|done].
    destruct ts as [|c ts]; [done|].
    rewrite (proj2 (after_literal_Some (lit "] ") _ (ttl ++ tail)) eq_refl).
    rewrite (span_class_all dot ttl tail); [|by apply (Hcls LF)|by destruct Htail as [->| ->]].
    destruct ttl as [|d ttl]; [done|].
    by destruct Htail as [->| ->].
Qed.

Lemma KV_RE_spec line key value :
  KV_RE line = Some (key, value) <->
  exists tail,
    line = lit "  - " ++ key ++ lit ": " ++ value ++ tail
    /\ key <> [] /\ Forall (fun c => key_class c = true) key /\ (LF ∉ value)
    /\ (tail = [] \/ tail = [LF]).
Proof.
  split.
  - unfold KV_RE.
    destruct (after_literal (lit "  - ") line) as [r1|] eqn:H1; [|done].
    apply after_literal_Some in H1 as ->.
    destruct (span_class key_class r1) as [k r2] eqn:H2.
    pose proof (span_class_Forall _ _ _ _ H2) as Hk.
    apply span_class_app in H2 as ->.
    destruct k as [|c k]; [done|].
    destruct (after_literal (lit ": ") r2) as [r3|] eqn:H3; [|done].
    apply after_literal_Some in H3 as ->.
    destruct (span_class dot r3) as [v r4] eqn:H4.
    pose proof (span_class_Forall _ _ _ _ H4) as Hv.
    apply span_class_app in H4 as ->.
    destruct (at_dollar r4) eqn:H5; [|done].
    intros [= <- <-]. exists r4.
    split_and!; try done; try (by apply at_dollar_cases).
    rewrite Forall_forall in Hv. intros Hin. specialize (Hv _ Hin). done.
  - intros (tail & -> & Hkey & Hcls & Hnl & Htail).
    unfold KV_RE.
    rewrite (proj2 (after_literal_Some (lit "  - ") _ (key ++ lit ": " ++ value ++ tail)) eq_refl).
    rewrite (span_class_all key_class key (lit ": " ++ value ++ tail)); [|done|done].
    destruct key as [|c key]; [done|].
    rewrite (proj2 (after_literal_Some (lit ": ") _ (value ++ tail)) eq_refl).
    rewrite (span_class_all dot value tail).
    + by destruct Htail as [->| ->].
    + apply Forall_forall. intros d Hd. apply negb_true_iff, N.eqb_neq. by intros ->.
    + by destruct Htail as [->| ->].
Qed.

Lemma recognized_key_class key :
  recognized key -> key <> [] /\ Forall (fun c => key_class c = true) key.
Proof.
  unfold recognized, recognized_keys. rewrite !elem_of_cons, elem_of_nil.
  intros [->|[->|[->|[->|[->|[]]]]]]; (split; [done|]);
    apply Forall_forall; intros c Hc; apply list_elem_of_In in Hc;
    vm_compute in Hc; intuition (subst; reflexivity).
Qed.

Lemma assign_kv_field key v line :
  recognized key ->
  vars_field key (assign_kv v line)
  = match field_of_line key line with
    | Some value => Some value
    | None => vars_field key v
    end.
Proof.
  unfold recognized, recognized_keys. rewrite !elem_of_cons, elem_of_nil.
  unfold assign_kv, field_of_line.
  destruct (KV_RE line) as [[k value]|]; [|done].
  intros Hkey.
  destruct (str_eqb k key) eqn:Hk.
  - apply str_eqb_eq in Hk as ->.
    destruct Hkey as [->|[->|[->|[->|[->|[]]]]]]; reflexivity.
  - apply str_eqb_neq in Hk.
    destruct Hkey as [->|[->|[->|[->|[->|[]]]]]];
      repeat match goal with
        | |- context [str_eqb k ?x] =>
            let H := fresh in destruct (str_eqb k x) eqn:H;
            [apply str_eqb_eq in H; try congruence | clear H]
        end; try reflexivity.
Qed.

Lemma fold_assign_none key ls v :
  recognized key ->
  Forall (fun l => field_of_line key l = None) ls ->
  vars_field key (fold_left assign_kv ls v) = vars_field key v.
Proof.
  intros Hkey Hls. revert v. induction Hls as [|l ls Hl _ IH]; intros v; simpl; [done|].
  rewrite IH, assign_kv_field by done. by rewrite Hl.
Qed.

(** Last write wins: the last field line for [key] gives the attribute. *)
Lemma fold_assign_last key ls1 l ls2 v x :
  recognized key ->
  field_of_line key l = Some x ->
  Forall (fun l' => field_of_line key l' = None) ls2 ->
  vars_field key (fold_left assign_kv (ls1 ++ l :: ls2) v) = Some x.
Proof.
  intros Hkey Hl Hls2. rewrite fold_left_app. simpl.
  rewrite fold_assign_none, assign_kv_field by done. by rewrite Hl.
Qed.

Lemma entry_at_field key lines i j m :
  entry_field key (entry_at lines i j m)
  = vars_field key (fold_left assign_kv (slice lines (i + 1) j) no_vars).
Proof. reflexivity. Qed.

Lemma slice_lookup_Some {A} (lines : list A) a b k x :
  slice lines a b !! k = Some x -> lines !! (a + k) = Some x /\ a + k < b.
Proof.
  unfold slice. intros [Hx Hk]%lookup_take_Some.
  rewrite lookup_drop in Hx. split; [done | lia].
Qed.

Lemma slice_split {A} (lines : list A) a k b :
  a <= k <= b -> slice lines a b = slice lines a k ++ slice lines k b.
Proof.
  intros Hk. unfold slice.
  replace (b - a) with ((k - a) + (b - k)) by lia.
  rewrite <- take_take_drop, drop_drop. do 3 f_equal. lia.
Qed.

Lemma slice_cons {A} (lines : list A) k b x :
  lines !! k = Some x -> k < b -> slice lines k b = x :: slice lines (k + 1) b.
Proof.
  intros Hx Hk. unfold slice. rewrite (drop_S _ _ _ Hx).
  replace (b - k) with (S (b - (k + 1))) by lia.
  replace (k + 1) with (S k) by lia. done.
Qed.

Lemma slice_insert_before {A} (lines : list A) i x a b :
  i < a -> slice (<[i := x]> lines) a b = slice lines a b.
Proof. intros Hi. unfold slice. by rewrite drop_insert_lt. Qed.

(** The attribute of a parsed entry comes from the last field line for
    the key in its span. *)
Lemma entry_field_last key lines h j l x e :
  recognized key ->
  entry_of lines h e ->
  h < j < end_index e ->
  lines !! j = Some l -> field_of_line key l = Some x ->
  (forall k l', j < k < end_index e -> lines !! k = Some l' ->
     field_of_line key l' = None) ->
  entry_field key e = Some x.
Proof.
  intros Hkey (lh & m & Hlh & Hm & ->) Hj Hl Hx Hlast.
  cbn [end_index entry_at] in *.
  set (stop := next_header (drop (h + 1) lines) (h + 1)) in *.
  rewrite entry_at_field.
  rewrite (slice_split lines (h + 1) j stop) by lia.
  rewrite (slice_cons lines j stop l) by (done || lia).
  apply fold_assign_last; [done..|].
  apply Forall_lookup. intros k l' [Hl' Hk]%slice_lookup_Some.
  apply (Hlast (j + 1 + k)); [lia | done].
Qed.

(** What [update_or_insert_kv] does on a span that lies within the list:
    it never raises; it replaces the first line of the span (the header
    line apart) that starts with the target, or inserts at the end of the
    span when there is none. *)
Lemma update_or_insert_kv_cases lines e key value :
  header_index e < end_index e <= length lines ->
  exists lines',
    update_or_insert_kv lines e key value = Ok lines'
    /\ ((exists k l,
           header_index e < k < end_index e /\ lines !! k = Some l
           /\ startswith (kv_target key) l = true
           /\ (forall k' l', header_index e < k' < k -> lines !! k' = Some l' ->
                 startswith (kv_target key) l' = false)
           /\ lines' = <[k := kv_target key ++ value]> lines)
        \/ ((forall k l, header_index e < k < end_index e -> lines !! k = Some l ->
               startswith (kv_target key) l = false)
            /\ lines' = list_insert_at (end_index e) (kv_target key ++ value) lines)).
Proof.
  intros Hspan.
  pose proof (update_scan_spec lines (kv_target key) (kv_target key ++ value)
                (header_index e + 1) (end_index e - (header_index e + 1)) ltac:(lia)) as Hscan.
  unfold update_or_insert_kv.
  destruct (update_scan lines (kv_target key) (kv_target key ++ value)
              (header_index e + 1) (end_index e - (header_index e + 1)))
    as [[lines'|]|err]; [| |done].
  - destruct Hscan as (k & l & Hk & Hl & Hs & Hfirst & ->).
    eexists. split; [done|]. left. exists k, l. split_and!; try done; try lia.
    intros k' l' Hk'. apply Hfirst. lia.
  - eexists. split; [done|]. right. split; [|done].
    intros k l Hk. apply Hscan. lia.
Qed.

(** C10.  In a record whose span holds two field lines for the same
    recognized key, the update replaces one line, at or before the first
    of them (exactly the first one when no line holds a newline) and
    leaves the later one as it is; parsing the updated lines gives the
    record, with the same span, the value of the last such line, as before
    the update, whatever value was written. *)
Theorem update_or_insert_kv_duplicate_key
    (lines : list str) (e : Entry) (key value : str)
    (i j : nat) (li lj vi vj : str) :
  e ∈ parse_entries lines ->
  recognized key ->
  header_index e < i -> i < j -> j < end_index e ->
  lines !! i = Some li -> KV_RE li = Some (key, vi) ->
  lines !! j = Some lj -> KV_RE lj = Some (key, vj) ->
  (forall k l, header_index e < k < i -> lines !! k = Some l ->
     field_of_line key l = None) ->
  (forall k l, j < k < end_index e -> lines !! k = Some l ->
     field_of_line key l = None) ->
  exists i0 lines' e',
    update_or_insert_kv lines e key value = Ok lines'
    /\ lines' = <[i0 := kv_target key ++ value]> lines
    /\ header_index e < i0 <= i
    /\ (Forall (fun l => LF ∉ l) lines -> i0 = i)
    /\ lines' !! j = Some lj
    /\ e' ∈ parse_entries lines'
    /\ span e' = span e
    /\ entry_field key e = Some vj
    /\ entry_field key e' = Some vj
    /\ (value <> vj -> entry_field key e' <> Some value).
Proof.
  intros He Hkey Hhi Hij Hje Hli Hvi Hlj Hvj Hfirst Hlast.
  apply parse_entries_entry_of in He.
  destruct (entry_of_span _ _ _ He) as (_ & (lh & Hlh & Hm) & Hspan & _ & _).
  assert (Hfj : field_of_line key lj = Some vj).
  { unfold field_of_line. rewrite Hvj.
    by replace (str_eqb key key) with true by (symmetry; by apply str_eqb_eq). }
  pose proof (KV_RE_startswith _ _ _ Hvi) as Hsi.
  destruct (update_or_insert_kv_cases lines e key value Hspan)
    as (lines' & Hup & [(k & l & Hk & Hl & Hs & Hbefore & ->) | [Hnone _]]).
  2:{ rewrite (Hnone i li) in Hsi; [done | lia | done]. }
  assert (Hki : k <= i).
  { destruct (decide (k <= i)) as [|Hgt]; [done|].
    rewrite (Hbefore i li) in Hsi; [done | lia | done]. }
  set (lines' := <[k := kv_target key ++ value]> lines) in *.
  assert (Hsame : Forall2 (fun a b => is_header a = is_header b) lines lines').
  { apply (Forall2_insert_header _ _ l); [done|].
    rewrite (target_not_header key l Hs).
    symmetry. apply (target_not_header key), startswith_app. }
  set (e' := entry_at lines' (header_index e)
               (next_header (drop (header_index e + 1) lines') (header_index e + 1))
               (timestamp e, title e)).
  assert (He' : entry_of lines' (header_index e) e').
  { exists lh, (timestamp e, title e). split_and!; [|done|done].
    unfold lines'. rewrite list_lookup_insert_ne by lia. done. }
  assert (Hend : end_index e' = end_index e).
  { rewrite (entry_of_end _ _ _ He). unfold e'. cbn [end_index entry_at].
    symmetry. apply next_header_ext. by apply Forall2_drop. }
  assert (Hj' : lines' !! j = Some lj).
  { unfold lines'. rewrite list_lookup_insert_ne by lia. done. }
  exists k, lines', e'. split_and!; try done; try lia.
  - intros Hnl.
    destruct (decide (k = i)) as [|Hne]; [done|]. exfalso.
    apply startswith_prefix in Hs as [v ->].
    assert (Hv : LF ∉ v).
    { rewrite Forall_lookup in Hnl. specialize (Hnl k _ Hl).
      intros Hin. apply Hnl. apply elem_of_app. by right. }
    destruct (recognized_key_class key Hkey) as [Hne' Hcls].
    pose proof (Hfirst k _ ltac:(lia) Hl) as Hnone.
    unfold field_of_line in Hnone.
    rewrite (KV_RE_of_target key v Hne' Hcls Hv) in Hnone.
    by replace (str_eqb key key) with true in Hnone by (symmetry; by apply str_eqb_eq).
  - apply parse_entries_elem. by exists (header_index e).
  - unfold span. rewrite Hend. done.
  - apply (entry_field_last key lines (header_index e) j lj vj e);
      [done | done | lia | done | done | done].
  - apply (entry_field_last key lines' (header_index e) j lj vj e');
      [done | done | lia | done | done |].
    rewrite Hend. intros k' l' Hk' Hl'. apply (Hlast k'); [done|].
    unfold lines' in Hl'. rewrite list_lookup_insert_ne in Hl' by lia. done.
  - intros Hne Hval.
    assert (entry_field key e' = Some vj).
    { apply (entry_field_last key lines' (header_index e) j lj vj e');
        [done | done | lia | done | done |].
      rewrite Hend. intros k' l' Hk' Hl'. apply (Hlast k'); [done|].
      unfold lines' in Hl'. rewrite list_lookup_insert_ne in Hl' by lia. done. }
    congruence.
Qed.

(** ** Slug normalization *)

Lemma space_not_slug_class c : is_space c = true -> slug_class c = false.
Proof.
  intros Hs. destruct (slug_class c) eqn:Hc; [exfalso|done].
  class_cases. bool_to_prop. lia.
Qed.

Lemma lstrip_by_split f s : exists ws, Forall (fun c => f c = true) ws /\ s = ws ++ lstrip_by f s.
Proof.
  induction s as [|c s (ws & Hws & IH)]; cbn [lstrip_by].
  - by exists [].
  - destruct (f c) eqn:Hc.
    + exists (c :: ws). split; [by constructor|]. cbn [app]. by f_equal.
    + by exists [].
Qed.

Lemma rstrip_by_split f s : exists ws, Forall (fun c => f c = true) ws /\ s = rstrip_by f s ++ ws.
Proof.
  unfold rstrip_by. destruct (lstrip_by_split f (rev s)) as (ws & Hws & Hs).
  exists (rev ws). split.
  - by apply List.Forall_rev.
  - rewrite <- rev_app_distr, <- Hs. by rewrite rev_involutive.
Qed.

Lemma lstrip_by_app_l f ws s :
  Forall (fun c => f c = true) ws -> lstrip_by f (ws ++ s) = lstrip_by f s.
Proof.
  intros Hws. induction Hws as [|c ws Hc _ IH]; cbn [app lstrip_by]; [done|].
  by rewrite Hc.
Qed.

Lemma lstrip_by_all f ws : Forall (fun c => f c = true) ws -> lstrip_by f ws = [].
Proof. intros H. rewrite <- (app_nil_r ws). by rewrite lstrip_by_app_l. Qed.

Lemma lstrip_by_app_r f s ws :
  Forall (fun c => f c = true) ws ->
  lstrip_by f (s ++ ws) = lstrip_by f s ++ ws \/ (lstrip_by f (s ++ ws) = [] /\ lstrip_by f s = []).
Proof.
  intros Hws. induction s as [|c s IH]; cbn [app lstrip_by].
  - right. split; [by apply lstrip_by_all | done].
  - destruct (f c); [done | by left].
Qed.

Lemma rstrip_by_app_r f s ws :
  Forall (fun c => f c = true) ws -> rstrip_by f (s ++ ws) = rstrip_by f s.
Proof.
  intros Hws. unfold rstrip_by. rewrite rev_app_distr, lstrip_by_app_l; [done|].
  by apply List.Forall_rev.
Qed.

Lemma strip_by_app_l f ws s :
  Forall (fun c => f c = true) ws -> strip_by f (ws ++ s) = strip_by f s.
Proof. intros H. unfold strip_by. by rewrite lstrip_by_app_l. Qed.

Lemma strip_by_app_r f s ws :
  Forall (fun c => f c = true) ws -> strip_by f (s ++ ws) = strip_by f s.
Proof.
  intros H. unfold strip_by.
  destruct (lstrip_by_app_r f s ws H) as [-> | [-> ->]]; [|done].
  by apply rstrip_by_app_r.
Qed.

Lemma strip_by_cons f c s : f c = true -> strip_by f (c :: s) = strip_by f s.
Proof. intros Hc. apply (strip_by_app_l f [c]). by constructor. Qed.

(** Whether a run is open does not matter once leading hyphens go. *)
Lemma sub_runs_flag cls b b' s :
  strip_hyphens (sub_runs cls b s) = strip_hyphens (sub_runs cls b' s).
Proof.
  destruct s as [|c s]; cbn [sub_runs]; [done|].
  destruct (cls c); [done|]. unfold strip_hyphens.
  destruct b, b'; rewrite ?strip_by_cons; done.
Qed.

Lemma sub_runs_lead cls b ws s :
  Forall (fun c => cls c = false) ws ->
  strip_hyphens (sub_runs cls b (ws ++ s)) = strip_hyphens (sub_runs cls false s).
Proof.
  intros Hws. revert b. induction Hws as [|c ws Hc _ IH]; intros b; cbn [app].
  - apply sub_runs_flag.
  - cbn [sub_runs]. rewrite Hc. destruct b; [apply IH|].
    unfold strip_hyphens at 1. rewrite strip_by_cons by done. apply IH.
Qed.

Lemma sub_runs_trail cls b s ws :
  Forall (fun c => cls c = false) ws ->
  exists t, Forall (fun c => is_hyphen c = true) t
            /\ sub_runs cls b (s ++ ws) = sub_runs cls b s ++ t.
Proof.
  intros Hws. revert b. induction s as [|c s IH]; intros b; cbn [app].
  - cbn [sub_runs app]. revert b.
    induction Hws as [|c ws Hc _ IH]; intros b; cbn [sub_runs].
    + by exists [].
    + rewrite Hc. destruct b; [apply IH|].
      destruct (IH true) as (t & Ht & ->). exists (HYPHEN :: t).
      split; [by constructor | done].
  - cbn [sub_runs]. destruct (cls c).
    + destruct (IH false) as (t & Ht & ->). by exists t.
    + destruct (IH true) as (t & Ht & ->). destruct b; by exists t.
Qed.

(** The whitespace strip of [safe_slug] changes nothing: whitespace lies
    outside the class and goes with the hyphens. *)
Lemma safe_slug_strip_redundant value :
  strip_hyphens (sub_runs slug_class false (strip value))
  = strip_hyphens (sub_runs slug_class false value).
Proof.
  unfold strip, strip_by.
  destruct (lstrip_by_split is_space value) as (ws1 & Hws1 & Hv).
  destruct (rstrip_by_split is_space (lstrip_by is_space value)) as (ws2 & Hws2 & Hv1).
  assert (Hout : forall ws, Forall (fun c => is_space c = true) ws ->
                            Forall (fun c => slug_class c = false) ws).
  { intros ws H. eapply Forall_impl; [exact H|]. intros c. apply space_not_slug_class. }
  rewrite Hv at 2. rewrite (sub_runs_lead _ _ _ _ (Hout _ Hws1)).
  rewrite Hv1 at 2.
  destruct (sub_runs_trail slug_class false
              (rstrip_by is_space (lstrip_by is_space value)) ws2 (Hout _ Hws2))
    as (t & Ht & ->).
  unfold strip_hyphens. by rewrite strip_by_app_r.
Qed.

Lemma safe_slug_collapsed value :
  safe_slug value =
  match collapsed_slug value with
  | [] => Err InvalidSlug
  | slug => Ok slug
  end.
Proof.
  unfold safe_slug, collapsed_slug. rewrite safe_slug_strip_redundant.
  by destruct (lower _).
Qed.

Lemma lowercase_plain s : Forall plain s -> lowercase s = lower s.
Proof.
  intros H. induction H as [|c s [H1 H2] _ IH]; [done|].
  unfold lowercase, lower in *. cbn [flat_map List.map]. rewrite IH.
  unfold lowercase_code_point, lower_char.
  destruct (is_upper c); [done|].
  apply N.eqb_neq in H1, H2. by rewrite H1, H2.
Qed.

Lemma slug_alphabet_lower c : slug_alphabet (lower_char c) = slug_class c.
Proof.
  destruct (slug_class c) eqn:Hc; destruct (slug_alphabet (lower_char c)) eqn:Ha;
    try done; exfalso; class_cases;
    destruct (65 <=? c)%N eqn:H1, (c <=? 90)%N eqn:H2; cbn [andb] in *;
    bool_to_prop; lia.
Qed.

Lemma is_hyphen_lower c : is_hyphen (lower_char c) = is_hyphen c.
Proof.
  destruct (is_hyphen c) eqn:Hc; destruct (is_hyphen (lower_char c)) eqn:Ha;
    try done; exfalso; class_cases;
    destruct (65 <=? c)%N eqn:H1, (c <=? 90)%N eqn:H2; cbn [andb] in *;
    bool_to_prop; lia.
Qed.

Lemma sub_runs_lower b s :
  sub_runs slug_alphabet b (lower s) = lower (sub_runs slug_class b s).
Proof.
  revert b. induction s as [|c s IH]; intros b; [done|].
  unfold lower in *. cbn [List.map sub_runs].
  rewrite slug_alphabet_lower. destruct (slug_class c).
  - cbn [List.map]. by rewrite IH.
  - destruct b; [apply IH|]. cbn [List.map]. by rewrite IH.
Qed.

Lemma lstrip_hyphens_lower s :
  lstrip_by is_hyphen (lower s) = lower (lstrip_by is_hyphen s).
Proof.
  induction s as [|c s IH]; [done|].
  unfold lower in *. cbn [List.map lstrip_by]. rewrite is_hyphen_lower.
  by destruct (is_hyphen c).
Qed.

Lemma strip_hyphens_lower s : strip_hyphens (lower s) = lower (strip_hyphens s).
Proof.
  unfold strip_hyphens, strip_by, rstrip_by. fold is_hyphen.
  rewrite lstrip_hyphens_lower. unfold lower at 1. rewrite <- map_rev. fold (lower (rev (lstrip_by is_hyphen s))).
  rewrite lstrip_hyphens_lower. unfold lower. by rewrite map_rev.
Qed.

Lemma worded_slug_plain value :
  Forall plain value ->
  strip_hyphens (sub_runs slug_alphabet false (lowercase value)) = collapsed_slug value.
Proof.
  intros H. rewrite (lowercase_plain _ H), sub_runs_lower, strip_hyphens_lower. done.
Qed.

(** C7, as amended.  Slug normalization produces the string obtained by
    collapsing every maximal run of characters outside [[a-zA-Z0-9-]] into
    one hyphen, trimming leading and trailing hyphens, and lowercasing
    what is left; it fails with InvalidInput exactly when that string is
    empty.  On input without U+212A and U+0130 this is the string obtained
    by lowercasing first and collapsing the runs outside [[a-z0-9-]]. *)
Theorem safe_slug_normal_form (value : str) :
  (collapsed_slug value = [] -> safe_slug value = Err InvalidSlug)
  /\ (collapsed_slug value <> [] -> safe_slug value = Ok (collapsed_slug value))
  /\ (fails_with (safe_slug value) InvalidInput <-> collapsed_slug value = [])
  /\ (Forall plain value -> safe_slug value = worded_slug value).
Proof.
  rewrite safe_slug_collapsed. split_and!.
  - by intros ->.
  - by destruct (collapsed_slug value).
  - destruct (collapsed_slug value); split; try done.
    + intros _. by exists InvalidSlug.
    + by intros (e & ? & _).
  - intros H. unfold worded_slug. by rewrite (worded_slug_plain _ H).
Qed.

(** The Kelvin sign lowercases to [k]: lowercased first it is a slug,
    while [safe_slug] collapses it to a hyphen and rejects the input. *)
Lemma safe_slug_kelvin_sign :
  safe_slug [8490%N] = Err InvalidSlug
  /\ worded_slug [8490%N] = Ok (lit "k")
  /\ ~ (forall value, safe_slug value = worded_slug value).
Proof.
  split_and!; [reflexivity | reflexivity |].
  intros H. specialize (H [8490%N]). vm_compute in H. discriminate.
Qed.

(** ** Loading and saving *)

Lemma universal_newlines_id text : newline_only text -> universal_newlines text = text.
Proof.
  intros H. induction H as [|c s Hc _ IH]; [done|].
  cbn [universal_newlines].
  destruct (N.eqb_spec c CR) as [->|_]; [by specialize (Hc eq_refl) | by rewrite IH].
Qed.

Lemma join_lines_cons l ls : ls <> [] -> join_lines (l :: ls) = l ++ LF :: join_lines ls.
Proof. by destruct ls. Qed.

Lemma splitlines_from_nonempty cur s :
  cur <> [] \/ s <> [] -> splitlines_from cur s <> [].
Proof.
  revert cur. induction s as [|c s IH]; intros cur Hne; cbn [splitlines_from].
  - destruct cur; [by destruct Hne | done].
  - destruct (is_linebreak c).
    + destruct s; [done|]. by destruct (_ && _).
    + apply IH. by left.
Qed.

(** Joining the lines of a text gives the text back, up to one final
    newline. *)
Lemma join_splitlines_from cur s :
  newline_only s ->
  exists t, (t = [] \/ t = [LF])
            /\ rev cur ++ s = join_lines (splitlines_from cur s) ++ t.
Proof.
  intros H. revert cur. induction H as [|c s Hc Hs IH]; intros cur.
  - exists []. split; [by left|]. cbn [splitlines_from].
    destruct cur; [done|]. cbn [join_lines]. done.
  - cbn [splitlines_from]. destruct (is_linebreak c) eqn:Hlb.
    + rewrite (Hc eq_refl). destruct s as [|d s'].
      * exists [LF]. split; [by right|]. done.
      * replace ((LF =? CR)%N && (d =? LF)%N) with false by done.
        destruct (IH []) as (t & Ht & Heq). exists t. split; [done|].
        rewrite join_lines_cons by (apply splitlines_from_nonempty; by right).
        cbn [rev app] in Heq. rewrite Heq at 1. by rewrite <- app_assoc.
    + destruct (IH (c :: cur)) as (t & Ht & Heq). exists t. split; [done|].
      rewrite <- Heq. cbn [rev]. by rewrite <- app_assoc.
Qed.

Lemma is_space_LF : Forall (fun c => is_space c = true) [LF].
Proof. by constructor. Qed.

Lemma saved_text_roundtrip text :
  newline_only text ->
  saved_text (splitlines (universal_newlines text)) = rstrip text ++ [LF].
Proof.
  intros H. rewrite universal_newlines_id by done.
  unfold saved_text, splitlines. f_equal.
  destruct (join_splitlines_from [] text H) as (t & [->| ->] & Heq); cbn [rev app] in Heq.
  - rewrite app_nil_r in Heq. by rewrite <- Heq.
  - transitivity (rstrip (join_lines (splitlines_from [] text) ++ [LF])).
    + symmetry. apply rstrip_by_app_r, is_space_LF.
    + by rewrite <- Heq.
Qed.

Lemma load_lines_file fs p text :
  p <> [] -> fs !! p = Some (Fs.File text) ->
  load_lines p fs = (Ok (splitlines (universal_newlines text)), fs).
Proof.
  intros Hp Hfile. unfold load_lines, bind, path_exists, read_text, ret.
  unfold Fs.exists_, Fs.read_text, Fs.node_at.
  destruct p; [done|]. rewrite Hfile. cbn. by rewrite Hfile.
Qed.

Lemma save_lines_file fs p text lines :
  p <> [] -> fs !! p = Some (Fs.File text) -> Fs.well_formed fs ->
  save_lines p lines fs = (Ok tt, <[p := Fs.File (saved_text lines)]> fs).
Proof.
  intros Hp Hfile Hwf. unfold save_lines, write_text, Fs.write_text.
  rewrite (Hwf _ _ Hfile). unfold Fs.node_at at 1.
  destruct p; [done|]. by rewrite Hfile.
Qed.

Lemma lstrip_by_head f s :
  match lstrip_by f s with [] => True | c :: _ => f c = false end.
Proof.
  induction s as [|c s IH]; cbn [lstrip_by]; [done|].
  by destruct (f c) eqn:Hc.
Qed.

Lemma rstrip_no_trailing_space s : no_trailing_space (rstrip s).
Proof.
  unfold no_trailing_space, rstrip, rstrip_by.
  pose proof (lstrip_by_head is_space (rev s)) as H.
  destruct (lstrip_by is_space (rev s)) as [|c r]; [by left|].
  right. exists (rev r), c. done.
Qed.

(** C3, as amended.  Saving writes the lines joined by newlines, with
    trailing whitespace trimmed and exactly one newline appended.
    Loading a document, parsing it and saving the lines unchanged
    therefore writes the original content with its trailing whitespace
    replaced by one newline, provided the newline is the only line
    boundary that occurs in the document. *)
Theorem reserialize_roundtrip (fs : Fs.t) (p : Fs.path) (text : str) :
  Fs.well_formed fs -> p <> [] -> fs !! p = Some (Fs.File text) ->
  let lines := splitlines (universal_newlines text) in
  reserialize p fs = (Ok tt, <[p := Fs.File (saved_text lines)]> fs)
  /\ saved_text lines = rstrip (join_lines lines) ++ [LF]
  /\ no_trailing_space (rstrip (join_lines lines))
  /\ (newline_only text -> saved_text lines = rstrip text ++ [LF]).
Proof.
  intros Hwf Hp Hfile lines. split_and!.
  - unfold reserialize, bind. rewrite (load_lines_file _ _ _ Hp Hfile).
    by apply (save_lines_file _ _ text).
  - done.
  - apply rstrip_no_trailing_space.
  - intros Hnl. by apply saved_text_roundtrip.
Qed.

(** A form feed, or a carriage return, is a line boundary for
    [splitlines]: it comes back as a newline, in the middle of the text. *)
Lemma reserialize_changes_form_feed :
  let text := [97; 12; 98; 10]%N in
  let p := [lit "entries.md"] in
  let fs : Fs.t := {[ p := Fs.File text ]} in
  Fs.well_formed fs
  /\ fst (reserialize p fs) = Ok tt
  /\ snd (reserialize p fs) !! p = Some (Fs.File [97; 10; 98; 10]%N)
  /\ snd (reserialize p fs) !! p <> Some (Fs.File (rstrip text ++ [LF]))
  /\ rstrip [97; 10; 98; 10]%N <> rstrip text.
Proof.
  cbv zeta. split_and!.
  - intros p n [<- _]%lookup_singleton_Some. reflexivity.
  - vm_compute. reflexivity.
  - vm_compute. reflexivity.
  - vm_compute. discriminate.
  - vm_compute. discriminate.
Qed.

(** Windows line ends come back as newlines. *)
Lemma reserialize_changes_crlf :
  saved_text (splitlines (universal_newlines [97; 13; 10; 98; 13; 10]%N)) = [97; 10; 98; 10]%N.
Proof. vm_compute. reflexivity. Qed.

(** ** Dashboard *)

Lemma status_is_true name e :
  status_is name e = true <-> strip (default [] (status e)) = name.
Proof. apply str_eqb_eq. Qed.

Lemma status_is_functional a b e :
  status_is a e = true -> status_is b e = true -> a = b.
Proof. rewrite !status_is_true. congruence. Qed.

Lemma bucket_counts_sum all :
  length (bucket (lit "pending") all) + length (bucket (lit "approved") all)
  + length (bucket (lit "rejected") all) + length (bucket (lit "promoted") all)
  = length (List.filter canonical all).
Proof.
  unfold bucket, canonical. induction all as [|x all IH]; [done|].
  cbn [List.filter].
  destruct (status_is (lit "pending") (snd x)) eqn:H1;
    destruct (status_is (lit "approved") (snd x)) eqn:H2;
    destruct (status_is (lit "rejected") (snd x)) eqn:H3;
    destruct (status_is (lit "promoted") (snd x)) eqn:H4;
    cbn [orb length];
    try lia;
    exfalso;
    repeat match goal with
      | Ha : status_is ?a ?e = true, Hb : status_is ?b ?e = true |- _ =>
          pose proof (status_is_functional _ _ _ Ha Hb) as Hab;
          vm_compute in Hab; discriminate Hab
      end.
Qed.



Lemma slice_to_nonneg {A} (items : list A) limit :
  (0 <= limit)%Z -> slice_to items limit = take (Z.to_nat limit) items.
Proof. intros H. unfold slice_to. by rewrite (proj2 (Z.leb_le _ _) H). Qed.

(** A negative limit is a Python slice bound: it drops from the end. *)
Lemma slice_to_negative {A} (items : list A) limit :
  (limit < 0)%Z -> slice_to items limit = take (length items - Z.to_nat (- limit)) items.
Proof. intros H. unfold slice_to. by rewrite (proj2 (Z.leb_gt _ _) H). Qed.

Lemma load_lines_fs p fs r fs' : load_lines p fs = (r, fs') -> fs' = fs.
Proof.
  unfold load_lines, bind, path_exists, read_text, raise, ret.
  destruct (Fs.exists_ fs p); cbn.
  - destruct (Fs.read_text fs p); by intros [= _ <-].
  - by intros [= _ <-].
Qed.


(** ** Promotion *)

Lemma promotable_true e :
  promotable e = true <->
  status e = Some (lit "approved") \/ status e = Some (lit "promoted").
Proof.
  unfold promotable. destruct (status e) as [s|].
  - rewrite orb_true_iff, !str_eqb_eq. split; intros [?|?]; (left + right); congruence.
  - split; [done | by intros [?|?]].
Qed.

Lemma load_lines_run p fs lines :
  fst (load_lines p fs) = Ok lines -> load_lines p fs = (Ok lines, fs).
Proof.
  destruct (load_lines p fs) as [r fs'] eqn:E. cbn [fst]. intros ->.
  by rewrite (load_lines_fs _ _ _ _ E).
Qed.

(** C2.  A record whose status is neither [approved] nor [promoted] (be it
    [pending], [rejected], absent or anything else) makes promotion fail
    with InvalidState, and the file system is as before: no artifact is
    written and the document is not modified. *)
Theorem cmd_promote_requires_approval
    (fs : Fs.t) (source fingerprint slug description target : str)
    (p : Fs.path) (lines : list str) (entry : Entry) :
  entries_path source = Ok p ->
  fst (load_lines p fs) = Ok lines ->
  find_entry_by_fingerprint (parse_entries lines) fingerprint = Ok entry ->
  status entry <> Some (lit "approved") ->
  status entry <> Some (lit "promoted") ->
  cmd_promote source fingerprint slug description target fs = (Err StatusNotApproved, fs)
  /\ fails_with (fst (cmd_promote source fingerprint slug description target fs)) InvalidState.
Proof.
  intros Hp Hload%load_lines_run Hfind Ha Hb.
  assert (Hno : promotable entry = false).
  { destruct (promotable entry) eqn:E; [|done].
    apply promotable_true in E as [?|?]; congruence. }
  assert (Hrun : cmd_promote source fingerprint slug description target fs
                 = (Err StatusNotApproved, fs)).
  { unfold cmd_promote, bind, lift, raise. rewrite Hp. cbn match. rewrite Hload.
    cbn match. rewrite Hfind. cbn match. by rewrite Hno. }
  split; [exact Hrun|]. rewrite Hrun. by exists StatusNotApproved.
Qed.

Lemma snoc_not_nil (p : Fs.path) c : p ++ [c] <> [].
Proof. destruct p; discriminate. Qed.

Lemma parent_snoc (p : Fs.path) c : Fs.parent (p ++ [c]) = p.
Proof. unfold Fs.parent. apply removelast_last. Qed.

Lemma mkdir_parents_existing fs p :
  Fs.is_dir fs p = true -> Fs.mkdir_parents fs p = Ok fs.
Proof.
  intros Hdir. unfold Fs.mkdir_parents.
  assert (Hstep : Fs.mkdir_parents_rev fs (rev p)
                  = match Fs.os_mkdir fs (rev (rev p)) with
                    | inr fs' => Ok fs'
                    | inl Fs.ENOENT =>
                        match rev p with
                        | [] => Err OSError
                        | _ :: rparent =>
                            match Fs.mkdir_parents_rev fs rparent with
                            | Err e => Err e
                            | Ok fs1 => Fs.mkdir_one fs1 (rev (rev p))
                            end
                        end
                    | inl _ => if Fs.is_dir fs (rev (rev p)) then Ok fs else Err OSError
                    end) by (by destruct (rev p)).
  rewrite Hstep, rev_involutive. unfold Fs.os_mkdir.
  unfold Fs.is_dir in *. destruct (Fs.node_at fs p) as [[|]|]; done.
Qed.

Lemma exists_lookup fs (p : Fs.path) :
  p <> [] -> Fs.exists_ fs p = true -> exists n, fs !! p = Some n.
Proof.
  unfold Fs.exists_, Fs.node_at. destruct p; [done|].
  intros _. destruct (fs !! _); [eauto | done].
Qed.

(** With the artifact in place, promotion stops at one of its checks and
    leaves the file system as it is. *)
Lemma cmd_promote_existing_artifact
    fs source fingerprint slug description target normalized_slug destination_dir :
  Fs.well_formed fs ->
  safe_slug slug = Ok normalized_slug ->
  skill_dir target normalized_slug = Ok destination_dir ->
  Fs.exists_ fs (destination_dir ++ [lit "SKILL.md"]) = true ->
  exists err,
    cmd_promote source fingerprint slug description target fs = (Err err, fs)
    /\ (err = SkillExists <->
        exists p lines entry,
          entries_path source = Ok p /\ fst (load_lines p fs) = Ok lines
          /\ find_entry_by_fingerprint (parse_entries lines) fingerprint = Ok entry
          /\ promotable entry = true).
Proof.
  intros Hwf Hslug Hdir Hex.
  assert (Hisdir : Fs.is_dir fs destination_dir = true).
  { destruct (exists_lookup fs _ (snoc_not_nil _ _) Hex) as [n Hn].
    apply Hwf in Hn. rewrite parent_snoc in Hn. unfold Fs.is_dir. by rewrite Hn. }
  unfold cmd_promote, bind, lift, raise.
  destruct (entries_path source) as [p|e0] eqn:Hp; cbn match.
  2:{ exists e0. split; [done|]. split; [|by intros (? & ? & ? & [=] & _)].
      intros ->. unfold entries_path in Hp. by repeat destruct (str_eqb _ _). }
  destruct (load_lines p fs) as [rl fl] eqn:Hload.
  pose proof (load_lines_fs _ _ _ _ Hload) as ->.
  destruct rl as [lines|e1]; cbn match.
  2:{ exists e1. split; [done|]. split.
      - intros ->. unfold load_lines, bind, path_exists, read_text, raise, ret in Hload.
        destruct (Fs.exists_ fs p); cbn in Hload; [|done].
        unfold Fs.read_text in Hload. by destruct (Fs.node_at fs p) as [[|]|].
      - intros (? & ? & ? & [= <-] & Hl & _). rewrite Hload in Hl. done. }
  destruct (find_entry_by_fingerprint (parse_entries lines) fingerprint)
    as [entry|e2] eqn:Hfind; cbn match.
  2:{ exists e2. split; [done|]. split.
      - intros ->. by apply find_entry_err in Hfind as [? _].
      - intros (? & ? & ? & [= <-] & Hl & Hf & _). rewrite Hload in Hl.
        cbn in Hl. injection Hl as <-. congruence. }
  destruct (promotable entry) eqn:Hprom; cbn [negb].
  2:{ exists StatusNotApproved. split; [done|]. split; [done|].
      intros (? & ? & ? & [= <-] & Hl & Hf & Hpr). rewrite Hload in Hl.
      cbn in Hl. injection Hl as <-. congruence. }
  rewrite Hslug. cbn match. rewrite Hdir. cbn match.
  unfold mkdir_parents, path_exists. rewrite (mkdir_parents_existing _ _ Hisdir).
  rewrite Hex. cbn beta iota. exists SkillExists. split; [done|]. split; [|done].
  intros _. exists p, lines, entry. rewrite Hload. done.
Qed.

(** C1, as amended.  When the artifact for the normalized slug exists,
    promotion fails and nothing on disk changes: neither the artifact
    nor the document, hence neither the record's status nor its
    reviewNote.  It fails with DuplicateResource when the document loads,
    the record is found and its status is [approved] or [promoted];
    otherwise one of the earlier checks has failed.  The path checked is
    built from the normalized slug, and the directory creation that
    precedes the check finds the directory in place. *)
Theorem cmd_promote_duplicate
    (fs : Fs.t) (source fingerprint slug description target : str)
    (normalized_slug : str) (destination_dir : Fs.path) :
  Fs.well_formed fs ->
  safe_slug slug = Ok normalized_slug ->
  skill_dir target normalized_slug = Ok destination_dir ->
  Fs.exists_ fs (destination_dir ++ [lit "SKILL.md"]) = true ->
  (exists err, cmd_promote source fingerprint slug description target fs = (Err err, fs))
  /\ Fs.mkdir_parents fs destination_dir = Ok fs
  /\ (forall p lines entry,
        entries_path source = Ok p ->
        fst (load_lines p fs) = Ok lines ->
        find_entry_by_fingerprint (parse_entries lines) fingerprint = Ok entry ->
        status entry = Some (lit "approved") \/ status entry = Some (lit "promoted") ->
        cmd_promote source fingerprint slug description target fs = (Err SkillExists, fs)
        /\ fails_with (fst (cmd_promote source fingerprint slug description target fs))
             DuplicateResource).
Proof.
  intros Hwf Hslug Hdir Hex.
  destruct (cmd_promote_existing_artifact fs source fingerprint slug description target
              normalized_slug destination_dir Hwf Hslug Hdir Hex) as (err & Hrun & Herr).
  split_and!.
  - by exists err.
  - apply mkdir_parents_existing.
    destruct (exists_lookup fs _ (snoc_not_nil _ _) Hex) as [n Hn].
    apply Hwf in Hn. rewrite parent_snoc in Hn. unfold Fs.is_dir. by rewrite Hn.
  - intros p lines entry Hp Hl Hf Hst.
    assert (err = SkillExists) as ->.
    { apply Herr. exists p, lines, entry. split_and!; try done. by apply promotable_true. }
    split; [done|]. rewrite Hrun. by exists SkillExists.
Qed.

(** A pending record with the artifact in place: promotion fails with
    InvalidState, not with DuplicateResource. *)
Lemma cmd_promote_pending_with_artifact :
  safe_slug (lit "My Pattern") = Ok (lit "my-pattern")
  /\ Fs.exists_ pending_fs [lit "cursor"; lit "skills"; lit "my-pattern"; lit "SKILL.md"] = true
  /\ fst (cmd_promote (lit "manual") (lit "abc123") (lit "My Pattern") (lit "") (lit "skills")
            pending_fs) = Err StatusNotApproved
  /\ ~ fails_with
         (fst (cmd_promote (lit "manual") (lit "abc123") (lit "My Pattern") (lit "")
                 (lit "skills") pending_fs)) DuplicateResource.
Proof.
  split_and!; try (vm_compute; reflexivity).
  intros (e & He & Hc).
  assert (H : fst (cmd_promote (lit "manual") (lit "abc123") (lit "My Pattern") (lit "")
                     (lit "skills") pending_fs) = Err StatusNotApproved)
    by (vm_compute; reflexivity).
  rewrite H in He. injection He as <-. discriminate Hc.
Qed.

(** ** Review *)

Lemma list_insert_at_length {A} k (x : A) l :
  k <= length l -> length (list_insert_at k x l) = length l + 1.
Proof.
  intros Hk. unfold list_insert_at.
  rewrite length_app, length_take. cbn [length]. rewrite length_drop. lia.
Qed.

Lemma list_insert_at_lookup_eq {A} k (x : A) l :
  k <= length l -> list_insert_at k x l !! k = Some x.
Proof.
  intros Hk. unfold list_insert_at.
  rewrite lookup_app_r by (rewrite length_take; lia).
  rewrite length_take. by replace (_ - _) with 0 by lia.
Qed.

Lemma list_insert_at_lookup_lt {A} k (x : A) l j :
  j < k -> k <= length l -> list_insert_at k x l !! j = l !! j.
Proof.
  intros Hj Hk. unfold list_insert_at.
  rewrite lookup_app_l by (rewrite length_take; lia). by apply lookup_take_lt.
Qed.

Lemma list_insert_at_lookup_ge {A} k (x : A) l j :
  k <= j -> k <= length l -> list_insert_at k x l !! (j + 1) = l !! j.
Proof.
  intros Hj Hk. unfold list_insert_at.
  rewrite lookup_app_r by (rewrite length_take; lia).
  rewrite length_take. replace (j + 1 - _) with (S (j - k)) by lia. simpl.
  rewrite lookup_drop. f_equal. lia.
Qed.






(** ** Field update: replace or insert *)

(** C4.  For a record whose span lies within the line list: when a line
    of the span starts with the key prefix, the first such line is
    replaced, every other line and the line count stay, and so do the
    spans of all records; otherwise one field line is inserted at the end
    of the span and the line count grows by one.  The header line of a
    parsed record never starts with a key prefix. *)
Theorem update_or_insert_kv_upsert (lines : list str) (e : Entry) (key value : str) :
  header_index e < end_index e <= length lines ->
  (field_line_in_span lines e (kv_target key) ->
     exists i l lines',
       update_or_insert_kv lines e key value = Ok lines'
       /\ header_index e < i < end_index e
       /\ lines !! i = Some l /\ startswith (kv_target key) l = true
       /\ (forall i' l', header_index e < i' < i -> lines !! i' = Some l' ->
             startswith (kv_target key) l' = false)
       /\ lines' !! i = Some (kv_target key ++ value)
       /\ (forall j, j <> i -> lines' !! j = lines !! j)
       /\ length lines' = length lines
       /\ List.map span (parse_entries lines') = List.map span (parse_entries lines))
  /\ (~ field_line_in_span lines e (kv_target key) ->
      exists lines',
        update_or_insert_kv lines e key value = Ok lines'
        /\ lines' = take (end_index e) lines ++ (kv_target key ++ value) :: drop (end_index e) lines
        /\ lines' !! end_index e = Some (kv_target key ++ value)
        /\ (forall j, j < end_index e -> lines' !! j = lines !! j)
        /\ (forall j, end_index e <= j -> lines' !! (j + 1) = lines !! j)
        /\ length lines' = length lines + 1)
  /\ (e ∈ parse_entries lines ->
      forall l, lines !! header_index e = Some l -> startswith (kv_target key) l = false).
Proof.
  intros Hspan.
  destruct (update_or_insert_kv_cases lines e key value Hspan)
    as (lines' & Hup & [(k & l & Hk & Hl & Hs & Hfirst & ->) | [Hnone ->]]).
  - split_and!.
    + intros _. exists k, l, (<[k := kv_target key ++ value]> lines).
      pose proof (lookup_lt_Some _ _ _ Hl) as Hlt.
      split_and!; try done; try lia.
      * by apply list_lookup_insert_eq.
      * intros j Hj. by apply list_lookup_insert_ne.
      * apply length_insert.
      * by apply (replace_field_spans lines key k l).
    + intros Hno. exfalso. apply Hno. by exists k, l.
    + intros He l' Hl'.
      apply parse_entries_entry_of, entry_of_span in He as (_ & (lh & Hlh & Hm) & _).
      assert (l' = lh) as -> by congruence. by apply (header_not_target key _ _ Hm).
  - split_and!.
    + intros (i & l & Hi & Hl & Hs). by rewrite (Hnone i l Hi Hl) in Hs.
    + intros _. eexists. split; [exact Hup|]. split_and!.
      * done.
      * apply list_insert_at_lookup_eq. lia.
      * intros j Hj. apply list_insert_at_lookup_lt; lia.
      * intros j Hj. apply list_insert_at_lookup_ge; lia.
      * apply list_insert_at_length. lia.
    + intros He l' Hl'.
      apply parse_entries_entry_of, entry_of_span in He as (_ & (lh & Hlh & Hm) & _).
      assert (l' = lh) as -> by congruence. by apply (header_not_target key _ _ Hm).
Qed.

(** ** Worked instances *)

Lemma well_formed_b_sound fs : Fs.well_formed_b fs = true -> Fs.well_formed fs.
Proof.
  unfold Fs.well_formed_b, Fs.well_formed. rewrite forallb_forall.
  intros H p n Hp. apply elem_of_map_to_list, list_elem_of_In, H in Hp.
  by apply bool_decide_eq_true in Hp.
Qed.


Lemma approved_fs_well_formed : Fs.well_formed approved_fs.
Proof. apply well_formed_b_sound. vm_compute. reflexivity. Qed.

Lemma cmd_promote_requires_approval_witness :
  status (one_entry "pending") <> Some (lit "approved")
  /\ cmd_promote (lit "manual") (lit "abc123") (lit "My Pattern") (lit "") (lit "skills")
       pending_fs = (Err StatusNotApproved, pending_fs).
Proof.
  split; [vm_compute; discriminate|].
  apply (cmd_promote_requires_approval pending_fs (lit "manual") (lit "abc123")
           (lit "My Pattern") (lit "") (lit "skills") manual_path
           (one_record "pending") (one_entry "pending")).
  - vm_compute. reflexivity.
  - vm_compute. reflexivity.
  - vm_compute. reflexivity.
  - vm_compute. discriminate.
  - vm_compute. discriminate.
Defined.

Lemma cmd_promote_duplicate_witness :
  Fs.exists_ approved_fs artifact_path = true
  /\ cmd_promote (lit "manual") (lit "abc123") (lit "My Pattern") (lit "") (lit "skills")
       approved_fs = (Err SkillExists, approved_fs).
Proof.
  split; [vm_compute; reflexivity|].
  apply (cmd_promote_duplicate approved_fs (lit "manual") (lit "abc123")
           (lit "My Pattern") (lit "") (lit "skills") (lit "my-pattern")
           [lit "cursor"; lit "skills"; lit "my-pattern"]
           approved_fs_well_formed ltac:(vm_compute; reflexivity)
           ltac:(vm_compute; reflexivity) ltac:(vm_compute; reflexivity))
    with (p := manual_path) (lines := one_record "approved") (entry := one_entry "approved").
  - vm_compute. reflexivity.
  - vm_compute. reflexivity.
  - vm_compute. reflexivity.
  - left. vm_compute. reflexivity.
Defined.

Lemma reserialize_roundtrip_witness :
  let p := [lit "entries.md"] in
  let text := [97; 32; 10; 98; 10; 32; 10]%N in
  let fs : Fs.t := {[ p := Fs.File text ]} in
  newline_only text
  /\ reserialize p fs = (Ok tt, <[p := Fs.File (rstrip text ++ [LF])]> fs)
  /\ rstrip text ++ [LF] = [97; 32; 10; 98; 10]%N.
Proof.
  cbv zeta.
  assert (Hnl : newline_only [97; 32; 10; 98; 10; 32; 10]%N).
  { unfold newline_only. repeat constructor; vm_compute; congruence. }
  split; [exact Hnl|]. split; [|vm_compute; reflexivity].
  destruct (reserialize_roundtrip {[ [lit "entries.md"] := Fs.File [97; 32; 10; 98; 10; 32; 10]%N ]}
              [lit "entries.md"] [97; 32; 10; 98; 10; 32; 10]%N) as (Hrun & _ & _ & Hsame).
  - apply well_formed_b_sound. vm_compute. reflexivity.
  - discriminate.
  - vm_compute. reflexivity.
  - rewrite Hrun. cbv zeta in Hsame. by rewrite (Hsame Hnl).
Defined.

Lemma update_or_insert_kv_upsert_witness :
  header_index twice_entry < end_index twice_entry <= length twice
  /\ exists i lines',
       update_or_insert_kv twice twice_entry (lit "status") (lit "approved") = Ok lines'
       /\ lines' !! i = Some (lit "  - status: approved")
       /\ length lines' = length twice.
Proof.
  assert (Hspan : header_index twice_entry < end_index twice_entry <= length twice)
    by (vm_compute; lia).
  split; [exact Hspan|].
  destruct (update_or_insert_kv_upsert twice twice_entry (lit "status") (lit "approved") Hspan)
    as (Hreplace & _ & _).
  destruct Hreplace as (i & l & lines' & Hup & _ & _ & _ & _ & Hi & _ & Hlen & _).
  - exists 1, (lit "  - status: first"). split_and!; [vm_compute; lia..| |]; reflexivity.
  - exists i, lines'. split_and!; done.
Defined.

Lemma update_or_insert_kv_duplicate_key_witness :
  twice_entry ∈ parse_entries twice
  /\ exists i0 lines' e',
       update_or_insert_kv twice twice_entry (lit "status") (lit "approved") = Ok lines'
       /\ lines' = <[i0 := lit "  - status: approved"]> twice
       /\ e' ∈ parse_entries lines'
       /\ entry_field (lit "status") e' = Some (lit "last").
Proof.
  assert (Hin : twice_entry ∈ parse_entries twice).
  { apply list_elem_of_In. vm_compute. left. reflexivity. }
  split; [exact Hin|].
  destruct (update_or_insert_kv_duplicate_key twice twice_entry (lit "status") (lit "approved")
              1 2 (lit "  - status: first") (lit "  - status: last") (lit "first") (lit "last"))
    as (i0 & lines' & e' & H1 & H2 & _ & _ & _ & H3 & _ & _ & H4 & _).
  - exact Hin.
  - apply list_elem_of_In. vm_compute. auto.
  - vm_compute. lia.
  - lia.
  - vm_compute. lia.
  - reflexivity.
  - vm_compute. reflexivity.
  - reflexivity.
  - vm_compute. reflexivity.
  - intros k l Hk. vm_compute in Hk. lia.
  - intros k l Hk. vm_compute in Hk. lia.
  - exists i0, lines', e'. split_and!; done.
Defined.



(** * Evaluations of the UI server *)

Example frontmatter_cases :
  FRONTMATTER_RE (lit "---" ++ [LF] ++ lit "a" ++ [LF] ++ lit "---" ++ [LF]) = Some (lit "a")
  /\ FRONTMATTER_RE (lit "---" ++ [LF] ++ lit "---" ++ [LF]) = None
  /\ FRONTMATTER_RE (lit " ---" ++ [LF] ++ lit "a" ++ [LF] ++ lit "---" ++ [LF]) = None
  /\ FRONTMATTER_RE (lit "---" ++ [LF] ++ [LF] ++ lit "---" ++ [LF]) = Some (lit "")
  /\ FRONTMATTER_RE (lit "---" ++ [LF] ++ lit "a" ++ [LF] ++ lit "---" ++ [LF]
                       ++ lit "b" ++ [LF] ++ lit "---" ++ [LF]) = Some (lit "a").
Proof. vm_compute. repeat split. Qed.

Example name_cases :
  NAME_RE (lit "name: a b  ") = Some (lit "a b  ")
  /\ NAME_RE (lit "x" ++ [LF] ++ lit "name:a") = Some (lit "a")
  /\ NAME_RE (lit " name: a") = None
  /\ NAME_RE (lit "name:" ++ [LF]) = None
  /\ NAME_RE (lit "name: ") = Some (lit " ")
  /\ NAME_RE (lit "name:" ++ [LF; LF] ++ lit "  b" ++ [LF] ++ lit "c") = Some (lit "b").
Proof. vm_compute. repeat split. Qed.

Example sorted_cases :
  sorted [ [lit "b"]; [lit "a"; lit "c"]; [lit "a"]; [lit "B"];
           [lit "a"; lit "b"; lit "SKILL.md"]; [lit "a"; lit "b-c"] ]
  = [ [lit "B"]; [lit "a"]; [lit "a"; lit "b"; lit "SKILL.md"]; [lit "a"; lit "b-c"];
      [lit "a"; lit "c"]; [lit "b"] ].
Proof. vm_compute. reflexivity. Qed.

Example slice_from_cases :
  slice_from [1; 2; 3] 0 = [1; 2; 3] /\ slice_from [1; 2; 3] (-2) = [2; 3]
  /\ slice_from [1; 2; 3] 1 = [2; 3] /\ slice_from [1; 2; 3] (-7) = [1; 2; 3]
  /\ slice_from [1; 2; 3] 7 = [].
Proof. vm_compute. repeat split. Qed.

Example scenario_skills : fst (build_skills after_promote) = Ok promoted_listing.
Proof. vm_compute. reflexivity. Qed.

(** A directory called [SKILL.md] is found and cannot be read. *)
Example skills_directory_case :
  fst (build_skills
         (list_to_map
            [ ([lit "cursor"], Fs.Dir);
              ([lit "cursor"; lit "skills"], Fs.Dir);
              ([lit "cursor"; lit "skills"; lit "SKILL.md"], Fs.Dir) ]))
  = Err OSError.
Proof. vm_compute. reflexivity. Qed.

(** * Further properties *)

(** ** The parser on parts of a document *)

Lemma parse_from_rest lines rest i :
  drop i lines = rest -> parse_from lines rest i = parse_rest rest i.
Proof.
  revert i. induction rest as [|l rest IH]; intros i Hdrop; [done|].
  assert (Hnext : drop (i + 1) lines = rest).
  { replace (i + 1) with (i + 1)%nat by done. rewrite <- drop_drop, Hdrop. done. }
  cbn [parse_from parse_rest]. rewrite (IH (i + 1) Hnext).
  destruct (ENTRY_HEADER_RE l) as [m|]; [|done].
  f_equal. unfold entry_at, entry_with, slice. by rewrite Hnext.
Qed.

Lemma parse_entries_rest lines : parse_entries lines = parse_rest lines 0.
Proof. rewrite parse_entries_from. by apply parse_from_rest. Qed.

Lemma next_header_shift rest j d : next_header rest (j + d) = next_header rest j + d.
Proof.
  revert j. induction rest as [|l rest IH]; intros j; cbn [next_header]; [done|].
  destruct (is_header l); [done|].
  replace (j + d + 1) with (j + 1 + d) by lia. apply IH.
Qed.

Lemma parse_rest_shift rest i d :
  parse_rest rest (i + d) = List.map (shift_entry d) (parse_rest rest i).
Proof.
  revert i. induction rest as [|l rest IH]; intros i; cbn [parse_rest List.map]; [done|].
  replace (i + d + 1) with (i + 1 + d) by lia.
  rewrite IH, next_header_shift.
  destruct (ENTRY_HEADER_RE l) as [m|]; [|done].
  cbn [List.map]. f_equal.
  unfold shift_entry, entry_with. cbn. f_equal.
  all: by replace (next_header rest (i + 1) + d - (i + 1 + d))
            with (next_header rest (i + 1) - (i + 1)) by lia.
Qed.

Lemma next_header_app rest b j :
  starts_record b -> next_header (rest ++ b) j = next_header rest j.
Proof.
  intros Hb. revert j. induction rest as [|l rest IH]; intros j; cbn [app next_header].
  - destruct b as [|x b]; [done|]. cbn [next_header]. cbn in Hb. by rewrite Hb.
  - destruct (is_header l); [done | apply IH].
Qed.

Lemma parse_rest_app a b i :
  starts_record b ->
  parse_rest (a ++ b) i = parse_rest a i ++ parse_rest b (i + length a).
Proof.
  intros Hb. revert i. induction a as [|l a IH]; intros i; cbn [app parse_rest length].
  - by rewrite Nat.add_0_r.
  - rewrite IH, next_header_app by done.
    replace (i + 1 + length a) with (i + S (length a)) by lia.
    destruct (ENTRY_HEADER_RE l) as [m|]; [|done].
    cbn [app]. f_equal. f_equal.
    pose proof (next_header_bounds a (i + 1)).
    apply take_app_le. lia.
Qed.

Lemma parse_rest_preamble pre b i :
  Forall (fun l => is_header l = false) pre ->
  parse_rest (pre ++ b) i = parse_rest b (i + length pre).
Proof.
  intros Hpre. revert i. induction Hpre as [|l pre Hl _ IH]; intros i; cbn [app parse_rest length].
  - by rewrite Nat.add_0_r.
  - apply is_header_false in Hl. rewrite Hl, IH. f_equal. lia.
Qed.

Lemma next_header_none body j :
  Forall (fun l => is_header l = false) body -> next_header body j = j + length body.
Proof.
  intros H. revert j. induction H as [|l body Hl _ IH]; intros j; cbn [next_header length].
  - lia.
  - rewrite Hl, IH. lia.
Qed.

(** A document cut around one record: what comes before, the header
    line, the lines of the record, and what follows. *)
Lemma parse_rest_record A lh m body B :
  ENTRY_HEADER_RE lh = Some m ->
  Forall (fun l => is_header l = false) body ->
  starts_record B ->
  parse_rest (A ++ lh :: body ++ B) 0
  = parse_rest A 0
    ++ entry_with (length A) (length A + 1 + length body) m body
    :: parse_rest B (length A + 1 + length body).
Proof.
  intros Hm Hbody HB.
  rewrite parse_rest_app by (cbn; by apply is_header_true; eauto).
  f_equal. cbn [parse_rest Nat.add]. rewrite Hm.
  rewrite next_header_app, next_header_none, parse_rest_preamble by done.
  replace (length A + 1 + length body - (length A + 1)) with (length body) by lia.
  by rewrite take_app_length.
Qed.

Lemma lookup_Forall_range {A} (P : A -> Prop) (lines : list A) a b :
  (forall i l, a <= i < b -> lines !! i = Some l -> P l) ->
  Forall P (slice lines a b).
Proof.
  intros H. apply Forall_lookup. intros k l [Hl Hk]%slice_lookup_Some.
  apply (H (a + k)); [lia | done].
Qed.

(** The cut of a document around a parsed record. *)
Lemma parsed_entry_cut lines e :
  e ∈ parse_entries lines ->
  exists lh body,
    lines = take (header_index e) lines ++ lh :: body ++ drop (end_index e) lines
    /\ body = slice lines (header_index e + 1) (end_index e)
    /\ ENTRY_HEADER_RE lh = Some (timestamp e, title e)
    /\ Forall (fun l => is_header l = false) body
    /\ starts_record (drop (end_index e) lines)
    /\ length (take (header_index e) lines) = header_index e
    /\ header_index e + 1 + length body = end_index e
    /\ e = entry_with (header_index e) (end_index e) (timestamp e, title e) body.
Proof.
  intros He%parse_entries_entry_of.
  destruct (entry_of_span _ _ _ He) as (_ & (lh & Hlh & Hm) & Hspan & Hin & Hend).
  exists lh, (slice lines (header_index e + 1) (end_index e)).
  assert (Hlen : length (slice lines (header_index e + 1) (end_index e))
                 = end_index e - (header_index e + 1)).
  { unfold slice. rewrite length_take, length_drop. lia. }
  split_and!; try done.
  - rewrite <- (take_drop (header_index e) lines) at 1. f_equal.
    rewrite (drop_S _ _ _ Hlh). f_equal.
    replace (S (header_index e)) with (header_index e + 1) by lia.
    rewrite <- (take_drop (end_index e - (header_index e + 1))
                  (drop (header_index e + 1) lines)) at 1.
    unfold slice. f_equal. rewrite drop_drop. f_equal. lia.
  - apply lookup_Forall_range. intros i l Hi. apply Hin. lia.
  - destruct (drop (end_index e) lines) as [|x B] eqn:HB; [done|]. cbn.
    assert (Hx : lines !! end_index e = Some x).
    { rewrite <- (Nat.add_0_r (end_index e)), <- lookup_drop, HB. done. }
    apply lookup_lt_Some in Hx as Hlt.
    destruct (Hend Hlt) as (x' & Hx' & Hh). congruence.
  - rewrite length_take. lia.
  - lia.
  - destruct He as (l0 & m0 & Hl0 & Hm0 & Heq). rewrite Heq at 1.
    assert (m0 = (timestamp e, title e)) as -> by congruence.
    unfold entry_at, entry_with. rewrite <- (entry_of_end lines (header_index e) e); [done|].
    by exists l0, (timestamp e, title e).
Qed.

Lemma parse_entries_cut lines e :
  e ∈ parse_entries lines ->
  parse_entries lines
  = parse_entries (take (header_index e) lines)
    ++ e :: parse_rest (drop (end_index e) lines) (end_index e).
Proof.
  intros He.
  destruct (parsed_entry_cut lines e He)
    as (lh & body & Hcut & _ & Hm & Hbody & HB & HlenA & Hlen & Heq).
  rewrite (parse_entries_rest lines), Hcut at 1.
  rewrite (parse_rest_record _ _ _ _ _ Hm Hbody HB).
  rewrite HlenA, Hlen, <- Heq. by rewrite parse_entries_rest.
Qed.

(** ** Counting and composing records *)

Lemma parse_rest_length rest i :
  length (parse_rest rest i) = length (List.filter is_header rest).
Proof.
  revert i. induction rest as [|l rest IH]; intros i; cbn [parse_rest List.filter]; [done|].
  unfold is_header at 1. destruct (ENTRY_HEADER_RE l); cbn [length]; by rewrite IH.
Qed.

(** X1.  The parser returns one record per header line; a document
    without header line, the empty one among them, has no record. *)
Theorem parse_entries_count (lines : list str) :
  length (parse_entries lines) = length (List.filter is_header lines)
  /\ (parse_entries lines = [] <-> Forall (fun l => is_header l = false) lines).
Proof.
  rewrite parse_entries_rest. split; [apply parse_rest_length|].
  rewrite <- length_zero_iff_nil, parse_rest_length, length_zero_iff_nil.
  induction lines as [|l lines IH]; cbn [List.filter].
  - split; [constructor | done].
  - destruct (is_header l) eqn:Hl.
    + split; [done|]. intros H. inversion H. congruence.
    + rewrite IH. split; [by constructor | by inversion 1].
Qed.

(** X2.  Records compose: when [b] is empty or starts with a header line,
    the document [a ++ b] has the records of [a], unchanged, followed by
    those of [b] moved down by the length of [a]; and lines before the
    first header line add no record. *)
Theorem parse_entries_app (a b : list str) :
  (starts_record b ->
   parse_entries (a ++ b)
   = parse_entries a ++ List.map (shift_entry (length a)) (parse_entries b))
  /\ (Forall (fun l => is_header l = false) a ->
      parse_entries (a ++ b) = List.map (shift_entry (length a)) (parse_entries b)).
Proof.
  rewrite !parse_entries_rest. split.
  - intros Hb. rewrite parse_rest_app by done. f_equal.
    apply (parse_rest_shift b 0).
  - intros Ha. rewrite parse_rest_preamble by done. apply (parse_rest_shift b 0).
Qed.

(** ** The attributes of a record *)

Lemma vars_last_field key ls v :
  recognized key ->
  vars_field key (fold_left assign_kv ls v) = last_field key ls (vars_field key v).
Proof.
  intros Hkey. unfold last_field. revert v.
  induction ls as [|l ls IH]; intros v; cbn [fold_left]; [done|].
  by rewrite IH, assign_kv_field.
Qed.

Lemma entry_with_field key i j m body :
  recognized key -> entry_field key (entry_with i j m body) = last_field key body None.
Proof.
  intros Hkey.
  transitivity (vars_field key (fold_left assign_kv body no_vars)); [reflexivity|].
  rewrite vars_last_field by done. f_equal.
  unfold vars_field, no_vars. cbn. by repeat destruct (str_eqb _ _).
Qed.

Lemma last_field_app key a b init :
  last_field key (a ++ b) init = last_field key b (last_field key a init).
Proof. unfold last_field. apply fold_left_app. Qed.

Lemma last_field_skip key body init :
  Forall (fun l => field_of_line key l = None) body -> last_field key body init = init.
Proof.
  intros H. revert init. induction H as [|l body Hl _ IH]; intros init; [done|].
  unfold last_field in *. cbn [fold_left]. by rewrite Hl, IH.
Qed.

Lemma last_field_is_Some key body init :
  is_Some (last_field key body init) <->
  is_Some init \/ Exists (fun l => is_Some (field_of_line key l)) body.
Proof.
  revert init. induction body as [|l body IH]; intros init.
  - cbn. rewrite Exists_nil. tauto.
  - unfold last_field in *. cbn [fold_left]. rewrite IH, Exists_cons.
    destruct (field_of_line key l) as [x|].
    + split; [|by eauto]. intros _. right. left. by eexists.
    + split; [intros [?|?]; auto | intros [?|[[? ?]|?]]; auto; done].
Qed.

(** X3.  An attribute of a parsed record is the value of the last field
    line for its key in the span: it is absent exactly when the span
    holds no field line for the key, and a later field line for the same
    key replaces an earlier one. *)
Theorem parse_entries_last_write_wins (lines : list str) (e : Entry) (key : str) :
  e ∈ parse_entries lines ->
  recognized key ->
  let body := slice lines (header_index e + 1) (end_index e) in
  entry_field key e = last_field key body None
  /\ (entry_field key e = None <-> Forall (fun l => field_of_line key l = None) body)
  /\ (forall a l b v,
        body = a ++ l :: b -> field_of_line key l = Some v ->
        Forall (fun l' => field_of_line key l' = None) b ->
        entry_field key e = Some v).
Proof.
  intros He Hkey body.
  destruct (parsed_entry_cut lines e He) as (lh & body' & _ & Hbody & _ & _ & _ & _ & _ & Heq).
  assert (Hfield : entry_field key e = last_field key body None).
  { rewrite Heq at 1. rewrite entry_with_field by done. by rewrite Hbody. }
  split_and!; [done| |].
  - rewrite Hfield. split.
    + intros Hnone. apply Forall_forall. intros l Hl.
      destruct (field_of_line key l) as [x|] eqn:Hx; [|done].
      assert (His : is_Some (last_field key body None)).
      { apply last_field_is_Some. right. apply Exists_exists. exists l. split; [done|].
        rewrite Hx. by eexists. }
      rewrite Hnone in His. by destruct His.
    + apply last_field_skip.
  - intros a l b v -> Hl Hb. rewrite Hfield.
    rewrite last_field_app. unfold last_field at 1. cbn [fold_left]. rewrite Hl.
    by apply (last_field_skip key b).
Qed.

(** ** Updating a field and parsing again *)

Lemma update_on_cut A lh body B e key value :
  header_index e = length A ->
  end_index e = length A + 1 + length body ->
  (exists kb l,
     body !! kb = Some l /\ startswith (kv_target key) l = true
     /\ (forall k' l', k' < kb -> body !! k' = Some l' ->
           startswith (kv_target key) l' = false)
     /\ update_or_insert_kv (A ++ lh :: body ++ B) e key value
        = Ok (A ++ lh :: <[kb := kv_target key ++ value]> body ++ B))
  \/ (Forall (fun l => startswith (kv_target key) l = false) body
      /\ update_or_insert_kv (A ++ lh :: body ++ B) e key value
         = Ok (A ++ lh :: (body ++ [kv_target key ++ value]) ++ B)).
Proof.
  intros Hh Hend.
  assert (Hlook : forall k, header_index e < k < end_index e ->
            (A ++ lh :: body ++ B) !! k = body !! (k - (header_index e + 1))).
  { intros k Hk. rewrite lookup_app_r by lia.
    replace (k - length A) with (S (k - (header_index e + 1))) by lia.
    cbn. apply lookup_app_l. lia. }
  assert (Hspan : header_index e < end_index e <= length (A ++ lh :: body ++ B)).
  { rewrite length_app. cbn [length]. rewrite length_app. lia. }
  destruct (update_or_insert_kv_cases _ e key value Hspan)
    as (lines' & Hup & [(k & l & Hk & Hl & Hs & Hfirst & ->) | [Hnone ->]]).
  - left. exists (k - (header_index e + 1)), l. rewrite <- Hlook by lia.
    split_and!; [done | done | |].
    + intros k' l' Hk' Hl'. apply (Hfirst (header_index e + 1 + k')); [lia|].
      rewrite Hlook by lia. rewrite <- Hl'. f_equal. lia.
    + rewrite Hup. f_equal.
      rewrite insert_app_r_alt by lia.
      replace (k - length A) with (S (k - (header_index e + 1))) by lia.
      simpl. by rewrite insert_app_l by lia.
  - right. split.
    + apply Forall_lookup. intros kb l Hl.
      apply lookup_lt_Some in Hl as Hlt.
      apply (Hnone (header_index e + 1 + kb)); [lia|].
      rewrite Hlook by lia. rewrite <- Hl. f_equal. lia.
    + rewrite Hup. f_equal. unfold list_insert_at.
      replace (A ++ lh :: body ++ B) with ((A ++ lh :: body) ++ B)
        by (by rewrite <- app_assoc).
      rewrite take_app_length', drop_app_length'
        by (rewrite length_app; cbn [length]; lia).
      rewrite <- !app_assoc. cbn. by rewrite <- !app_assoc.
Qed.

Lemma field_line_not_header key value : is_header (kv_target key ++ value) = false.
Proof. apply (target_not_header key), startswith_app. Qed.

(** Parsing before and after an update, on the cut around the record. *)
Lemma update_reparse lines e key value :
  e ∈ parse_entries lines ->
  exists A lh body B body' d,
    lines = A ++ lh :: body ++ B
    /\ body = slice lines (header_index e + 1) (end_index e)
    /\ length A = header_index e
    /\ header_index e + 1 + length body = end_index e
    /\ parse_entries lines = parse_entries A ++ e :: parse_rest B (end_index e)
    /\ e = entry_with (header_index e) (end_index e) (timestamp e, title e) body
    /\ update_or_insert_kv lines e key value = Ok (A ++ lh :: body' ++ B)
    /\ length body' = length body + d
    /\ parse_entries (A ++ lh :: body' ++ B)
       = parse_entries A
         ++ entry_with (header_index e) (end_index e + d) (timestamp e, title e) body'
         :: parse_rest B (end_index e + d)
    /\ ((d = 0
         /\ exists kb l,
              body !! kb = Some l /\ startswith (kv_target key) l = true
              /\ (forall k' l', k' < kb -> body !! k' = Some l' ->
                    startswith (kv_target key) l' = false)
              /\ body' = <[kb := kv_target key ++ value]> body)
        \/ (d = 1
            /\ Forall (fun l => startswith (kv_target key) l = false) body
            /\ body' = body ++ [kv_target key ++ value])).
Proof.
  intros He.
  destruct (parsed_entry_cut lines e He)
    as (lh & body & Hcut & Hbody & Hm & Hnh & HB & HlenA & Hlen & Heq).
  pose proof (parse_entries_cut lines e He) as Hparse.
  remember (take (header_index e) lines) as A eqn:HA.
  remember (drop (end_index e) lines) as B eqn:HBdef.
  clear HA HBdef.
  assert (Hre : forall body', Forall (fun l => is_header l = false) body' ->
            parse_entries (A ++ lh :: body' ++ B)
            = parse_entries A
              ++ entry_with (header_index e) (header_index e + 1 + length body')
                   (timestamp e, title e) body'
              :: parse_rest B (header_index e + 1 + length body')).
  { intros body' Hb'. rewrite parse_entries_rest.
    rewrite (parse_rest_record _ _ _ _ _ Hm Hb' HB).
    by rewrite HlenA, parse_entries_rest. }
  destruct (update_on_cut A lh body B e key value ltac:(lia) ltac:(lia))
    as [(kb & l & Hl & Hs & Hfirst & Hup) | (Hnone & Hup)].
  - exists A, lh, body, B, (<[kb := kv_target key ++ value]> body), 0.
    split_and!; try done.
    + by rewrite Hcut at 1.
    + rewrite length_insert. lia.
    + rewrite Hre.
      * by rewrite length_insert, Hlen, !Nat.add_0_r.
      * apply Forall_insert; [done | apply field_line_not_header].
    + left. split; [done|]. by exists kb, l.
  - exists A, lh, body, B, (body ++ [kv_target key ++ value]), 1.
    assert (Hlen' : length (body ++ [kv_target key ++ value]) = length body + 1).
    { rewrite length_app. cbn. lia. }
    split_and!; try done.
    + by rewrite Hcut at 1.
    + rewrite Hre.
      * rewrite Hlen'. by replace (header_index e + 1 + (length body + 1))
                          with (end_index e + 1) by lia.
      * apply Forall_app. split; [done|]. constructor; [|done].
        apply field_line_not_header.
    + right. done.
Qed.

Lemma shift_entry_0 e : shift_entry 0 e = e.
Proof. destruct e. unfold shift_entry. cbn. by rewrite !Nat.add_0_r. Qed.

Lemma map_shift_entry_0 es : List.map (shift_entry 0) es = es.
Proof. induction es as [|e es IH]; cbn; [done|]. by rewrite shift_entry_0, IH. Qed.

(** A line [  - key: ...] is a field line for no other key. *)
Lemma field_of_target_other key key' r :
  recognized key -> key' <> key -> field_of_line key' (kv_target key ++ r) = None.
Proof.
  intros [Hne Hcls]%recognized_key_class Hkey'. unfold field_of_line.
  destruct (KV_RE (kv_target key ++ r)) as [[k v]|] eqn:Hkv; [|done].
  apply KV_RE_spec in Hkv as (tail & Heq & Hkne & Hkcls & _).
  unfold kv_target in Heq. rewrite <- !app_assoc in Heq. apply app_inv_head in Heq.
  assert (Hk : k = key).
  { assert (H1 : span_class key_class (key ++ lit ": " ++ r) = (key, lit ": " ++ r))
      by (by apply span_class_all).
    assert (H2 : span_class key_class (k ++ lit ": " ++ v ++ tail)
                 = (k, lit ": " ++ v ++ tail)) by (by apply span_class_all).
    rewrite Heq in H1. congruence. }
  subst k. destruct (str_eqb key key') eqn:E; [|done].
  apply str_eqb_eq in E. congruence.
Qed.

Lemma last_field_insert_silent key body kb l new init :
  body !! kb = Some l -> field_of_line key l = None -> field_of_line key new = None ->
  last_field key (<[kb := new]> body) init = last_field key body init.
Proof.
  revert kb init. induction body as [|x body IH]; intros kb init Hl Hnone Hnew; [done|].
  destruct kb as [|kb]; cbn in Hl.
  - injection Hl as ->. unfold last_field. cbn. by rewrite Hnone, Hnew.
  - unfold last_field in *. cbn. by apply IH.
Qed.

(** X4.  Updating a field of a parsed record leaves every other record of
    the document as it was: the records before it are the same, those
    after it keep their attributes and move down by the number of lines
    added (none or one), and the updated record keeps its header line,
    timestamp, title and every attribute other than the one written. *)
Theorem update_or_insert_kv_other_records
    (lines : list str) (e : Entry) (key value : str) :
  e ∈ parse_entries lines ->
  recognized key ->
  exists before after lines' e' d,
    parse_entries lines = before ++ e :: after
    /\ update_or_insert_kv lines e key value = Ok lines'
    /\ d <= 1 /\ length lines' = length lines + d
    /\ parse_entries lines' = before ++ e' :: List.map (shift_entry d) after
    /\ header_index e' = header_index e /\ end_index e' = end_index e + d
    /\ timestamp e' = timestamp e /\ title e' = title e
    /\ (forall key', recognized key' -> key' <> key ->
          entry_field key' e' = entry_field key' e).
Proof.
  intros He Hkey.
  destruct (update_reparse lines e key value He)
    as (A & lh & body & B & body' & d & Hcut & _ & HlenA & Hlen & Hparse & Heq
        & Hup & Hlen' & Hparse' & Hcases).
  exists (parse_entries A), (parse_rest B (end_index e)), (A ++ lh :: body' ++ B),
    (entry_with (header_index e) (end_index e + d) (timestamp e, title e) body'), d.
  split_and!; try done.
  - destruct Hcases as [[-> _] | [-> _]]; lia.
  - rewrite Hcut, !length_app. cbn [length]. rewrite !length_app. lia.
  - by rewrite Hparse', parse_rest_shift.
  - intros key' Hkey' Hne.
    assert (Hfe : entry_field key' e = last_field key' body None).
    { rewrite <- (entry_with_field key' (header_index e) (end_index e)
                    (timestamp e, title e) body) by done.
      by rewrite <- Heq. }
    rewrite Hfe, entry_with_field by done.
    destruct Hcases as [(_ & kb & l & Hl & Hs & _ & ->) | (_ & _ & ->)].
    + apply startswith_prefix in Hs as [r ->].
      apply (last_field_insert_silent key' body kb _ _ None Hl);
        by apply field_of_target_other.
    + rewrite last_field_app. unfold last_field at 1. cbn [fold_left].
      by rewrite field_of_target_other.
Qed.

(** X5.  Set, then get: when the value holds no newline and no field line
    for the key follows a line of the span that starts with the key
    prefix (so when the key is absent or written once), parsing the
    updated lines gives the record the value just written. *)
Theorem update_or_insert_kv_then_parse
    (lines : list str) (e : Entry) (key value : str) :
  e ∈ parse_entries lines ->
  recognized key ->
  LF ∉ value ->
  (forall i j li lj,
     header_index e < i -> i < j -> j < end_index e ->
     lines !! i = Some li -> startswith (kv_target key) li = true ->
     lines !! j = Some lj -> field_of_line key lj = None) ->
  exists lines' e',
    update_or_insert_kv lines e key value = Ok lines'
    /\ e' ∈ parse_entries lines'
    /\ header_index e' = header_index e
    /\ entry_field key e' = Some value.
Proof.
  intros He Hkey Hnl Honce.
  destruct (update_reparse lines e key value He)
    as (A & lh & body & B & body' & d & Hcut & Hbody & HlenA & Hlen & Hparse & Heq
        & Hup & Hlen' & Hparse' & Hcases).
  destruct (recognized_key_class key Hkey) as [Hne Hcls].
  assert (Hnew : field_of_line key (kv_target key ++ value) = Some value).
  { unfold field_of_line. rewrite (KV_RE_of_target key value Hne Hcls Hnl).
    by replace (str_eqb key key) with true by (symmetry; by apply str_eqb_eq). }
  exists (A ++ lh :: body' ++ B),
    (entry_with (header_index e) (end_index e + d) (timestamp e, title e) body').
  split_and!; try done.
  - rewrite Hparse'. apply elem_of_app. right. apply elem_of_cons. by left.
  - rewrite entry_with_field by done.
    destruct Hcases as [(_ & kb & l & Hl & Hs & _ & ->) | (_ & _ & ->)].
    + rewrite insert_take_drop by (by eapply lookup_lt_Some).
      rewrite last_field_app. unfold last_field at 1. cbn [fold_left]. rewrite Hnew.
      apply (last_field_skip key (drop (S kb) body)).
      apply Forall_lookup. intros k lj Hlj. rewrite lookup_drop in Hlj.
      apply lookup_lt_Some in Hlj as Hlt.
      assert (Hat : forall n x, body !! n = Some x ->
                lines !! (header_index e + 1 + n) = Some x).
      { intros n x Hx. rewrite Hbody in Hx. by apply slice_lookup_Some in Hx as [? _]. }
      apply (Honce (header_index e + 1 + kb) (header_index e + 1 + (S kb + k)) l lj);
        try lia; try (by apply Hat).
      done.
    + rewrite last_field_app. unfold last_field at 1. cbn [fold_left]. by rewrite Hnew.
Qed.

(** ** A span that runs past the end of the list *)

Lemma update_scan_Err lines target new i n err :
  update_scan lines target new i n = Err err <->
  err = IndexError /\ 0 < n /\ length lines < i + n
  /\ (forall k l, i <= k -> lines !! k = Some l -> startswith target l = false).
Proof.
  revert i. induction n as [|n IH]; intros i; cbn [update_scan].
  - split; [done | intros (_ & ? & _); lia].
  - destruct (lines !! i) as [l|] eqn:Hi.
    + apply lookup_lt_Some in Hi as Hlt.
      destruct (startswith target l) eqn:Hs.
      * split; [done|]. intros (_ & _ & _ & Hall). rewrite (Hall i l) in Hs; done.
      * rewrite IH. split; intros (-> & Hn & Hlen & Hall); split_and!; try done; try lia.
        -- intros k l' Hk Hl'. destruct (decide (k = i)) as [->|]; [congruence|].
           apply (Hall k); [lia | done].
        -- intros k l' Hk. apply Hall. lia.
    + apply lookup_ge_None in Hi. split.
      * intros [= <-]. split_and!; try done; try lia.
        intros k l Hk Hl. apply lookup_lt_Some in Hl. lia.
      * by intros (-> & _).
Qed.

(** X6.  The update raises only IndexError, and exactly when the span
    holds a line below the header, runs past the end of the list, and no
    line below the header starts with the key prefix.  With no line
    below the header in the span, it inserts at the end of the span, or
    at the end of the list when the span ends beyond it. *)
Theorem update_or_insert_kv_stale_span (lines : list str) (e : Entry) (key value : str) :
  (forall err,
     update_or_insert_kv lines e key value = Err err <->
     err = IndexError
     /\ header_index e + 1 < end_index e /\ length lines < end_index e
     /\ (forall k l, header_index e < k -> lines !! k = Some l ->
           startswith (kv_target key) l = false))
  /\ (end_index e <= header_index e + 1 ->
      update_or_insert_kv lines e key value
      = Ok (take (end_index e) lines ++ (kv_target key ++ value) :: drop (end_index e) lines))
  /\ (end_index e <= header_index e + 1 -> length lines <= end_index e ->
      update_or_insert_kv lines e key value = Ok (lines ++ [kv_target key ++ value])).
Proof.
  assert (Hempty : end_index e <= header_index e + 1 ->
            update_or_insert_kv lines e key value
            = Ok (take (end_index e) lines ++ (kv_target key ++ value)
                  :: drop (end_index e) lines)).
  { intros Hle. unfold update_or_insert_kv.
    by replace (end_index e - (header_index e + 1)) with 0 by lia. }
  split_and!.
  - intros err. unfold update_or_insert_kv.
    pose proof (update_scan_Err lines (kv_target key) (kv_target key ++ value)
                  (header_index e + 1) (end_index e - (header_index e + 1)) err) as Hscan.
    destruct (update_scan lines (kv_target key) (kv_target key ++ value)
                (header_index e + 1) (end_index e - (header_index e + 1)))
      as [[lines'|]|err'].
    + split; [done|]. intros (-> & Hn & Hlen & Hall).
      assert (H : @Ok (option (list str)) (Some lines') = Err IndexError); [|done].
      apply Hscan. split_and!; try done; try lia. intros k l Hk. apply Hall. lia.
    + split; [done|]. intros (-> & Hn & Hlen & Hall).
      assert (H : @Ok (option (list str)) None = Err IndexError); [|done].
      apply Hscan. split_and!; try done; try lia. intros k l Hk. apply Hall. lia.
    + split.
      * intros [= ->]. destruct Hscan as [Hscan _].
        destruct (Hscan eq_refl) as (-> & Hn & Hlen & Hall).
        split_and!; try done; try lia. intros k l Hk. apply Hall. lia.
      * intros (-> & Hn & Hlen & Hall). f_equal.
        destruct Hscan as [_ Hscan].
        assert (H : @Err (option (list str)) err' = Err IndexError); [|congruence].
        apply Hscan. split_and!; try done; try lia. intros k l Hk. apply Hall. lia.
  - exact Hempty.
  - intros Hle Hlen. rewrite Hempty by done.
    by rewrite take_ge, drop_ge by lia.
Qed.

(** ** Saving and loading *)

Lemma splitlines_from_one_line_upto n s cur :
  length s <= n -> one_line cur -> Forall one_line (splitlines_from cur s).
Proof.
  revert s cur. induction n as [|n IH]; intros s cur Hlen Hcur.
  - destruct s; [|cbn in Hlen; lia]. cbn [splitlines_from].
    destruct cur; [constructor|]. constructor; [|constructor]. by apply List.Forall_rev.
  - destruct s as [|c s]; cbn [splitlines_from].
    + destruct cur; [constructor|]. constructor; [|constructor]. by apply List.Forall_rev.
    + cbn [length] in Hlen.
      assert (Hrev : one_line (rev cur)) by (by apply List.Forall_rev).
      destruct (is_linebreak c) eqn:Hc.
      * destruct s as [|d s'].
        -- constructor; [done|]. cbn. constructor.
        -- cbn [length] in Hlen.
           destruct ((c =? CR)%N && (d =? LF)%N); constructor; try done;
             apply IH; try (cbn [length]; lia); constructor.
      * apply IH; [lia|]. by constructor.
Qed.

Lemma splitlines_one_line text : Forall one_line (splitlines text).
Proof. apply (splitlines_from_one_line_upto (length text)); [lia | constructor]. Qed.

Lemma newline_only_app a b : newline_only a -> newline_only b -> newline_only (a ++ b).
Proof. unfold newline_only. intros. by apply Forall_app. Qed.

Lemma one_line_newline_only l : one_line l -> newline_only l.
Proof.
  unfold one_line, newline_only. intros H. eapply Forall_impl; [exact H|].
  intros c Hc Hlb. congruence.
Qed.

Lemma join_lines_newline_only lines : Forall one_line lines -> newline_only (join_lines lines).
Proof.
  intros H. induction H as [|l lines Hl Hlines IH]; [constructor|].
  destruct lines as [|l2 lines]; [by apply one_line_newline_only|].
  rewrite join_lines_cons by done.
  apply newline_only_app; [by apply one_line_newline_only|].
  constructor; [done | exact IH].
Qed.

Lemma rstrip_newline_only s : newline_only s -> newline_only (rstrip s).
Proof.
  intros H. destruct (rstrip_by_split is_space s) as (ws & _ & Hs).
  unfold newline_only in *. rewrite Hs in H. by apply Forall_app in H as [H _].
Qed.

Lemma saved_text_newline_only lines : Forall one_line lines -> newline_only (saved_text lines).
Proof.
  intros H. unfold saved_text. apply newline_only_app.
  - by apply rstrip_newline_only, join_lines_newline_only.
  - by constructor.
Qed.

Lemma lstrip_by_idem f s : lstrip_by f (lstrip_by f s) = lstrip_by f s.
Proof.
  pose proof (lstrip_by_head f s) as H.
  destruct (lstrip_by f s) as [|c r]; [done|]. cbn [lstrip_by]. by rewrite H.
Qed.

Lemma rstrip_idem s : rstrip (rstrip s) = rstrip s.
Proof.
  unfold rstrip, rstrip_by. by rewrite rev_involutive, lstrip_by_idem.
Qed.

Lemma rstrip_saved s : rstrip (rstrip s ++ [LF]) = rstrip s.
Proof.
  unfold rstrip at 1. rewrite rstrip_by_app_r by apply is_space_LF. apply rstrip_idem.
Qed.

(** What is saved is written back unchanged by any later load and save. *)
Lemma saved_text_fixed text :
  let saved := saved_text (splitlines (universal_newlines text)) in
  saved_text (splitlines (universal_newlines saved)) = saved.
Proof.
  cbv zeta. rewrite saved_text_roundtrip
    by apply saved_text_newline_only, splitlines_one_line.
  unfold saved_text at 1 2. by rewrite rstrip_saved.
Qed.

Lemma well_formed_write fs p old text :
  Fs.well_formed fs -> fs !! p = Some (Fs.File old) ->
  Fs.well_formed (<[p := Fs.File text]> fs).
Proof.
  intros Hwf Hp q n Hq.
  assert (Hparent : forall r, (exists n', fs !! r = Some n') ->
            Fs.node_at (<[p := Fs.File text]> fs) (Fs.parent r)
            = Fs.node_at fs (Fs.parent r)).
  { intros r [n' Hr]. pose proof (Hwf _ _ Hr) as Hdir.
    unfold Fs.node_at in *. destruct (Fs.parent r) as [|c q'] eqn:Hq'; [done|].
    rewrite lookup_insert_ne; [done|]. intros Heq. subst p. congruence. }
  destruct (decide (q = p)) as [->|Hne].
  - rewrite Hparent by eauto. by apply (Hwf _ _ Hp).
  - rewrite lookup_insert_ne in Hq by done. rewrite Hparent by eauto.
    by apply (Hwf _ _ Hq).
Qed.

(** X7.  Loading, parsing and saving a document a second time changes
    nothing: after one round the document is a fixed point, whatever line
    boundaries and trailing whitespace it had at first. *)
Theorem reserialize_idempotent (fs : Fs.t) (p : Fs.path) (text : str) :
  Fs.well_formed fs -> p <> [] -> fs !! p = Some (Fs.File text) ->
  exists fs1,
    reserialize p fs = (Ok tt, fs1)
    /\ reserialize p fs1 = (Ok tt, fs1)
    /\ Fs.well_formed fs1.
Proof.
  intros Hwf Hp Hfile.
  set (saved := saved_text (splitlines (universal_newlines text))).
  assert (Hrun : forall fs0 t0, Fs.well_formed fs0 -> fs0 !! p = Some (Fs.File t0) ->
            reserialize p fs0
            = (Ok tt, <[p := Fs.File (saved_text (splitlines (universal_newlines t0)))]> fs0)).
  { intros fs0 t0 Hwf0 Hf0. unfold reserialize, bind.
    rewrite (load_lines_file _ _ _ Hp Hf0). by apply (save_lines_file _ _ t0). }
  exists (<[p := Fs.File saved]> fs). split_and!.
  - by apply Hrun.
  - rewrite (Hrun _ saved).
    + pose proof (saved_text_fixed text) as Hfix. cbv zeta in Hfix.
      unfold saved. rewrite Hfix. by rewrite insert_insert_eq.
    + by apply (well_formed_write _ _ text).
    + by rewrite lookup_insert_eq.
  - by apply (well_formed_write _ _ text).
Qed.




(** ** The slug *)

Lemma strip_by_ends f s : strip_by f s = [] \/ trimmed_of f (strip_by f s).
Proof.
  unfold strip_by, trimmed_of.
  pose proof (lstrip_by_head f s) as Hhead.
  destruct (rstrip_by_split f (lstrip_by f s)) as (ws & _ & Hsplit).
  unfold rstrip_by in *.
  pose proof (lstrip_by_head f (rev (lstrip_by f s))) as Hlast.
  destruct (lstrip_by f (rev (lstrip_by f s))) as [|d r']; [by left|]. right.
  cbn [rev] in *. split; [|by exists (rev r'), d].
  destruct (lstrip_by f s) as [|c r]; [by destruct (rev r')|].
  destruct (rev r' ++ [d]) as [|c' t] eqn:E; [by destruct (rev r')|].
  cbn [app] in Hsplit. injection Hsplit as <- _. by exists c, t.
Qed.

Lemma lstrip_by_keep f c t : f c = false -> lstrip_by f (c :: t) = c :: t.
Proof. intros H. cbn [lstrip_by]. by rewrite H. Qed.

Lemma strip_by_trimmed f s : trimmed_of f s -> strip_by f s = s.
Proof.
  intros [(c & t & -> & Hc) (t' & c' & Heq & Hc')].
  unfold strip_by. rewrite lstrip_by_keep by done. rewrite Heq.
  unfold rstrip_by. rewrite rev_app_distr. cbn [rev app].
  rewrite lstrip_by_keep by done. cbn [rev]. by rewrite rev_involutive.
Qed.

Lemma sub_runs_class cls b s :
  cls HYPHEN = true -> Forall (fun c => cls c = true) (sub_runs cls b s).
Proof.
  intros Hh. revert b. induction s as [|c s IH]; intros b; cbn [sub_runs]; [constructor|].
  destruct (cls c) eqn:Hc; [by constructor|].
  destruct b; [apply IH | by constructor].
Qed.

Lemma sub_runs_id cls b s : Forall (fun c => cls c = true) s -> sub_runs cls b s = s.
Proof.
  intros H. revert b. induction H as [|c s Hc _ IH]; intros b; cbn [sub_runs]; [done|].
  by rewrite Hc, IH.
Qed.

Lemma strip_by_Forall (P : char -> Prop) f s : Forall P s -> Forall P (strip_by f s).
Proof.
  intros H. unfold strip_by.
  destruct (lstrip_by_split f s) as (ws1 & _ & H1).
  destruct (rstrip_by_split f (lstrip_by f s)) as (ws2 & _ & H2).
  rewrite H1, H2 in H. apply Forall_app in H as [_ H]. by apply Forall_app in H as [H _].
Qed.

Lemma trimmed_of_lower s : trimmed_of is_hyphen s -> trimmed_of is_hyphen (lower s).
Proof.
  intros [(c & t & -> & Hc) (t' & c' & Heq & Hc')]. split.
  - exists (lower_char c), (lower t). split; [done|]. by rewrite is_hyphen_lower.
  - exists (lower t'), (lower_char c'). split; [|by rewrite is_hyphen_lower].
    rewrite Heq. unfold lower. by rewrite List.map_app.
Qed.

Lemma safe_slug_Ok value slug :
  safe_slug value = Ok slug ->
  slug = collapsed_slug value /\ slug <> []
  /\ Forall (fun c => slug_alphabet c = true) slug
  /\ trimmed_of is_hyphen slug.
Proof.
  rewrite safe_slug_collapsed. unfold collapsed_slug.
  destruct (strip_by_ends is_hyphen (sub_runs slug_class false value)) as [Hnil|Htrim].
  - unfold strip_hyphens. fold is_hyphen. by rewrite Hnil.
  - unfold strip_hyphens. fold is_hyphen.
    set (core := strip_by is_hyphen (sub_runs slug_class false value)) in *.
    assert (Hcls : Forall (fun c => slug_class c = true) core).
    { apply strip_by_Forall, sub_runs_class. done. }
    destruct (lower core) as [|c t] eqn:E; [done|]. intros [= <-].
    rewrite <- E. split_and!; try done.
    + by rewrite E.
    + unfold lower. apply Forall_forall. intros c' Hc'.
      apply list_elem_of_In, in_map_iff in Hc' as (c0 & <- & Hc0).
      rewrite slug_alphabet_lower. rewrite Forall_forall in Hcls.
      by apply Hcls, list_elem_of_In.
    + by apply trimmed_of_lower.
Qed.

(** X9.  A slug that [safe_slug] returns is not empty, consists of
    [[a-z0-9-]] only, and neither starts nor ends with a hyphen: it holds
    no path separator, no dot and no upper-case letter. *)
Theorem safe_slug_alphabet (value slug : str) :
  safe_slug value = Ok slug ->
  slug <> []
  /\ Forall (fun c => slug_alphabet c = true) slug
  /\ trimmed_of is_hyphen slug
  /\ (47%N ∉ slug) /\ (46%N ∉ slug) /\ (92%N ∉ slug)
  /\ Forall (fun c => is_upper c = false) slug.
Proof.
  intros (_ & Hne & Hcls & Htrim)%safe_slug_Ok.
  assert (Hnot : forall x, slug_alphabet x = false -> x ∉ slug).
  { intros x Hx Hin. rewrite Forall_forall in Hcls. specialize (Hcls _ Hin). congruence. }
  split_and!; try done; try (by apply Hnot).
  eapply Forall_impl; [exact Hcls|]. intros c Hc.
  destruct (is_upper c) eqn:Hu; [exfalso|done]. class_cases. bool_to_prop. lia.
Qed.

(** X10.  Normalizing a slug again gives the same slug. *)
Theorem safe_slug_idempotent (value slug : str) :
  safe_slug value = Ok slug -> safe_slug slug = Ok slug.
Proof.
  intros (_ & Hne & Hcls & Htrim)%safe_slug_Ok.
  rewrite safe_slug_collapsed. unfold collapsed_slug.
  rewrite sub_runs_id.
  - unfold strip_hyphens. fold is_hyphen. rewrite strip_by_trimmed by done.
    assert (Hlow : lower slug = slug).
    { unfold lower. rewrite <- (map_id slug) at 2. apply map_ext_Forall.
      eapply Forall_impl; [exact Hcls|]. intros c Hc. unfold lower_char.
      destruct (is_upper c) eqn:Hu; [exfalso|done]. class_cases. bool_to_prop. lia. }
    rewrite Hlow. by destruct slug.
  - eapply Forall_impl; [exact Hcls|]. intros c Hc.
    destruct (slug_class c) eqn:Hs; [done|exfalso]. class_cases. bool_to_prop. lia.
Qed.

(** ** Directories *)

Lemma os_mkdir_inr fs p fs' :
  Fs.os_mkdir fs p = inr fs' ->
  fs' = <[p := Fs.Dir]> fs /\ fs !! p = None /\ p <> []
  /\ Fs.node_at fs (Fs.parent p) = Some Fs.Dir.
Proof.
  unfold Fs.os_mkdir. destruct (Fs.node_at fs p) eqn:Hp; [done|].
  destruct (Fs.node_at fs (Fs.parent p)) as [[|]|] eqn:Hpar; try done.
  intros [= <-]. unfold Fs.node_at in Hp. destruct p; [done|]. done.
Qed.

Lemma parent_shorter (p : Fs.path) : p <> [] -> length (Fs.parent p) < length p.
Proof.
  intros Hp. destruct (exists_last Hp) as (q & c & ->).
  rewrite parent_snoc, length_app. cbn. lia.
Qed.

(** Adding an entry in an existing directory keeps the file system well
    formed. *)
Lemma well_formed_insert_new fs p n :
  Fs.well_formed fs -> fs !! p = None -> p <> [] ->
  Fs.node_at fs (Fs.parent p) = Some Fs.Dir ->
  Fs.well_formed (<[p := n]> fs).
Proof.
  intros Hwf Hnone Hp Hpar q m Hq.
  assert (Hkeep : forall r, Fs.node_at fs r = Some Fs.Dir ->
            Fs.node_at (<[p := n]> fs) r = Some Fs.Dir).
  { intros r Hr. unfold Fs.node_at in *. destruct r as [|c r']; [done|].
    rewrite lookup_insert_ne; [done|]. intros Heq. subst p. congruence. }
  destruct (decide (q = p)) as [->|Hne].
  - by apply Hkeep.
  - rewrite lookup_insert_ne in Hq by done. by apply Hkeep, (Hwf _ _ Hq).
Qed.

Lemma grown_refl fs p : grown fs fs p.
Proof.
  split_and!; [done| |done]. intros q Hq [n Hn]. congruence.
Qed.

Lemma grown_mkdir fs p :
  fs !! p = None -> p <> [] -> Fs.node_at fs (Fs.parent p) = Some Fs.Dir ->
  grown fs (<[p := Fs.Dir]> fs) p.
Proof.
  intros Hnone Hp Hpar. split_and!.
  - by apply insert_subseteq.
  - intros q Hq [n Hn]. destruct (decide (q = p)) as [->|Hne].
    + by rewrite lookup_insert_eq.
    + rewrite lookup_insert_ne in Hn by done. congruence.
  - intros Hwf. by apply well_formed_insert_new.
Qed.

Lemma grown_trans fs fs1 fs2 p q :
  p `prefix_of` q -> grown fs fs1 p -> grown fs1 fs2 q -> grown fs fs2 q.
Proof.
  intros Hpq (Hsub1 & Hnew1 & Hwf1) (Hsub2 & Hnew2 & Hwf2). split_and!.
  - by transitivity fs1.
  - intros r Hr Hr2. destruct (fs1 !! r) as [n|] eqn:Hr1.
    + destruct (Hnew1 r Hr ltac:(by eexists)) as [Hdir Hpre].
      split; [|by transitivity p].
      rewrite Hr1 in Hdir. injection Hdir as ->.
      by apply (lookup_weaken _ _ _ _ Hr1).
    + by apply Hnew2.
  - auto.
Qed.

Lemma is_dir_lookup fs (p : Fs.path) :
  p <> [] -> fs !! p = Some Fs.Dir -> Fs.is_dir fs p = true.
Proof. unfold Fs.is_dir, Fs.node_at. destruct p; [done|]. by intros _ ->. Qed.

Lemma mkdir_one_grown fs p fs1 :
  Fs.mkdir_one fs p = Ok fs1 -> grown fs fs1 p /\ Fs.is_dir fs1 p = true.
Proof.
  unfold Fs.mkdir_one. destruct (Fs.os_mkdir fs p) as [[| | |]|fs'] eqn:Hos; try done.
  - destruct (Fs.is_dir fs p) eqn:Hd; [|done]. intros [= <-]. split; [apply grown_refl | done].
  - destruct (Fs.is_dir fs p) eqn:Hd; [|done]. intros [= <-]. split; [apply grown_refl | done].
  - destruct (Fs.is_dir fs p) eqn:Hd; [|done]. intros [= <-]. split; [apply grown_refl | done].
  - intros [= <-]. apply os_mkdir_inr in Hos as (-> & Hnone & Hp & Hpar).
    split; [by apply grown_mkdir|]. apply is_dir_lookup; [done|]. apply lookup_insert_eq.
Qed.

Lemma mkdir_parents_rev_grown rp fs fs1 :
  Fs.mkdir_parents_rev fs rp = Ok fs1 ->
  grown fs fs1 (rev rp) /\ Fs.is_dir fs1 (rev rp) = true.
Proof.
  revert fs fs1. induction rp as [|c rparent IH]; intros fs fs1.
  - cbn. intros [= <-]. split; [apply grown_refl | done].
  - cbn [Fs.mkdir_parents_rev].
    destruct (Fs.os_mkdir fs (rev (c :: rparent))) as [[| | |]|fs'] eqn:Hos.
    + destruct (Fs.mkdir_parents_rev fs rparent) as [fs0|] eqn:Hpar; [|done].
      intros Hone. apply IH in Hpar as [Hg0 _].
      apply mkdir_one_grown in Hone as [Hg1 Hd]. split; [|done].
      apply (grown_trans fs fs0 fs1 (rev rparent)); [|done|done].
      cbn [rev]. by apply prefix_app_r.
    + destruct (Fs.is_dir fs (rev (c :: rparent))) eqn:Hd; [|done].
      intros [= <-]. split; [apply grown_refl | done].
    + destruct (Fs.is_dir fs (rev (c :: rparent))) eqn:Hd; [|done].
      intros [= <-]. split; [apply grown_refl | done].
    + destruct (Fs.is_dir fs (rev (c :: rparent))) eqn:Hd; [|done].
      intros [= <-]. split; [apply grown_refl | done].
    + intros [= <-]. apply os_mkdir_inr in Hos as (-> & Hnone & Hp & Hpar).
      split; [by apply grown_mkdir|]. apply is_dir_lookup; [done|]. apply lookup_insert_eq.
Qed.

Lemma mkdir_parents_grown fs p fs1 :
  Fs.mkdir_parents fs p = Ok fs1 -> grown fs fs1 p /\ Fs.is_dir fs1 p = true.
Proof.
  unfold Fs.mkdir_parents. intros H%mkdir_parents_rev_grown.
  by rewrite rev_involutive in H.
Qed.

Lemma node_at_lookup fs p : p <> [] -> Fs.node_at fs p = fs !! p.
Proof. by destruct p. Qed.




(** ** Promotion, step by step *)

Lemma write_text_Ok fs p text fs' :
  Fs.write_text fs p text = Ok fs' ->
  fs' = <[p := Fs.File text]> fs /\ Fs.node_at fs (Fs.parent p) = Some Fs.Dir
  /\ Fs.node_at fs p <> Some Fs.Dir.
Proof.
  unfold Fs.write_text.
  destruct (Fs.node_at fs p) as [[|]|], (Fs.node_at fs (Fs.parent p)) as [[|]|];
    try done; by intros [= <-].
Qed.

Lemma load_lines_Ok p fs lines fs' :
  load_lines p fs = (Ok lines, fs') ->
  fs' = fs /\ exists text, Fs.node_at fs p = Some (Fs.File text)
                           /\ lines = splitlines (universal_newlines text).
Proof.
  intros H. pose proof (load_lines_fs _ _ _ _ H) as ->. split; [done|].
  unfold load_lines, bind, path_exists, read_text, raise, ret in H.
  destruct (Fs.exists_ fs p); cbn in H; [|done].
  unfold Fs.read_text in H. destruct (Fs.node_at fs p) as [[text|]|]; try done.
  exists text. split; [done|]. congruence.
Qed.

Lemma entries_path_Ok source p :
  entries_path source = Ok p -> length p = 3 /\ p <> [].
Proof. unfold entries_path. repeat destruct (str_eqb _ _); by intros [= <-]. Qed.

Lemma skill_dir_Ok target slug dir :
  skill_dir target slug = Ok dir -> length dir = 3 /\ exists root, dir = root ++ [slug].
Proof.
  unfold skill_dir. repeat destruct (str_eqb _ _); try done; intros [= <-];
    (split; [done|]).
  - by exists [lit "cursor"; lit "skills"].
  - by exists [lit "cursor"; lit "skills-cursor"].
Qed.

(** Every way [cmd_promote] can end, with the file system it leaves. *)
Lemma cmd_promote_cases source fingerprint slug description target fs r fs' :
  cmd_promote source fingerprint slug description target fs = (r, fs') ->
  (fs' = fs /\ exists err, r = Err err)
  \/ exists p lines entry normalized_slug dir fs1,
       entries_path source = Ok p
       /\ load_lines p fs = (Ok lines, fs)
       /\ find_entry_by_fingerprint (parse_entries lines) fingerprint = Ok entry
       /\ promotable entry = true
       /\ safe_slug slug = Ok normalized_slug
       /\ skill_dir target normalized_slug = Ok dir
       /\ Fs.mkdir_parents fs dir = Ok fs1
       /\ ((fs' = fs1 /\ exists err, r = Err err)
           \/ (Fs.exists_ fs1 (dir ++ [lit "SKILL.md"]) = false
               /\ let fs2 := <[dir ++ [lit "SKILL.md"] :=
                                Fs.File (artifact_text normalized_slug description
                                           fingerprint entry)]> fs1 in
                  (fs' = fs2 /\ exists err, r = Err err)
                  \/ exists lines2,
                       r = Ok tt
                       /\ Fs.write_text fs2 p (saved_text lines2) = Ok fs')).
Proof.
  unfold cmd_promote, bind, lift, raise.
  destruct (entries_path source) as [p|e0] eqn:Hp; cbn match; [|intros [= <- <-]; eauto].
  destruct (load_lines p fs) as [[lines|e1] fl] eqn:Hload;
    pose proof (load_lines_fs _ _ _ _ Hload) as ->; cbn match;
    [|intros [= <- <-]; eauto].
  destruct (find_entry_by_fingerprint (parse_entries lines) fingerprint)
    as [entry|e2] eqn:Hfind; cbn match; [|intros [= <- <-]; eauto].
  destruct (promotable entry) eqn:Hprom; cbn [negb]; [|intros [= <- <-]; eauto].
  destruct (safe_slug slug) as [ns|e3] eqn:Hslug; cbn match; [|intros [= <- <-]; eauto].
  destruct (skill_dir target ns) as [dir|e4] eqn:Hdir; cbn match; [|intros [= <- <-]; eauto].
  unfold mkdir_parents.
  destruct (Fs.mkdir_parents fs dir) as [fs1|e5] eqn:Hmk; cbn match;
    [|intros [= <- <-]; eauto].
  intros Hrun. right. exists p, lines, entry, ns, dir, fs1. split_and!; try done.
  unfold path_exists in Hrun. cbn match in Hrun.
  destruct (Fs.exists_ fs1 (dir ++ [lit "SKILL.md"])) eqn:Hex; cbn match in Hrun.
  { injection Hrun as <- <-. left. eauto. }
  right. split; [done|]. cbv zeta.
  unfold create_skill_file, write_text in Hrun. fold (artifact_text ns description fingerprint entry) in Hrun.
  destruct (Fs.write_text fs1 (dir ++ [lit "SKILL.md"])
              (artifact_text ns description fingerprint entry)) as [fs2|e6] eqn:Hw.
  2:{ exfalso. apply mkdir_parents_grown in Hmk as [_ Hisdir].
      unfold Fs.write_text in Hw. rewrite parent_snoc in Hw.
      unfold Fs.exists_ in Hex. unfold Fs.is_dir in Hisdir.
      destruct (Fs.node_at fs1 (dir ++ [lit "SKILL.md"])); [done|].
      by destruct (Fs.node_at fs1 dir) as [[|]|]. }
  apply write_text_Ok in Hw as (-> & _ & _). cbn match in Hrun.
  destruct (load_lines p _) as [[lines'|e7] fl'] eqn:Hload' in Hrun;
    pose proof (load_lines_fs _ _ _ _ Hload') as ->; cbn match in Hrun;
    [|injection Hrun as <- <-; left; eauto].
  destruct (find_entry_by_fingerprint (parse_entries lines') fingerprint)
    as [entry'|e8]; cbn match in Hrun; [|injection Hrun as <- <-; left; eauto].
  destruct (update_or_insert_kv lines' entry' (lit "status") (lit "promoted"))
    as [lines1|e9]; cbn match in Hrun; [|injection Hrun as <- <-; left; eauto].
  destruct (update_or_insert_kv lines1 entry' (lit "reviewNote") _)
    as [lines2|e10]; cbn match in Hrun; [|injection Hrun as <- <-; left; eauto].
  unfold save_lines, write_text in Hrun.
  destruct (Fs.write_text _ p (saved_text lines2)) as [fs3|e11] eqn:Hsave in Hrun;
    injection Hrun as <- <-.
  - right. by exists lines2.
  - left. eauto.
Qed.

Lemma node_at_weaken (fs fs1 : Fs.t) p n :
  fs ⊆ fs1 -> Fs.node_at fs p = Some n -> Fs.node_at fs1 p = Some n.
Proof.
  intros Hsub. destruct p; [done|]. cbn. intros H. by eapply lookup_weaken.
Qed.


Lemma exists_false_lookup fs p : Fs.exists_ fs p = false -> fs !! p = None.
Proof.
  unfold Fs.exists_, Fs.node_at. destruct p; [done|]. by destruct (fs !! _).
Qed.






(** What a successful promotion leaves: the directories made, the artifact,
    the document written over a file that was there. *)
Lemma cmd_promote_Ok source fingerprint slug description target fs fs' :
  cmd_promote source fingerprint slug description target fs = (Ok tt, fs') ->
  exists p old lines2 entry normalized_slug dir fs1,
    entries_path source = Ok p
    /\ fs !! p = Some (Fs.File old)
    /\ safe_slug slug = Ok normalized_slug
    /\ skill_dir target normalized_slug = Ok dir
    /\ grown fs fs1 dir
    /\ Fs.node_at fs1 dir = Some Fs.Dir
    /\ fs1 !! (dir ++ [lit "SKILL.md"]) = None
    /\ fs' = <[p := Fs.File (saved_text lines2)]>
               (<[dir ++ [lit "SKILL.md"] :=
                   Fs.File (artifact_text normalized_slug description fingerprint entry)]>
                  fs1).
Proof.
  intros Hrun.
  destruct (cmd_promote_cases _ _ _ _ _ _ _ _ Hrun)
    as [[_ [err ?]] | (p & lines & entry & ns & dir & fs1 & Hp & Hload & _ & _ & Hslug
                       & Hdir & Hmk & Hrest)]; [done|].
  destruct Hrest as [[_ [err ?]] | [Hex Hrest]]; [done|]. cbv zeta in Hrest.
  destruct Hrest as [[_ [err ?]] | (lines2 & _ & Hsave)]; [done|].
  destruct (entries_path_Ok _ _ Hp) as [_ Hpne].
  apply load_lines_Ok in Hload as (_ & old & Hold & _).
  rewrite node_at_lookup in Hold by done.
  apply write_text_Ok in Hsave as (-> & _ & _).
  destruct (mkdir_parents_grown _ _ _ Hmk) as [Hgrown Hisdir].
  exists p, old, lines2, entry, ns, dir, fs1. split_and!; try done.
  - unfold Fs.is_dir in Hisdir. by destruct (Fs.node_at fs1 dir) as [[|]|].
  - by apply exists_false_lookup.
Qed.

(** X12.  After a promotion that succeeded on a well-formed file system,
    the file system is well formed again and the artifact is in place:
    every later promotion to the same target whose slug normalizes to the
    same name fails, whatever its document, fingerprint and description,
    and leaves the file system as it is. *)
Theorem cmd_promote_once
    (fs fs' : Fs.t) (source fingerprint slug description target : str) :
  Fs.well_formed fs ->
  cmd_promote source fingerprint slug description target fs = (Ok tt, fs') ->
  Fs.well_formed fs'
  /\ forall source2 fingerprint2 slug2 description2,
       safe_slug slug2 = safe_slug slug ->
       exists err,
         cmd_promote source2 fingerprint2 slug2 description2 target fs' = (Err err, fs').
Proof.
  intros Hwf Hrun.
  destruct (cmd_promote_Ok _ _ _ _ _ _ _ Hrun)
    as (p & old & lines2 & entry & ns & dir & fs1 & Hp & Hold & Hslug & Hdir
        & (Hsub & _ & Hwf1) & Hdirnode & Hnone & ->).
  destruct (entries_path_Ok _ _ Hp) as [Hlen Hpne].
  destruct (skill_dir_Ok _ _ _ Hdir) as [Hdlen _].
  set (artifact := dir ++ [lit "SKILL.md"]) in *.
  set (fs2 := <[artifact := _]> fs1).
  assert (Hne : artifact <> p).
  { intros Heq. apply (f_equal length) in Heq. unfold artifact in Heq.
    rewrite length_app in Heq. cbn in Heq. lia. }
  assert (Hwf2 : Fs.well_formed fs2).
  { apply well_formed_insert_new; [by apply Hwf1 | done | apply snoc_not_nil |].
    unfold artifact. by rewrite parent_snoc. }
  assert (Hfile2 : fs2 !! p = Some (Fs.File old)).
  { unfold fs2. rewrite lookup_insert_ne by done. by eapply lookup_weaken. }
  assert (Hwf' : Fs.well_formed (<[p := Fs.File (saved_text lines2)]> fs2)).
  { by eapply well_formed_write. }
  split; [done|].
  intros source2 fingerprint2 slug2 description2 Hsame.
  destruct (cmd_promote_existing_artifact _ source2 fingerprint2 slug2 description2 target
              ns dir Hwf') as (err & Herr & _).
  - by rewrite Hsame.
  - done.
  - fold artifact. unfold Fs.exists_. rewrite node_at_lookup by apply snoc_not_nil.
    rewrite lookup_insert_ne by (intros Heq; by apply Hne).
    unfold fs2. by rewrite lookup_insert_eq.
  - by exists err.
Qed.







(** ** Review, step by step *)





(** ** The dashboard *)

Lemma load_lines_missing fs p :
  p <> [] -> fs !! p = None -> load_lines p fs = (Err MissingFile, fs).
Proof.
  intros Hp Hnone. unfold load_lines, bind, path_exists, raise, Fs.exists_.
  by rewrite node_at_lookup, Hnone.
Qed.

Lemma load_lines_dir fs p :
  p <> [] -> fs !! p = Some Fs.Dir -> load_lines p fs = (Err OSError, fs).
Proof.
  intros Hp Hdir. unfold load_lines, bind, path_exists, read_text, raise, Fs.exists_.
  rewrite node_at_lookup, Hdir by done. cbn. unfold Fs.read_text.
  by rewrite node_at_lookup, Hdir.
Qed.

(** X17.  Neither dashboard writes: both return the file system they were
    given.  They fail together and with the same error; the error is
    MissingFile exactly when the manual document is not there, or it is a
    file and the generated one is not there; they succeed exactly when
    both documents are files. *)
Theorem dashboard_read_only (fs : Fs.t) (limit : Z) :
  snd (build_dashboard limit fs) = fs
  /\ snd (cmd_dashboard limit fs) = fs
  /\ (forall err, fst (build_dashboard limit fs) = Err err
                  <-> fst (cmd_dashboard limit fs) = Err err)
  /\ (fst (build_dashboard limit fs) = Err MissingFile
      <-> fs !! manual_path = None
          \/ ((exists text, fs !! manual_path = Some (Fs.File text))
              /\ fs !! generated_path = None))
  /\ ((exists d, fst (build_dashboard limit fs) = Ok d)
      <-> exists manual generated,
            fs !! manual_path = Some (Fs.File manual)
            /\ fs !! generated_path = Some (Fs.File generated)).
Proof.
  unfold build_dashboard, cmd_dashboard, bind, lift, ret.
  change (entries_path (lit "manual")) with (Ok manual_path).
  change (entries_path (lit "generated")) with (Ok generated_path).
  cbn match.
  assert (Hm : manual_path <> []) by done.
  assert (Hg : generated_path <> []) by done.
  destruct (fs !! manual_path) as [[tm|]|] eqn:Em.
  - rewrite (load_lines_file fs manual_path tm Hm Em). cbn match.
    destruct (fs !! generated_path) as [[tg|]|] eqn:Eg.
    + rewrite (load_lines_file fs generated_path tg Hg Eg). cbn.
      split_and!; [done | done | intros err; split; congruence | ..].
      * split; [done|]. intros [?|[_ ?]]; done.
      * split; [|eauto]. intros _. by exists tm, tg.
    + rewrite (load_lines_dir fs generated_path Hg Eg). cbn.
      split_and!; [done | done | intros err; split; congruence | ..].
      * split; [done|]. intros [?|[_ ?]]; done.
      * split; [by intros [? ?] | by intros (? & ? & ? & ?)].
    + rewrite (load_lines_missing fs generated_path Hg Eg). cbn.
      split_and!; [done | done | intros err; split; congruence | ..].
      * split; [|done]. intros _. right. split; [by exists tm | done].
      * split; [by intros [? ?] | by intros (? & ? & ? & ?)].
  - rewrite (load_lines_dir fs manual_path Hm Em). cbn.
    split_and!; [done | done | intros err; split; congruence | ..].
    + split; [done|]. intros [?|[[? ?] _]]; done.
    + split; [by intros [? ?] | by intros (? & ? & ? & ?)].
  - rewrite (load_lines_missing fs manual_path Hm Em). cbn.
    split_and!; [done | done | intros err; split; congruence | ..].
    + split; [|done]. intros _. by left.
    + split; [by intros [? ?] | by intros (? & ? & ? & ?)].
Qed.

Lemma take_prefix {A} n (l : list A) : take n l `prefix_of` l.
Proof. exists (drop n l). by rewrite take_drop. Qed.

(** X18.  The pending listing of the dashboard is an initial segment of
    the pending records, in their order: the first [limit] of them for a
    limit that is not negative (all of them when there are fewer), and
    all but the last [-limit] for a negative one; the full listing has
    one item per record of the two documents, that is one per header
    line, and the four counts never exceed it. *)
Theorem dashboard_listing (lm lg : list str) (limit : Z) :
  let all := all_entries (parse_entries lm) (parse_entries lg) in
  let d := dashboard_of all limit in
  d_pending d `prefix_of` List.map serialize_one (bucket (lit "pending") all)
  /\ ((0 <= limit)%Z ->
      length (d_pending d) = Nat.min (Z.to_nat limit) (c_pending (d_counts d)))
  /\ ((limit < 0)%Z ->
      length (d_pending d) = c_pending (d_counts d) - Z.to_nat (- limit))
  /\ length (d_all d)
     = length (List.filter is_header lm) + length (List.filter is_header lg)
  /\ c_pending (d_counts d) + c_approved (d_counts d)
     + c_rejected (d_counts d) + c_promoted (d_counts d) <= length (d_all d).
Proof.
  intros all d. subst d. cbn [d_pending d_all d_counts dashboard_of c_pending c_approved
                               c_rejected c_promoted]. unfold serialize.
  split_and!.
  - unfold slice_to. destruct (0 <=? limit)%Z.
    + rewrite <- (take_drop (Z.to_nat limit) (bucket (lit "pending") all)) at 2.
      rewrite List.map_app. by apply prefix_app_r.
    + set (n := length (bucket (lit "pending") all) - Z.to_nat (- limit)).
      rewrite <- (take_drop n (bucket (lit "pending") all)) at 2.
      rewrite List.map_app. by apply prefix_app_r.
  - intros Hlimit. rewrite slice_to_nonneg by done.
    by rewrite length_map, length_take.
  - intros Hlimit. rewrite slice_to_negative by done.
    rewrite length_map, length_take. lia.
  - rewrite length_map. unfold all, all_entries.
    rewrite length_app, !length_map.
    by rewrite !parse_entries_rest, !parse_rest_length.
  - rewrite bucket_counts_sum, length_map. apply List.filter_length_le.
Qed.

(** ** Front matter *)

Lemma until_fence_unfold s :
  until_fence s
  = match after_literal fence s with
    | Some _ => Some []
    | None =>
        match s with
        | [] => None
        | c :: s' =>
            match until_fence s' with
            | Some block => Some (c :: block)
            | None => None
            end
        end
    end.
Proof. by destruct s. Qed.

Lemma fence_not_nil block tail : block ++ fence ++ tail <> [].
Proof. by destruct block. Qed.

Lemma cons_eq_app {A} (c c' : A) s b r :
  c :: s = (c' :: b) ++ r -> c = c' /\ s = b ++ r.
Proof. cbn [app]. by intros [= -> ->]. Qed.

Lemma until_fence_spec s block :
  until_fence s = Some block <->
  (exists tail, s = block ++ fence ++ tail)
  /\ forall block' tail', s = block' ++ fence ++ tail' -> length block <= length block'.
Proof.
  revert block. induction s as [|c s IH]; intros block.
  - rewrite until_fence_unfold. cbn. split; [done|].
    intros [[tail Heq] _]. symmetry in Heq. by apply fence_not_nil in Heq.
  - rewrite until_fence_unfold.
    destruct (after_literal fence (c :: s)) as [t|] eqn:Hf.
    + apply after_literal_Some in Hf. split.
      * intros [= <-]. split; [by exists t|]. intros; cbn; lia.
      * intros [_ Hmin]. specialize (Hmin [] t Hf).
        destruct block; [done | cbn in Hmin; lia].
    + assert (Hno : forall t, c :: s <> fence ++ t).
      { intros t Heq. apply after_literal_Some in Heq. congruence. }
      destruct (until_fence s) as [b|].
      * destruct (proj1 (IH b) eq_refl) as [[tail Htail] Hmin]. split.
        -- intros [= <-]. split.
           { exists tail. cbn [app]. by rewrite Htail. }
           intros [|c' b'] tail' Heq; [by destruct (Hno tail')|].
           apply cons_eq_app in Heq as [_ Heq]. cbn [length].
           specialize (Hmin _ _ Heq). lia.
        -- intros [[tail' Heq] Hmin'].
           destruct block as [|c' b']; [by destruct (Hno tail')|].
           apply cons_eq_app in Heq as [<- Heq]. do 2 f_equal.
           assert (Hb' : Some b = Some b'); [|congruence].
           apply IH. split; [by exists tail'|]. intros b'' t'' Heq''.
           specialize (Hmin' (c :: b'') t''). cbn [app length] in Hmin'.
           rewrite <- Heq'' in Hmin'. specialize (Hmin' eq_refl). lia.
      * split; [done|]. intros [[tail Heq] Hmin].
        destruct block as [|c' b']; [by destruct (Hno tail)|].
        apply cons_eq_app in Heq as [<- Heq].
        assert (Hb' : None = Some b'); [|congruence].
        apply IH. split; [by exists tail|]. intros b'' t'' Heq''.
        specialize (Hmin (c :: b'') t''). cbn [app length] in Hmin.
        rewrite <- Heq'' in Hmin. specialize (Hmin eq_refl). lia.
Qed.

(** X19.  The front matter of a text is found exactly when the text
    starts with a line of three hyphens and holds a closing fence after
    it; the block is then the text between that line and the first
    closing fence, the shortest one. *)
Theorem FRONTMATTER_RE_shortest (text block : str) :
  FRONTMATTER_RE text = Some block <->
  (exists tail, text = lit "---" ++ [LF] ++ block ++ fence ++ tail)
  /\ forall block' tail',
       text = lit "---" ++ [LF] ++ block' ++ fence ++ tail' -> length block <= length block'.
Proof.
  assert (Hopen_eq : forall r, lit "---" ++ [LF] ++ r = (lit "---" ++ [LF]) ++ r).
  { intros r. by rewrite <- app_assoc. }
  setoid_rewrite Hopen_eq. unfold FRONTMATTER_RE.
  destruct (after_literal (lit "---" ++ [LF]) text) as [rest|] eqn:Hopen.
  - apply after_literal_Some in Hopen. subst text. rewrite until_fence_spec. split.
    + intros [[tail ->] Hmin]. split; [by exists tail|].
      intros block' tail' Heq. apply app_inv_head in Heq. by apply (Hmin block' tail').
    + intros [[tail Heq] Hmin]. apply app_inv_head in Heq. split; [by exists tail|].
      intros block' tail' Heq'. apply (Hmin block' tail'). by rewrite Heq'.
  - split; [done|]. intros [[tail Heq] _]. exfalso.
    assert (Hsome : after_literal (lit "---" ++ [LF]) text = Some (block ++ fence ++ tail)).
    { by apply after_literal_Some. }
    congruence.
Qed.

Lemma search_field_unfold key at_line_start block :
  search_field key at_line_start block
  = match (if at_line_start then
             match after_literal key block with
             | Some rest => field_value rest
             | None => None
             end
           else None) with
    | Some group => Some group
    | None =>
        match block with
        | [] => None
        | c :: block' => search_field key (c =? LF)%N block'
        end
    end.
Proof. by destruct block. Qed.

Lemma group_from_unfold rest k :
  group_from rest k
  = match drop k rest with
    | [] => match k with 0 => None | S k' => group_from rest k' end
    | c :: _ =>
        if (c =? LF)%N then match k with 0 => None | S k' => group_from rest k' end
        else Some (line_head (drop k rest))
    end.
Proof. by destruct k. Qed.

Lemma line_head_app a s : Forall (fun c => c <> LF) a -> line_head (a ++ LF :: s) = a.
Proof.
  intros H. induction H as [|c a Hc _ IH]; cbn [app line_head].
  - by rewrite N.eqb_refl.
  - destruct (N.eqb_spec c LF); [done|]. by rewrite IH.
Qed.

Lemma line_head_all a : Forall (fun c => c <> LF) a -> line_head a = a.
Proof.
  intros H. induction H as [|c a Hc _ IH]; cbn [line_head]; [done|].
  destruct (N.eqb_spec c LF); [done|]. by rewrite IH.
Qed.

Lemma line_head_no_LF s : Forall (fun c => c <> LF) (line_head s).
Proof.
  induction s as [|c s IH]; cbn [line_head]; [done|].
  destruct (N.eqb_spec c LF); [done|]. by constructor.
Qed.

Lemma not_space_not_LF c : is_space c = false -> c <> LF.
Proof. by intros H ->. Qed.

(** The group of a field is never empty and holds no newline. *)
Lemma line_head_group c t group :
  c <> LF -> Some (line_head (c :: t)) = Some group ->
  group <> [] /\ Forall (fun c => c <> LF) group.
Proof.
  intros Hc Heq. assert (group = line_head (c :: t)) as -> by congruence.
  split; [|apply line_head_no_LF]. cbn [line_head]. by destruct (N.eqb_spec c LF).
Qed.

Lemma group_from_Some rest k group :
  group_from rest k = Some group -> group <> [] /\ Forall (fun c => c <> LF) group.
Proof.
  induction k as [|k IH]; rewrite group_from_unfold.
  - destruct (drop 0 rest) as [|c t]; [done|].
    destruct (N.eqb_spec c LF) as [|Hc]; [done|]. by apply line_head_group.
  - destruct (drop (S k) rest) as [|c t]; [done|].
    destruct (N.eqb_spec c LF) as [|Hc]; [done|]. by apply line_head_group.
Qed.

Lemma span_class_rest f s a b :
  span_class f s = (a, b) -> match b with [] => True | c :: _ => f c = false end.
Proof.
  revert a b. induction s as [|c s IH]; intros a b; cbn [span_class].
  - by intros [= <- <-].
  - destruct (f c) eqn:Hc.
    + destruct (span_class f s) as [a' b']. intros [= <- <-]. by apply (IH a').
    + by intros [= <- <-].
Qed.

Lemma search_field_Some key at_line_start block group :
  search_field key at_line_start block = Some group ->
  group <> [] /\ Forall (fun c => c <> LF) group.
Proof.
  revert at_line_start. induction block as [|c block IH]; intros at_line_start;
    rewrite search_field_unfold.
  - destruct at_line_start; [|done].
    destruct (after_literal key []) as [rest|]; [|done].
    destruct (field_value rest) as [g|] eqn:Hg; [|done].
    intros [= <-]. by apply group_from_Some in Hg.
  - destruct at_line_start; [|by apply IH].
    destruct (after_literal key (c :: block)) as [rest|]; [|by apply IH].
    destruct (field_value rest) as [g|] eqn:Hg; [|by apply IH].
    intros [= <-]. by apply group_from_Some in Hg.
Qed.

(** A key at the start of the block: its value is the first text that is
    not white space, to the end of its line, wherever that line is. *)
Lemma search_field_at_key key ws line tail :
  Forall (fun c => is_space c = true) ws ->
  (exists c t, line = c :: t /\ is_space c = false) ->
  Forall (fun c => c <> LF) line ->
  tail = [] \/ (exists t, tail = LF :: t) ->
  search_field key true (key ++ ws ++ line ++ tail) = Some line.
Proof.
  intros Hws (c & t & -> & Hc) Hline Htail. rewrite search_field_unfold.
  rewrite (proj2 (after_literal_Some key _ (ws ++ (c :: t) ++ tail)) eq_refl).
  unfold field_value. rewrite (span_class_all is_space ws ((c :: t) ++ tail) Hws Hc).
  cbn [fst]. rewrite group_from_unfold, drop_app_length.
  assert (Hhead : line_head ((c :: t) ++ tail) = c :: t).
  { destruct Htail as [-> | [t' ->]].
    - rewrite app_nil_r. by apply line_head_all.
    - by apply line_head_app. }
  rewrite Hhead. cbn [app].
  by destruct (N.eqb_spec c LF) as [->|_].
Qed.

Lemma search_field_skip key a s :
  Forall (fun c => c <> LF) a ->
  search_field key false (a ++ LF :: s) = search_field key true s.
Proof.
  intros H. induction H as [|c a Hc _ IH]; cbn [app]; rewrite search_field_unfold.
  - by rewrite N.eqb_refl.
  - destruct (N.eqb_spec c LF); [done|]. done.
Qed.

Lemma strip_idem s : strip (strip s) = strip s.
Proof.
  unfold strip. destruct (strip_by_ends is_space s) as [-> | H]; [done|].
  by apply strip_by_trimmed.
Qed.

(** A rest of line that is not empty always gives a group, and the
    group trims to what the rest trims to. *)
Lemma field_value_line rest :
  rest <> [] -> Forall (fun c => c <> LF) rest ->
  exists group, field_value rest = Some group /\ strip group = strip rest.
Proof.
  intros Hne Hline. unfold field_value.
  destruct (span_class is_space rest) as [ws r] eqn:Hspan.
  pose proof (span_class_app _ _ _ _ Hspan) as Heq.
  pose proof (span_class_Forall _ _ _ _ Hspan) as Hws.
  pose proof (span_class_rest _ _ _ _ Hspan) as Hc. cbn [fst].
  destruct r as [|c r].
  - rewrite app_nil_r in Heq. subst ws.
    destruct (exists_last Hne) as (front_ & d & ->).
    rewrite group_from_unfold, drop_all.
    rewrite length_app. cbn [length]. rewrite Nat.add_1_r.
    rewrite group_from_unfold, drop_app_length.
    apply Forall_app in Hline as [_ Hd]. apply Forall_app in Hws as [Hfront Hds].
    inversion Hd as [|? ? HdLF _]; subst. inversion Hds as [|? ? Hdsp _]; subst.
    destruct (N.eqb_spec d LF); [done|]. exists [d]. split.
    + cbn [line_head]. by destruct (N.eqb_spec d LF).
    + unfold strip. rewrite (strip_by_app_l is_space front_ [d] Hfront). done.
  - subst rest. rewrite group_from_unfold, drop_app_length.
    apply Forall_app in Hline as [_ Hr].
    inversion Hr as [|? ? HcLF _]; subst.
    destruct (N.eqb_spec c LF); [done|]. exists (c :: r). split.
    + by rewrite (line_head_all (c :: r)).
    + unfold strip. by rewrite (strip_by_app_l is_space ws (c :: r) Hws).
Qed.

Lemma until_fence_skip a s :
  Forall (fun c => c <> LF) a ->
  until_fence (a ++ s)
  = match until_fence s with Some block => Some (a ++ block) | None => None end.
Proof.
  intros H. induction H as [|c a Hc _ IH]; cbn [app].
  - by destruct (until_fence s).
  - rewrite until_fence_unfold, IH.
    assert (Hno : after_literal fence (c :: a ++ s) = None).
    { unfold fence. cbn [after_literal]. by destruct (N.eqb_spec LF c). }
    rewrite Hno. by destruct (until_fence s).
Qed.

Lemma until_fence_found x tail : exists block, until_fence (x ++ fence ++ tail) = Some block.
Proof.
  induction x as [|c x [block IH]]; cbn [app]; rewrite until_fence_unfold.
  - exists []. by rewrite (proj2 (after_literal_Some fence _ tail) eq_refl).
  - destruct (after_literal fence (c :: x ++ fence ++ tail)); [by exists []|].
    rewrite IH. by exists (c :: block).
Qed.

Lemma until_fence_here tail : until_fence (fence ++ tail) = Some [].
Proof.
  rewrite until_fence_unfold.
  by rewrite (proj2 (after_literal_Some fence _ tail) eq_refl).
Qed.

(** A newline that is not followed by a hyphen is not a fence. *)
Lemma until_fence_newline c s :
  c <> HYPHEN ->
  until_fence (LF :: c :: s)
  = match until_fence (c :: s) with Some block => Some (LF :: block) | None => None end.
Proof.
  intros Hc. rewrite until_fence_unfold.
  assert (Hno : after_literal fence (LF :: c :: s) = None).
  { unfold fence. change (lit "---") with (HYPHEN :: lit "--").
    cbn [after_literal app]. rewrite N.eqb_refl. by destruct (N.eqb_spec HYPHEN c). }
  by rewrite Hno.
Qed.

Lemma until_fence_line line s :
  (exists c t, line = c :: t /\ c <> HYPHEN) -> Forall (fun c => c <> LF) line ->
  until_fence (LF :: line ++ s)
  = match until_fence s with Some block => Some (LF :: line ++ block) | None => None end.
Proof.
  intros (c & t & -> & Hc) Hline. cbn [app]. rewrite until_fence_newline by done.
  pose proof (until_fence_skip (c :: t) s Hline) as Hskip. cbn [app] in Hskip.
  rewrite Hskip. by destruct (until_fence s).
Qed.

Lemma universal_newlines_plain p s :
  Forall (fun c => c <> CR) p -> universal_newlines (p ++ s) = p ++ universal_newlines s.
Proof.
  intros H. induction H as [|c p Hc _ IH]; cbn [app universal_newlines]; [done|].
  destruct (N.eqb_spec c CR); [done|]. by rewrite IH.
Qed.

Lemma fence_plain : Forall (fun c => c <> CR) fence.
Proof. unfold fence. repeat constructor; done. Qed.

Lemma fence_rest_plain : Forall (fun c => c <> CR) (lit "---" ++ [LF]).
Proof. repeat constructor; done. Qed.

(** Newline translation keeps a fence a fence. *)
Lemma universal_newlines_fence_upto n x tail :
  length x <= n ->
  exists x', universal_newlines (x ++ fence ++ tail) = x' ++ fence ++ universal_newlines tail.
Proof.
  revert x. induction n as [|n IH]; intros x Hn.
  - destruct x; [|cbn in Hn; lia]. exists []. cbn [app].
    by rewrite (universal_newlines_plain fence tail fence_plain).
  - destruct x as [|c x].
    { exists []. cbn [app]. by rewrite (universal_newlines_plain fence tail fence_plain). }
    cbn [length] in Hn. cbn [app universal_newlines].
    destruct (N.eqb_spec c CR) as [->|Hc].
    + destruct x as [|d x].
      * exists []. cbn [app]. unfold fence at 1. cbn [app]. rewrite N.eqb_refl.
        by rewrite (universal_newlines_plain (lit "---" ++ [LF]) tail fence_rest_plain).
      * cbn [app]. destruct (N.eqb_spec d LF) as [->|Hd].
        -- destruct (IH x) as [x' ->]; [cbn in Hn; lia|]. by exists (LF :: x').
        -- destruct (IH (d :: x)) as [x' Hx']; [cbn in Hn |- *; lia|].
           cbn [app] in Hx'. rewrite Hx'. by exists (LF :: x').
    + destruct (IH x) as [x' ->]; [lia|]. by exists (c :: x').
Qed.

Lemma universal_newlines_fence x tail :
  exists x', universal_newlines (x ++ fence ++ tail) = x' ++ fence ++ universal_newlines tail.
Proof. by apply (universal_newlines_fence_upto (length x)). Qed.

Lemma slug_alphabet_plain c :
  slug_alphabet c = true -> is_space c = false /\ c <> LF /\ c <> CR.
Proof.
  intros Hc.
  assert (Hsp : is_space c = false).
  { destruct (is_space c) eqn:Hs; [|done]. apply space_not_slug_class in Hs.
    unfold slug_alphabet, is_hyphen in Hc. unfold slug_class in Hs.
    destruct (is_lower c), (is_upper c), (is_digit c), (c =? HYPHEN)%N; done. }
  split; [done|]. split; intros ->; done.
Qed.

Lemma Forall_trimmed_of f s :
  s <> [] -> Forall (fun c => f c = false) s -> trimmed_of f s.
Proof.
  intros Hne H. split.
  - destruct s as [|c t]; [done|]. inversion H; subst. by exists c, t.
  - destruct (exists_last Hne) as (t & c & ->).
    apply Forall_app in H as [_ H]. inversion H; subst. by exists t, c.
Qed.

(** The text of [create_skill_file]: the opening line, the name line,
    the description line, the fence, and the rest. *)
Lemma skill_body_shape slug description title details fp :
  exists tail,
    skill_body slug description title details fp
    = (lit "---" ++ [LF]) ++ (lit "name: " ++ slug) ++ LF
        :: (lit "description: " ++ description) ++ fence ++ tail.
Proof.
  unfold skill_body. do 4 rewrite join_lines_cons by done.
  eexists. unfold fence. rewrite <- !app_assoc. cbn [app]. rewrite <- !app_assoc.
  cbn [app]. reflexivity.
Qed.

Lemma front_name_of slug d x tail :
  slug <> [] -> Forall (fun c => slug_alphabet c = true) slug -> d <> HYPHEN ->
  f_name (parse_skill_frontmatter
            ((lit "---" ++ [LF]) ++ (lit "name: " ++ slug) ++ LF :: d :: x ++ fence ++ tail))
  = slug.
Proof.
  intros Hne Hslug Hd.
  assert (Hplain : Forall (fun c => c <> LF) slug).
  { eapply Forall_impl; [exact Hslug|]. intros c Hc. by apply slug_alphabet_plain in Hc as (? & ? & ?). }
  assert (Hnosp : Forall (fun c => is_space c = false) slug).
  { eapply Forall_impl; [exact Hslug|]. intros c Hc. by apply slug_alphabet_plain in Hc as (? & ? & ?). }
  unfold parse_skill_frontmatter, FRONTMATTER_RE.
  rewrite (proj2 (after_literal_Some (lit "---" ++ [LF]) _ _) eq_refl).
  rewrite until_fence_skip.
  2:{ apply Forall_app. split; [repeat constructor; done | done]. }
  rewrite until_fence_newline by done.
  destruct (until_fence_found (d :: x) tail) as [block Hblock].
  cbn [app] in Hblock. rewrite Hblock. cbn [f_name].
  unfold NAME_RE.
  change (lit "name: ") with (lit "name:" ++ [32%N]). rewrite <- !app_assoc.
  rewrite (search_field_at_key (lit "name:") [32%N] slug (LF :: block)).
  - unfold strip. apply strip_by_trimmed. by apply Forall_trimmed_of.
  - by repeat constructor.
  - destruct slug as [|c t]; [done|]. inversion Hnosp; subst. by exists c, t.
  - done.
  - right. by exists block.
Qed.

Lemma front_description_of slug description tail :
  Forall (fun c => c <> LF) slug -> Forall (fun c => c <> LF) description ->
  f_description
    (parse_skill_frontmatter
       ((lit "---" ++ [LF]) ++ (lit "name: " ++ slug) ++ LF
          :: (lit "description: " ++ description) ++ fence ++ tail))
  = strip description.
Proof.
  intros Hslug Hdesc.
  assert (Hname : Forall (fun c => c <> LF) (lit "name: " ++ slug)).
  { apply Forall_app. split; [repeat constructor; done | done]. }
  assert (Hline : Forall (fun c => c <> LF) (lit "description: " ++ description)).
  { apply Forall_app. split; [repeat constructor; done | done]. }
  unfold parse_skill_frontmatter, FRONTMATTER_RE.
  rewrite (proj2 (after_literal_Some (lit "---" ++ [LF]) _ _) eq_refl).
  rewrite until_fence_skip by done.
  assert (Hblock : until_fence (LF :: (lit "description: " ++ description) ++ fence ++ tail)
                   = Some (LF :: lit "description: " ++ description)).
  { rewrite until_fence_line, until_fence_here; [by rewrite app_nil_r | | done].
    by exists 100%N, (lit "escription: " ++ description). }
  rewrite Hblock. cbn [f_description]. unfold DESCRIPTION_RE.
  rewrite search_field_unfold.
  assert (Hno : after_literal (lit "description:")
                  ((lit "name: " ++ slug) ++ LF :: lit "description: " ++ description) = None).
  { reflexivity. }
  rewrite Hno.
  change (lit "name: ") with (110%N :: lit "ame: "). cbn [app].
  change (110 =? LF)%N with false.
  rewrite (search_field_skip _ (lit "ame: " ++ slug)).
  2:{ apply Forall_app. split; [repeat constructor; done | done]. }
  rewrite search_field_unfold.
  change (lit "description: ") with (lit "description:" ++ [32%N]). rewrite <- app_assoc.
  rewrite (proj2 (after_literal_Some (lit "description:") _ _) eq_refl).
  destruct (field_value_line ([32%N] ++ description)) as (group & -> & Hgroup).
  - done.
  - by constructor.
  - rewrite Hgroup. unfold strip. by apply strip_by_cons.
Qed.

Lemma skill_body_front_name slug description title details fp :
  slug <> [] -> Forall (fun c => slug_alphabet c = true) slug ->
  f_name (parse_skill_frontmatter
            (universal_newlines (skill_body slug description title details fp)))
  = slug.
Proof.
  intros Hne Hslug.
  destruct (skill_body_shape slug description title details fp) as [tail ->].
  assert (Hhead' : Forall (fun c => c <> CR)
                     (((lit "---" ++ [LF]) ++ lit "name: " ++ slug) ++ [LF; 100%N])).
  { apply Forall_app. split; [|repeat constructor; done].
    apply Forall_app. split; [repeat constructor; done|].
    apply Forall_app. split; [repeat constructor; done|].
    eapply Forall_impl; [exact Hslug|].
    intros c Hc. by apply slug_alphabet_plain in Hc as (? & ? & ?). }
  replace ((lit "---" ++ [LF]) ++ (lit "name: " ++ slug) ++ LF
             :: (lit "description: " ++ description) ++ fence ++ tail)
    with ((((lit "---" ++ [LF]) ++ lit "name: " ++ slug) ++ [LF; 100%N])
            ++ (lit "escription: " ++ description) ++ fence ++ tail).
  2:{ change (lit "description: ") with (100%N :: lit "escription: ").
      repeat (progress (rewrite <- ?app_assoc; cbn [app])). reflexivity. }
  rewrite (universal_newlines_plain _ _ Hhead').
  destruct (universal_newlines_fence (lit "escription: " ++ description) tail) as [x' ->].
  replace ((((lit "---" ++ [LF]) ++ lit "name: " ++ slug) ++ [LF; 100%N])
             ++ x' ++ fence ++ universal_newlines tail)
    with ((lit "---" ++ [LF]) ++ (lit "name: " ++ slug) ++ LF
            :: 100%N :: x' ++ fence ++ universal_newlines tail).
  2:{ repeat (progress (rewrite <- ?app_assoc; cbn [app])). reflexivity. }
  by apply front_name_of.
Qed.

(** X20.  What promotion writes, the skill listing reads back: in the
    text of [create_skill_file] for a normalized slug, read with newline
    translation, the front matter gives the slug as name, whatever the
    description, title, details and fingerprint; it gives the trimmed
    description when the description holds no line feed and no carriage
    return. *)
Theorem parse_skill_frontmatter_of_artifact
    (value slug description title details fp : str) :
  safe_slug value = Ok slug ->
  let front := parse_skill_frontmatter
                 (universal_newlines (skill_body slug description title details fp)) in
  f_name front = slug
  /\ (Forall (fun c => c <> LF /\ c <> CR) description ->
      f_description front = strip description).
Proof.
  intros (_ & Hne & Hslug & _)%safe_slug_Ok front. subst front.
  split; [by apply skill_body_front_name|].
  destruct (skill_body_shape slug description title details fp) as [tail ->].
  assert (Hplain : Forall (fun c => c <> LF /\ c <> CR) slug).
  { eapply Forall_impl; [exact Hslug|].
    intros c Hc. by apply slug_alphabet_plain in Hc as (? & ? & ?). }
  assert (Hhead : Forall (fun c => c <> CR) ((lit "---" ++ [LF]) ++ lit "name: " ++ slug)).
  { apply Forall_app. split; [repeat constructor; done|].
    apply Forall_app. split; [repeat constructor; done|].
    eapply Forall_impl; [exact Hplain|]. by intros c [_ ?]. }
  intros Hdesc.
  assert (Hall : Forall (fun c => c <> CR)
                   ((lit "---" ++ [LF]) ++ (lit "name: " ++ slug) ++ LF
                      :: (lit "description: " ++ description) ++ fence)).
  { rewrite app_assoc. apply Forall_app. split; [done|]. constructor; [done|].
    apply Forall_app. split; [|apply fence_plain].
    apply Forall_app. split; [repeat constructor; done|].
    eapply Forall_impl; [exact Hdesc|]. by intros c [_ ?]. }
  replace ((lit "---" ++ [LF]) ++ (lit "name: " ++ slug) ++ LF
             :: (lit "description: " ++ description) ++ fence ++ tail)
    with (((lit "---" ++ [LF]) ++ (lit "name: " ++ slug) ++ LF
             :: (lit "description: " ++ description) ++ fence) ++ tail).
  2:{ rewrite <- !app_assoc. cbn [app]. by rewrite <- !app_assoc. }
  rewrite (universal_newlines_plain _ _ Hall).
  replace (((lit "---" ++ [LF]) ++ (lit "name: " ++ slug) ++ LF
              :: (lit "description: " ++ description) ++ fence) ++ universal_newlines tail)
    with ((lit "---" ++ [LF]) ++ (lit "name: " ++ slug) ++ LF
            :: (lit "description: " ++ description) ++ fence ++ universal_newlines tail).
  2:{ rewrite <- !app_assoc. cbn [app]. by rewrite <- !app_assoc. }
  apply front_description_of.
  - eapply Forall_impl; [exact Hplain|]. by intros c [? _].
  - eapply Forall_impl; [exact Hdesc|]. by intros c [? _].
Qed.

(** X21.  The fields that [parse_skill_frontmatter] returns are trimmed
    and hold no newline, whatever the text; a text that does not start
    with the opening line of three hyphens has both fields empty. *)
Theorem parse_skill_frontmatter_fields (text : str) :
  let front := parse_skill_frontmatter text in
  strip (f_name front) = f_name front
  /\ strip (f_description front) = f_description front
  /\ (LF ∉ f_name front)
  /\ (LF ∉ f_description front)
  /\ (after_literal (lit "---" ++ [LF]) text = None -> front = mkFront [] []).
Proof.
  intros front. subst front. unfold parse_skill_frontmatter, FRONTMATTER_RE.
  assert (Hfield : forall key block,
            let value := match search_field key true block with
                         | Some group => strip group
                         | None => []
                         end in
            strip value = value /\ (LF ∉ value)).
  { intros key block. cbv zeta.
    destruct (search_field key true block) as [group|] eqn:Hsearch.
    - split; [apply strip_idem|]. apply search_field_Some in Hsearch as [_ Hline].
      intros Hin. apply (strip_by_Forall _ is_space) in Hline.
      rewrite Forall_forall in Hline. by apply (Hline LF).
    - split; [done|]. by intros ?%elem_of_nil. }
  destruct (after_literal (lit "---" ++ [LF]) text) as [rest|].
  - destruct (until_fence rest) as [block|]; cbn [f_name f_description].
    + destruct (Hfield (lit "name:") block) as [? ?].
      destruct (Hfield (lit "description:") block) as [? ?].
      unfold NAME_RE, DESCRIPTION_RE. split_and!; done.
    + split_and!; try done; by intros ?%elem_of_nil.
  - split_and!; try done; by intros ?%elem_of_nil.
Qed.

(** X22.  The value of a field is the first text after the key that is
    not white space, up to the end of its line, and the white space
    skipped may hold newlines: a key with nothing on its own line takes
    the whole next line that is not blank, key and all. *)
Theorem field_value_crosses_lines (ws line tail : str) :
  Forall (fun c => is_space c = true) ws ->
  (exists c t, line = c :: t /\ is_space c = false) ->
  Forall (fun c => c <> LF) line ->
  tail = [] \/ (exists t, tail = LF :: t) ->
  NAME_RE (lit "name:" ++ ws ++ line ++ tail) = Some line
  /\ DESCRIPTION_RE (lit "description:" ++ ws ++ line ++ tail) = Some line.
Proof.
  intros Hws Hline Hplain Htail. split; by apply search_field_at_key.
Qed.

(** ** The action log *)

Lemma rev_drop_prefix {A} n (l : list A) : rev (drop n l) `prefix_of` rev l.
Proof.
  exists (rev (take n l)). rewrite <- rev_app_distr. by rewrite take_drop.
Qed.

Lemma elem_of_rev {A} (x : A) l : x ∈ rev l <-> x ∈ l.
Proof. rewrite !list_elem_of_In. symmetry. apply List.in_rev. Qed.

Lemma slice_from_drop {A} (l : list A) start : exists n, slice_from l start = drop n l.
Proof. unfold slice_from. destruct (0 <=? start)%Z; eauto. Qed.

Lemma log_records_lines {J} (json_loads : str -> option J) lines record :
  record ∈ log_records json_loads lines ->
  exists line, line ∈ lines /\ strip line <> [] /\ json_loads line = Some record.
Proof.
  induction lines as [|line lines IH]; cbn [log_records]; [by intros ?%elem_of_nil|].
  assert (Hrest : record ∈ log_records json_loads lines ->
            exists line0, line0 ∈ line :: lines /\ strip line0 <> []
                          /\ json_loads line0 = Some record).
  { intros (line0 & ? & ? & ?)%IH. exists line0. split; [by right | done]. }
  destruct (strip line) as [|c t] eqn:Hstrip; [done|].
  destruct (json_loads line) as [r|] eqn:Hload; [|done].
  intros [->|Hin]%elem_of_cons; [|by apply Hrest].
  exists line. split; [by left|]. split; [by rewrite Hstrip | done].
Qed.

(** X23.  Reading the action log never writes.  A log that is not there
    reads as no records; a directory in its place is an I/O failure.
    Otherwise the records are the lines that are not blank and that
    decode, newest first, and the result is an initial segment of them:
    the newest [limit] for a positive limit, all of them for limit 0,
    and all but the oldest [-limit] for a negative one. *)
Theorem read_logs_window {J : Type} (json_loads : str -> option J) (fs : Fs.t) (limit : Z) :
  snd (read_logs json_loads limit fs) = fs
  /\ (fs !! logs_file_path = None -> fst (read_logs json_loads limit fs) = Ok [])
  /\ (fs !! logs_file_path = Some Fs.Dir ->
      fst (read_logs json_loads limit fs) = Err OSError)
  /\ (forall text, fs !! logs_file_path = Some (Fs.File text) ->
        let records := log_records json_loads (splitlines (universal_newlines text)) in
        exists listed,
          fst (read_logs json_loads limit fs) = Ok listed
          /\ listed `prefix_of` rev records
          /\ (limit = 0%Z -> listed = rev records)
          /\ ((0 < limit)%Z ->
              length listed = Nat.min (Z.to_nat limit) (length records))
          /\ ((limit < 0)%Z -> length listed = length records - Z.to_nat (- limit))
          /\ (forall record, record ∈ listed ->
                exists line, line ∈ splitlines (universal_newlines text)
                             /\ strip line <> [] /\ json_loads line = Some record)).
Proof.
  unfold read_logs, bind, path_exists, read_text, ret, Fs.exists_, Fs.read_text.
  rewrite (node_at_lookup fs logs_file_path) by done.
  destruct (fs !! logs_file_path) as [[text|]|] eqn:Hlog; cbn; rewrite ?Hlog; cbn.
  2:{ split_and!; [done..|]. by intros text. }
  2:{ split_and!; [done..|]. by intros text. }
  split_and!; [done..|].
  intros text' [= <-].
  set (records := log_records json_loads (splitlines (universal_newlines text))).
  eexists. split; [reflexivity|]. split_and!.
  - destruct (slice_from_drop records (- limit)) as [n ->]. apply rev_drop_prefix.
  - intros ->. done.
  - intros Hpos. rewrite length_rev. unfold slice_from.
    destruct (Z.leb_spec 0 (- limit)); [lia|]. rewrite length_drop.
    rewrite Z.opp_involutive. lia.
  - intros Hneg. rewrite length_rev. unfold slice_from.
    destruct (Z.leb_spec 0 (- limit)); [|lia]. by rewrite length_drop.
  - intros record Hin. apply (log_records_lines json_loads).
    apply (proj1 (elem_of_rev _ _)) in Hin. destruct (slice_from_drop records (- limit)) as [n Hn].
    rewrite Hn in Hin. apply list_elem_of_lookup in Hin as [i Hi].
    rewrite lookup_drop in Hi. by eapply list_elem_of_lookup_2.
Qed.

(** ** The skill listing *)

Lemma for_each_read_only {A B} (body : A -> io B) items :
  (forall x fs r fs', body x fs = (r, fs') -> fs' = fs) ->
  forall fs r fs', for_each body items fs = (r, fs') -> fs' = fs.
Proof.
  intros Hbody. induction items as [|x items IH]; intros fs r fs'; cbn [for_each].
  - unfold ret. by intros [= _ <-].
  - unfold bind, ret. destruct (body x fs) as [[y|e] f1] eqn:Hx;
      pose proof (Hbody _ _ _ _ Hx) as ->; [|by intros [= _ <-]].
    destruct (for_each body items fs) as [[ys|e] f2] eqn:Hrest;
      pose proof (IH _ _ _ Hrest) as ->; by intros [= _ <-].
Qed.

Lemma for_each_Ok {A B} (body : A -> io B) items fs ys fs' :
  (forall x fs r fs', body x fs = (r, fs') -> fs' = fs) ->
  for_each body items fs = (Ok ys, fs') ->
  Forall2 (fun x y => body x fs = (Ok y, fs)) items ys.
Proof.
  intros Hbody. revert ys. induction items as [|x items IH]; intros ys; cbn [for_each].
  - unfold ret. intros [= <- _]. constructor.
  - unfold bind, ret. destruct (body x fs) as [[y|e] f1] eqn:Hx;
      pose proof (Hbody _ _ _ _ Hx) as ->; [|done].
    destruct (for_each body items fs) as [[ys0|e] f2] eqn:Hrest;
      pose proof (for_each_read_only body items Hbody _ _ _ Hrest) as ->; [|done].
    intros [= <- <-]. constructor; [done|]. by apply IH.
Qed.

Lemma for_each_run {A B} (body : A -> io B) items fs x :
  (forall x fs r fs', body x fs = (r, fs') -> fs' = fs) ->
  x ∈ items ->
  forall ys fs', for_each body items fs = (Ok ys, fs') ->
  exists y, y ∈ ys /\ body x fs = (Ok y, fs).
Proof.
  intros Hbody Hin ys fs' Hrun.
  pose proof (for_each_Ok body items fs ys fs' Hbody Hrun) as Hall.
  apply list_elem_of_lookup in Hin as [i Hi].
  destruct (Forall2_lookup_l _ _ _ _ _ Hall Hi) as (y & Hy & Hxy).
  exists y. split; [by eapply list_elem_of_lookup_2 | done].
Qed.

Lemma skill_item_of_read_only source p fs r fs' :
  skill_item_of source p fs = (r, fs') -> fs' = fs.
Proof.
  unfold skill_item_of, bind, read_text, ret.
  destruct (Fs.read_text fs p); by intros [= _ <-].
Qed.

Lemma elem_of_insert_sorted x p l : x ∈ insert_sorted p l <-> x = p \/ x ∈ l.
Proof.
  induction l as [|q l IH]; cbn [insert_sorted].
  - by rewrite elem_of_cons.
  - destruct (path_leb p q).
    + by rewrite elem_of_cons.
    + rewrite !elem_of_cons, IH. tauto.
Qed.

Lemma elem_of_sorted x l : x ∈ sorted l <-> x ∈ l.
Proof.
  unfold sorted. induction l as [|p l IH]; cbn [foldr]; [done|].
  by rewrite elem_of_insert_sorted, elem_of_cons, IH.
Qed.

Lemma elem_of_descendants_named fs root name p :
  p ∈ descendants_named fs root name <->
  is_Some (fs !! p) /\ last p = Some name /\ reached fs root (Fs.parent p) = true.
Proof.
  unfold descendants_named. rewrite list_elem_of_In, List.filter_In, <- list_elem_of_In.
  rewrite andb_true_iff, bool_decide_eq_true. rewrite list_elem_of_fmap.
  split.
  - intros [([q n] & -> & Hq%elem_of_map_to_list) [? ?]]. cbn [fst] in *. eauto.
  - intros ([n Hn] & ? & ?). split; [|done]. exists (p, n). split; [done|].
    by apply elem_of_map_to_list.
Qed.

Lemma skills_of_root_read_only source root fs r fs' :
  skills_of_root source root fs = (r, fs') -> fs' = fs.
Proof.
  unfold skills_of_root, bind, path_exists, rglob, ret. cbn match.
  destruct (Fs.exists_ fs root); cbn [negb]; [|by intros [= _ <-]].
  apply for_each_read_only. apply skill_item_of_read_only.
Qed.

Lemma build_skills_read_only fs r fs' : build_skills fs = (r, fs') -> fs' = fs.
Proof.
  unfold build_skills, bind, ret.
  destruct (for_each _ skill_roots fs) as [[per_root|e] f] eqn:Hrun.
  - apply for_each_read_only in Hrun as ->; [by intros [= _ <-]|].
    intros [label root] ? ? ?. apply skills_of_root_read_only.
  - apply for_each_read_only in Hrun as ->; [by intros [= _ <-]|].
    intros [label root] ? ? ?. apply skills_of_root_read_only.
Qed.

(** What [build_skills] returns, root by root. *)
Lemma build_skills_Ok fs listing fs' :
  build_skills fs = (Ok listing, fs') ->
  exists per_root,
    Forall2 (fun r items => skills_of_root (fst r) (snd r) fs = (Ok items, fs))
      skill_roots per_root
    /\ listing = mkSkills (length (concat per_root)) (concat per_root).
Proof.
  unfold build_skills, bind, ret.
  destruct (for_each _ skill_roots fs) as [[per_root|e] f] eqn:Hrun; [|done].
  intros [= <- _]. exists per_root. split; [|done].
  apply for_each_Ok in Hrun; [done|].
  intros [label root] ? ? ?. apply skills_of_root_read_only.
Qed.

(** An item of the listing comes from a file called [SKILL.md] below
    the root of its source. *)
Lemma skills_of_root_item source root fs items fs' item :
  skills_of_root source root fs = (Ok items, fs') -> item ∈ items ->
  exists p text,
    root `prefix_of` p /\ last p = Some (lit "SKILL.md")
    /\ fs !! p = Some (Fs.File text)
    /\ item = mkSkill source
                (or_else (f_name (parse_skill_frontmatter (universal_newlines text)))
                   (default [] (last (Fs.parent p))))
                (or_else (f_description (parse_skill_frontmatter (universal_newlines text)))
                   (lit "No description"))
                (Fs.to_str p).
Proof.
  unfold skills_of_root, bind, path_exists, rglob, ret. cbn match.
  destruct (Fs.exists_ fs root); cbn [negb].
  2:{ intros [= <- _]. by intros ?%elem_of_nil. }
  intros Hrun Hin.
  apply for_each_Ok in Hrun; [|apply skill_item_of_read_only].
  apply list_elem_of_lookup in Hin as [i Hi].
  destruct (Forall2_lookup_r _ _ _ _ _ Hrun Hi) as (p & Hp & Hitem).
  apply list_elem_of_lookup_2, elem_of_sorted, elem_of_descendants_named in Hp
    as ([n Hn] & Hlast & Hreach).
  assert (Hpne : p <> []) by (by destruct p).
  unfold skill_item_of, bind, read_text, ret, Fs.read_text in Hitem.
  rewrite node_at_lookup, Hn in Hitem by done.
  destruct n as [text|]; [|done]. injection Hitem as <-.
  exists p, text. split_and!; try done.
  unfold reached in Hreach. apply andb_true_iff in Hreach as [Hpre%bool_decide_eq_true _].
  etrans; [exact Hpre|]. unfold Fs.parent.
  destruct (exists_last Hpne) as (q & c & ->). rewrite removelast_last.
  by apply prefix_app_r.
Qed.

(** X24.  The skill listing never writes.  When it succeeds, its total
    is the number of its items, and every item comes from a file called
    [SKILL.md] below the root of its source: its path is that of the
    file, its name is the name of the front matter, or the name of the
    directory of the file when that is empty, and its description is
    never empty. *)
Theorem build_skills_listing (fs fs' : Fs.t) (r : result skills) :
  build_skills fs = (r, fs') ->
  fs' = fs
  /\ forall listing, r = Ok listing ->
       s_total listing = length (s_items listing)
       /\ forall item, item ∈ s_items listing ->
            s_description item <> []
            /\ exists root p text,
                 (s_source item, root) ∈ skill_roots
                 /\ root `prefix_of` p /\ last p = Some (lit "SKILL.md")
                 /\ fs !! p = Some (Fs.File text)
                 /\ s_path item = Fs.to_str p
                 /\ s_name item
                    = or_else (f_name (parse_skill_frontmatter (universal_newlines text)))
                        (default [] (last (Fs.parent p))).
Proof.
  intros Hrun. pose proof (build_skills_read_only _ _ _ Hrun) as ->.
  split; [done|]. intros listing ->.
  apply build_skills_Ok in Hrun as (per_root & Hall & ->). cbn [s_total s_items].
  split; [done|]. intros item Hin.
  apply list_elem_of_In, in_concat in Hin as (items & Hitems & Hitem).
  apply list_elem_of_In, list_elem_of_lookup in Hitems as [i Hi].
  destruct (Forall2_lookup_r _ _ _ _ _ Hall Hi) as ([label root] & Hroot & Hrun).
  cbn [fst snd] in Hrun. apply list_elem_of_In in Hitem.
  destruct (skills_of_root_item _ _ _ _ _ _ Hrun Hitem)
    as (p & text & Hpre & Hlast & Hfile & ->).
  cbn [s_description s_source s_path s_name]. split.
  - unfold or_else. by destruct (f_description _).
  - exists root, p, text. split_and!; try done. by eapply list_elem_of_lookup_2.
Qed.

Lemma skill_dir_root target slug dir :
  skill_dir target slug = Ok dir ->
  exists label root,
    (label, root) ∈ skill_roots /\ dir = root ++ [slug]
    /\ label = (if str_eqb target (lit "skills") then lit "cursor" else lit "cursor-custom").
Proof.
  unfold skill_dir. destruct (str_eqb target (lit "skills")).
  - intros [= <-]. exists (lit "cursor"), [lit "cursor"; lit "skills"].
    split; [by left | done].
  - destruct (str_eqb target (lit "skills-cursor")); [|done].
    intros [= <-]. exists (lit "cursor-custom"), [lit "cursor"; lit "skills-cursor"].
    split; [right; by left | done].
Qed.

Lemma Ok_inj {A} (a b : A) : Ok a = Ok b -> a = b.
Proof. by intros [= ->]. Qed.

Lemma is_dir_node fs p : Fs.node_at fs p = Some Fs.Dir -> Fs.is_dir fs p = true.
Proof. unfold Fs.is_dir. by intros ->. Qed.

(** X25.  A promoted skill shows in the listing: after a promotion that
    succeeded on a well-formed file system, a skill listing that
    succeeds holds an item whose path is the artifact, whose name is the
    normalized slug and whose source is that of the target. *)
Theorem build_skills_lists_promoted
    (fs fs' fs'' : Fs.t) (source fp slug description target : str) (listing : skills) :
  Fs.well_formed fs ->
  cmd_promote source fp slug description target fs = (Ok tt, fs') ->
  build_skills fs' = (Ok listing, fs'') ->
  exists item normalized_slug dir,
    safe_slug slug = Ok normalized_slug
    /\ skill_dir target normalized_slug = Ok dir
    /\ item ∈ s_items listing
    /\ s_name item = normalized_slug
    /\ s_path item = Fs.to_str (dir ++ [lit "SKILL.md"])
    /\ s_source item
       = (if str_eqb target (lit "skills") then lit "cursor" else lit "cursor-custom").
Proof.
  intros Hwf Hrun Hlist.
  destruct (cmd_promote_Ok _ _ _ _ _ _ _ Hrun)
    as (p & old & lines2 & entry & ns & dir & fs1 & Hp & Hold & Hslug & Hdir
        & (Hsub & _ & Hwf1) & Hdirnode & Hnone & ->).
  destruct (entries_path_Ok _ _ Hp) as [Hlen Hpne].
  destruct (skill_dir_Ok _ _ _ Hdir) as [Hdlen _].
  destruct (skill_dir_root _ _ _ Hdir) as (label & root & Hroot & Hdirroot & Hlabel).
  destruct (safe_slug_Ok _ _ Hslug) as (_ & Hne & Halpha & _).
  set (artifact := dir ++ [lit "SKILL.md"]) in *.
  set (body := artifact_text ns description fp entry) in *.
  set (fs2 := <[artifact := Fs.File body]> fs1) in *.
  set (fs3 := <[p := Fs.File (saved_text lines2)]> fs2) in *.
  assert (Hne_ap : artifact <> p).
  { intros Heq. apply (f_equal length) in Heq. unfold artifact in Heq.
    rewrite length_app in Heq. cbn in Heq. lia. }
  assert (Hwf2 : Fs.well_formed fs2).
  { apply well_formed_insert_new; [by apply Hwf1 | done | apply snoc_not_nil |].
    unfold artifact. by rewrite parent_snoc. }
  assert (Hfile2 : fs2 !! p = Some (Fs.File old)).
  { unfold fs2. rewrite lookup_insert_ne by done. by eapply lookup_weaken. }
  assert (Hwf3 : Fs.well_formed fs3) by (by eapply well_formed_write).
  assert (Hart : fs3 !! artifact = Some (Fs.File body)).
  { unfold fs3. rewrite lookup_insert_ne by (intros Heq; by apply Hne_ap).
    unfold fs2. by rewrite lookup_insert_eq. }
  assert (Hdir3 : Fs.node_at fs3 dir = Some Fs.Dir).
  { pose proof (Hwf3 _ _ Hart) as H. unfold artifact in H. by rewrite parent_snoc in H. }
  assert (Hroot3 : Fs.node_at fs3 root = Some Fs.Dir).
  { assert (Hdne : dir <> []) by (rewrite Hdirroot; apply snoc_not_nil).
    rewrite node_at_lookup in Hdir3 by done.
    pose proof (Hwf3 _ _ Hdir3) as H. by rewrite Hdirroot, parent_snoc in H. }
  apply build_skills_Ok in Hlist as (per_root & Hall & ->). cbn [s_items].
  apply list_elem_of_lookup in Hroot as [i Hi].
  destruct (Forall2_lookup_l _ _ _ _ _ Hall Hi) as (items & Hitems & Hrun_root).
  cbn [fst snd] in Hrun_root.
  unfold skills_of_root, bind, path_exists, rglob, ret in Hrun_root.
  cbn match in Hrun_root. unfold Fs.exists_ in Hrun_root.
  rewrite Hroot3 in Hrun_root. cbn [negb] in Hrun_root.
  assert (Hin : artifact ∈ sorted (descendants_named fs3 root (lit "SKILL.md"))).
  { apply elem_of_sorted, elem_of_descendants_named. split_and!.
    - by rewrite Hart.
    - unfold artifact. by rewrite last_snoc.
    - unfold artifact. rewrite parent_snoc. unfold reached.
      apply andb_true_iff. split.
      + apply bool_decide_eq_true. rewrite Hdirroot. by apply prefix_app_r.
      + assert (Hrlen : length root = 2).
        { rewrite Hdirroot, length_app in Hdlen. cbn in Hdlen. lia. }
        rewrite Hrlen, Hdlen. cbn [seq forallb Nat.sub].
        rewrite (take_ge dir 3) by lia.
        assert (Htake : take 2 dir = root).
        { rewrite Hdirroot. rewrite take_app_length'; done. }
        rewrite Htake. rewrite (is_dir_node _ _ Hroot3), (is_dir_node _ _ Hdir3). done. }
  destruct (for_each_run _ _ _ _ (skill_item_of_read_only label) Hin _ _ Hrun_root)
    as (item & Hitem & Hread).
  unfold skill_item_of, bind, read_text, ret, Fs.read_text in Hread.
  rewrite node_at_lookup, Hart in Hread by apply snoc_not_nil.
  apply (f_equal fst) in Hread. cbn [fst] in Hread. apply Ok_inj in Hread.
  exists item, ns, dir. split_and!; [done | done | | | |].
  - apply list_elem_of_In, in_concat. exists items. split; apply list_elem_of_In; [|done].
    by eapply list_elem_of_lookup_2.
  - rewrite <- Hread. cbv zeta. cbn [s_name]. subst body. unfold artifact_text.
    rewrite skill_body_front_name by done. unfold or_else. by destruct ns.
  - by rewrite <- Hread.
  - by rewrite <- Hread.
Qed.

Lemma for_each_all {A B} (body : A -> io B) items fs :
  (forall x, x ∈ items -> exists y, body x fs = (Ok y, fs)) ->
  exists ys, for_each body items fs = (Ok ys, fs).
Proof.
  induction items as [|x items IH]; intros Hall; cbn [for_each].
  - by exists [].
  - destruct (Hall x) as [y Hy]; [by left|].
    destruct IH as [ys Hys]; [intros x' Hx'; apply Hall; by right|].
    exists (y :: ys). unfold bind, ret. by rewrite Hy, Hys.
Qed.

Lemma for_each_Err {A B} (body : A -> io B) items fs err fs' :
  (forall x fs r fs', body x fs = (r, fs') -> fs' = fs) ->
  for_each body items fs = (Err err, fs') ->
  exists x, x ∈ items /\ body x fs = (Err err, fs).
Proof.
  intros Hbody. induction items as [|x items IH]; cbn [for_each]; [done|].
  unfold bind, ret. destruct (body x fs) as [[y|e] f1] eqn:Hx;
    pose proof (Hbody _ _ _ _ Hx) as ->.
  - destruct (for_each body items fs) as [[ys|e] f2] eqn:Hrest;
      pose proof (for_each_read_only body items Hbody _ _ _ Hrest) as ->; [done|].
    intros [= <- <-]. destruct IH as (x' & Hx' & Hrun); [done|].
    exists x'. split; [by right | done].
  - intros [= <- <-]. exists x. split; [by left | done].
Qed.

Lemma skill_item_of_file source p fs :
  p <> [] ->
  (forall text, fs !! p = Some (Fs.File text) ->
     exists item, skill_item_of source p fs = (Ok item, fs)
                  /\ s_source item = source /\ s_path item = Fs.to_str p)
  /\ (forall r, skill_item_of source p fs = (r, fs) ->
        match r with
        | Ok _ => exists text, fs !! p = Some (Fs.File text)
        | Err err => err = OSError
        end).
Proof.
  intros Hp. unfold skill_item_of, bind, read_text, ret, Fs.read_text.
  rewrite node_at_lookup by done. split.
  - intros text ->. eexists. split; [reflexivity|]. done.
  - intros r. destruct (fs !! p) as [[text|]|]; intros [= <-]; eauto.
Qed.

Lemma descendants_named_root fs root name p :
  p ∈ descendants_named fs root name -> Fs.exists_ fs root = true /\ p <> [].
Proof.
  intros (_ & Hlast & Hreach)%elem_of_descendants_named. split; [|by destruct p].
  unfold reached in Hreach. apply andb_true_iff in Hreach as [Hpre%bool_decide_eq_true Hall].
  cbn [seq forallb] in Hall. apply andb_true_iff in Hall as [Hroot _].
  assert (Htake : take (length root) (Fs.parent p) = root).
  { destruct Hpre as [k ->]. by rewrite take_app_length. }
  rewrite Htake in Hroot. unfold Fs.is_dir in Hroot. unfold Fs.exists_.
  by destruct (Fs.node_at fs root).
Qed.

(** The run of the outer loop body on a root, from its files. *)
Lemma skills_of_root_run source root fs :
  (exists items, skills_of_root source root fs = (Ok items, fs))
  \/ (skills_of_root source root fs = (Err OSError, fs)
      /\ exists p, p ∈ descendants_named fs root (lit "SKILL.md")
                   /\ fs !! p = Some Fs.Dir).
Proof.
  unfold skills_of_root, bind, path_exists, rglob, ret. cbn match.
  destruct (Fs.exists_ fs root); cbn [negb]; [|left; by exists []].
  destruct (for_each (skill_item_of source)
              (sorted (descendants_named fs root (lit "SKILL.md"))) fs)
    as [[items|err] f] eqn:Hrun;
    pose proof (for_each_read_only _ _ (skill_item_of_read_only source) _ _ _ Hrun) as ->.
  - left. by exists items.
  - right. apply for_each_Err in Hrun as (p & Hp & Hitem);
      [|apply skill_item_of_read_only].
    apply (proj1 (elem_of_sorted _ _)) in Hp.
    destruct (descendants_named_root _ _ _ _ Hp) as [_ Hpne].
    destruct (skill_item_of_file source p fs Hpne) as [_ Hout].
    pose proof (Hout _ Hitem) as ->. split; [done|]. exists p. split; [done|].
    apply elem_of_descendants_named in Hp as ([n Hn] & _ & _).
    unfold skill_item_of, bind, read_text, ret, Fs.read_text in Hitem.
    rewrite node_at_lookup, Hn in Hitem by done. by destruct n.
Qed.

(** X26.  [rglob] also yields directories called [SKILL.md], and reading
    one raises: the skill listing succeeds exactly when every entry
    called [SKILL.md] that is reached from one of the three roots is a
    file; it fails with an I/O failure only; and when it succeeds it
    lists every such entry, under the source of its root. *)
Theorem build_skills_outcome (fs : Fs.t) :
  ((exists listing, fst (build_skills fs) = Ok listing) <->
   forall label root p,
     (label, root) ∈ skill_roots -> p ∈ descendants_named fs root (lit "SKILL.md") ->
     exists text, fs !! p = Some (Fs.File text))
  /\ (forall err, fst (build_skills fs) = Err err -> err = OSError)
  /\ (forall listing label root p,
        fst (build_skills fs) = Ok listing ->
        (label, root) ∈ skill_roots -> p ∈ descendants_named fs root (lit "SKILL.md") ->
        exists item, item ∈ s_items listing
                     /\ s_source item = label /\ s_path item = Fs.to_str p).
Proof.
  assert (Hbody : forall (r : str * Fs.path) fs0 res fs1,
            skills_of_root (fst r) (snd r) fs0 = (res, fs1) -> fs1 = fs0).
  { intros [label root] ? ? ?. apply skills_of_root_read_only. }
  assert (Hlisted : forall listing label root p,
            fst (build_skills fs) = Ok listing ->
            (label, root) ∈ skill_roots ->
            p ∈ descendants_named fs root (lit "SKILL.md") ->
            exists item text, item ∈ s_items listing /\ fs !! p = Some (Fs.File text)
                              /\ s_source item = label /\ s_path item = Fs.to_str p).
  { intros listing label root p Hrun Hroot Hp.
    destruct (build_skills fs) as [r f] eqn:Hbuild. cbn [fst] in Hrun. subst r.
    apply build_skills_Ok in Hbuild as (per_root & Hall & ->). cbn [s_items].
    apply list_elem_of_lookup in Hroot as [i Hi].
    destruct (Forall2_lookup_l _ _ _ _ _ Hall Hi) as (items & Hitems & Hrun_root).
    cbn [fst snd] in Hrun_root.
    destruct (descendants_named_root _ _ _ _ Hp) as [Hex Hpne].
    unfold skills_of_root, bind, path_exists, rglob, ret in Hrun_root.
    cbn match in Hrun_root. rewrite Hex in Hrun_root. cbn [negb] in Hrun_root.
    apply (proj2 (elem_of_sorted _ _)) in Hp.
    destruct (for_each_run _ _ _ _ (skill_item_of_read_only label) Hp _ _ Hrun_root)
      as (item & Hitem & Hread).
    destruct (skill_item_of_file label p fs Hpne) as [Hfile Hout].
    destruct (Hout _ Hread) as [text Htext].
    destruct (Hfile text Htext) as (item' & Hread' & Hsource & Hpath).
    assert (item' = item) as -> by congruence.
    exists item, text. split_and!; try done.
    apply list_elem_of_In, in_concat. exists items. split; apply list_elem_of_In; [|done].
    by eapply list_elem_of_lookup_2. }
  split_and!.
  - split.
    + intros [listing Hrun] label root p Hroot Hp.
      destruct (Hlisted listing label root p Hrun Hroot Hp) as (_ & text & _ & Htext & _).
      by exists text.
    + intros Hfiles.
      destruct (for_each_all (fun r => skills_of_root (fst r) (snd r)) skill_roots fs)
        as [per_root Hrun].
      * intros [label root] Hroot. cbn [fst snd].
        destruct (skills_of_root_run label root fs) as [Hok | [_ (p & Hp & Hdir)]]; [done|].
        destruct (Hfiles label root p Hroot Hp) as [text Htext]. congruence.
      * eexists. unfold build_skills, bind, ret. rewrite Hrun. reflexivity.
  - intros err. unfold build_skills, bind, ret.
    destruct (for_each _ skill_roots fs) as [[per_root|e] f] eqn:Hrun; [done|].
    cbn [fst]. intros [= ->].
    pose proof (for_each_read_only _ _ Hbody _ _ _ Hrun) as ->.
    apply for_each_Err in Hrun as ([label root] & _ & Hroot); [|exact Hbody].
    cbn [fst snd] in Hroot.
    destruct (skills_of_root_run label root fs) as [[items Hok] | [Herr _]]; congruence.
  - intros listing label root p Hrun Hroot Hp.
    destruct (Hlisted listing label root p Hrun Hroot Hp) as (item & _ & ? & _ & ? & ?).
    by exists item.
Qed.

(** ** Worked instances of the further properties *)

Lemma pair_fst_snd {A B} (x : A * B) (a : A) : fst x = a -> x = (a, snd x).
Proof. destruct x. cbn. by intros ->. Qed.

Lemma twice_entry_parsed : twice_entry ∈ parse_entries twice.
Proof. apply list_elem_of_In. vm_compute. left. reflexivity. Qed.

Lemma status_recognized : recognized (lit "status").
Proof. apply list_elem_of_In. vm_compute. auto. Qed.

Lemma after_review_well_formed : Fs.well_formed after_review.
Proof. apply well_formed_b_sound. vm_compute. reflexivity. Qed.


Lemma scenario_promote_run :
  cmd_promote (lit "manual") (lit "abc123") (lit "My Pattern") (lit "") (lit "skills")
    after_review = (Ok tt, after_promote).
Proof. apply (pair_fst_snd (cmd_promote _ _ _ _ _ _)). vm_compute. reflexivity. Qed.


Lemma parse_entries_last_write_wins_witness :
  twice_entry ∈ parse_entries twice
  /\ entry_field (lit "status") twice_entry = Some (lit "last").
Proof.
  split; [exact twice_entry_parsed|].
  destruct (parse_entries_last_write_wins twice twice_entry (lit "status")
              twice_entry_parsed status_recognized) as (_ & _ & Hlast).
  apply (Hlast [lit "  - status: first"] (lit "  - status: last") [] (lit "last")).
  - vm_compute. reflexivity.
  - vm_compute. reflexivity.
  - constructor.
Defined.

Lemma update_or_insert_kv_other_records_witness :
  twice_entry ∈ parse_entries twice
  /\ exists lines' d,
       update_or_insert_kv twice twice_entry (lit "status") (lit "approved") = Ok lines'
       /\ d <= 1 /\ length lines' = length twice + d.
Proof.
  split; [exact twice_entry_parsed|].
  destruct (update_or_insert_kv_other_records twice twice_entry (lit "status")
              (lit "approved") twice_entry_parsed status_recognized)
    as (before & after & lines' & e' & d & _ & Hup & Hd & Hlen & _).
  by exists lines', d.
Defined.

Lemma update_or_insert_kv_then_parse_witness :
  one_entry "pending" ∈ parse_entries (one_record "pending")
  /\ exists lines' e',
       update_or_insert_kv (one_record "pending") (one_entry "pending")
         (lit "status") (lit "approved") = Ok lines'
       /\ e' ∈ parse_entries lines'
       /\ entry_field (lit "status") e' = Some (lit "approved").
Proof.
  assert (Hin : one_entry "pending" ∈ parse_entries (one_record "pending")).
  { apply list_elem_of_In. vm_compute. left. reflexivity. }
  split; [exact Hin|].
  destruct (update_or_insert_kv_then_parse (one_record "pending") (one_entry "pending")
              (lit "status") (lit "approved") Hin status_recognized)
    as (lines' & e' & Hup & He' & _ & Hfield).
  - intros Hlf. apply list_elem_of_In in Hlf. vm_compute in Hlf. intuition discriminate.
  - intros i j li lj Hi Hij Hj Hli Hsw Hlj.
    change (end_index (one_entry "pending")) with 3 in Hj.
    change (header_index (one_entry "pending")) with 0 in Hi.
    destruct i as [|[|[|i]]]; try lia.
    injection Hli as <-. vm_compute in Hsw. discriminate.
  - by exists lines', e'.
Defined.

Lemma reserialize_idempotent_witness :
  ragged_fs !! [lit "entries.md"] = Some (Fs.File [97; 12; 98; 32; 10; 10]%N)
  /\ exists fs1,
       reserialize [lit "entries.md"] ragged_fs = (Ok tt, fs1)
       /\ reserialize [lit "entries.md"] fs1 = (Ok tt, fs1).
Proof.
  split; [vm_compute; reflexivity|].
  destruct (reserialize_idempotent ragged_fs [lit "entries.md"] [97; 12; 98; 32; 10; 10]%N)
    as (fs1 & H1 & H2 & _).
  - apply well_formed_b_sound. vm_compute. reflexivity.
  - discriminate.
  - vm_compute. reflexivity.
  - by exists fs1.
Defined.


Lemma safe_slug_alphabet_witness :
  safe_slug (lit "My Pattern") = Ok (lit "my-pattern")
  /\ Forall (fun c => slug_alphabet c = true) (lit "my-pattern")
  /\ (47%N ∉ lit "my-pattern").
Proof.
  assert (Hslug : safe_slug (lit "My Pattern") = Ok (lit "my-pattern"))
    by (vm_compute; reflexivity).
  split; [exact Hslug|].
  destruct (safe_slug_alphabet (lit "My Pattern") (lit "my-pattern") Hslug)
    as (_ & Hall & _ & Hsep & _).
  by split.
Defined.

Lemma safe_slug_idempotent_witness :
  safe_slug (lit "My Pattern") = Ok (lit "my-pattern")
  /\ safe_slug (lit "my-pattern") = Ok (lit "my-pattern").
Proof.
  assert (Hslug : safe_slug (lit "My Pattern") = Ok (lit "my-pattern"))
    by (vm_compute; reflexivity).
  split; [exact Hslug|].
  exact (safe_slug_idempotent (lit "My Pattern") (lit "my-pattern") Hslug).
Defined.



Lemma cmd_promote_once_witness :
  safe_slug (lit " my pattern ") = safe_slug (lit "My Pattern")
  /\ Fs.well_formed after_promote
  /\ exists err,
       cmd_promote (lit "generated") (lit "zzz") (lit " my pattern ") (lit "other")
         (lit "skills") after_promote = (Err err, after_promote).
Proof.
  assert (Hsame : safe_slug (lit " my pattern ") = safe_slug (lit "My Pattern"))
    by (vm_compute; reflexivity).
  split; [exact Hsame|].
  destruct (cmd_promote_once after_review after_promote (lit "manual") (lit "abc123")
              (lit "My Pattern") (lit "") (lit "skills") after_review_well_formed
              scenario_promote_run) as [Hwf Hagain].
  split; [exact Hwf|].
  exact (Hagain (lit "generated") (lit "zzz") (lit " my pattern ") (lit "other") Hsame).
Defined.





Lemma parse_skill_frontmatter_of_artifact_witness :
  safe_slug (lit "My Pattern") = Ok (lit "my-pattern")
  /\ f_name (parse_skill_frontmatter
               (universal_newlines
                  (skill_body (lit "my-pattern") (lit " A pattern ") (lit "Title")
                     (lit "x") (lit "abc123")))) = lit "my-pattern"
  /\ f_description (parse_skill_frontmatter
                      (universal_newlines
                         (skill_body (lit "my-pattern") (lit " A pattern ") (lit "Title")
                            (lit "x") (lit "abc123")))) = lit "A pattern".
Proof.
  assert (Hslug : safe_slug (lit "My Pattern") = Ok (lit "my-pattern"))
    by (vm_compute; reflexivity).
  split; [exact Hslug|].
  destruct (parse_skill_frontmatter_of_artifact (lit "My Pattern") (lit "my-pattern")
              (lit " A pattern ") (lit "Title") (lit "x") (lit "abc123") Hslug)
    as [Hname Hdesc].
  split; [exact Hname|]. rewrite Hdesc; [vm_compute; reflexivity|].
  repeat constructor; discriminate.
Defined.

Lemma field_value_crosses_lines_witness :
  NAME_RE (lit "name:" ++ [32; 32; 10]%N ++ lit "description: x" ++ []) 
  = Some (lit "description: x").
Proof.
  destruct (field_value_crosses_lines [32; 32; 10]%N (lit "description: x") [])
    as [Hname _].
  - repeat constructor.
  - exists 100%N, (lit "escription: x"). split; reflexivity.
  - repeat constructor; discriminate.
  - by left.
  - exact Hname.
Defined.

Lemma build_skills_listing_witness :
  fst (build_skills after_promote) = Ok promoted_listing
  /\ snd (build_skills after_promote) = after_promote
  /\ s_total promoted_listing = length (s_items promoted_listing).
Proof.
  assert (Hfst : fst (build_skills after_promote) = Ok promoted_listing)
    by (vm_compute; reflexivity).
  split; [exact Hfst|].
  destruct (build_skills_listing after_promote _ (Ok promoted_listing)
              (pair_fst_snd _ _ Hfst)) as [Hsame Hitems].
  split; [exact Hsame|].
  by destruct (Hitems promoted_listing eq_refl) as [Htotal _].
Defined.

Lemma build_skills_lists_promoted_witness :
  fst (build_skills after_promote) = Ok promoted_listing
  /\ exists item,
       item ∈ s_items promoted_listing
       /\ s_path item = lit "cursor/skills/my-pattern/SKILL.md".
Proof.
  assert (Hfst : fst (build_skills after_promote) = Ok promoted_listing)
    by (vm_compute; reflexivity).
  split; [exact Hfst|].
  destruct (build_skills_lists_promoted after_review after_promote _ (lit "manual")
              (lit "abc123") (lit "My Pattern") (lit "") (lit "skills") promoted_listing
              after_review_well_formed scenario_promote_run (pair_fst_snd _ _ Hfst))
    as (item & ns & dir & Hslug & Hdir & Hin & _ & Hpath & _).
  exists item. split; [exact Hin|].
  rewrite Hpath.
  assert (ns = lit "my-pattern") as ->.
  { assert (Hs : safe_slug (lit "My Pattern") = Ok (lit "my-pattern"))
      by (vm_compute; reflexivity). congruence. }
  assert (dir = my_pattern_dir) as ->.
  { assert (Hd : skill_dir (lit "skills") (lit "my-pattern") = Ok my_pattern_dir)
      by (vm_compute; reflexivity). congruence. }
  vm_compute. reflexivity.
Defined.
